(** * GPX Navigator: the route parser, the bounding region and the
      navigation controller, embedded from [src/src/gpx.ts] and [src/App.tsx].

    JavaScript numbers are IEEE 754 binary64 values.  They are modelled by
    the Standard Library's executable specification of binary floating point
    ([spec_float], round to nearest, ties to even) at precision 53 and
    maximal exponent 1024, so that overflow, NaN and the two zeros behave as
    they do at run time. *)

From Stdlib Require Import ZArith List String Ascii Bool Lia.
From Stdlib Require Import Sorting.Permutation.
From Stdlib Require Import Floats.SpecFloat.
Import ListNotations.
Local Open Scope Z_scope.

(** ** Numbers *)

Module Num.

Definition number := spec_float.

Definition prec : Z := 53.
Definition emax : Z := 1024.

Definition NaN : number := S754_nan.
Definition posInf : number := S754_infinity false.
Definition negInf : number := S754_infinity true.
Definition posZero : number := S754_zero false.
Definition negZero : number := S754_zero true.

(** The binary64 value nearest to an integer. *)
Definition ofZ (z : Z) : number := binary_normalize prec emax z 0 false.

(** The binary64 value nearest to the decimal [m * 10^e] ([0 <= m]); this is
    the value of a numeric literal of the source and of a decimal string. *)
Definition ofDecimal (neg : bool) (m e : Z) : number :=
  if m <=? 0 then S754_zero neg
  else if 0 <=? e then
    binary_normalize prec emax ((if neg then Z.opp m else m) * 10 ^ e) 0 false
  else
    SFdiv prec emax (S754_finite neg (Z.to_pos m) 0)
                    (S754_finite false (Z.to_pos (10 ^ (- e))) 0).

Definition add : number -> number -> number := SFadd prec emax.
Definition sub : number -> number -> number := SFsub prec emax.
Definition mul : number -> number -> number := SFmul prec emax.
Definition div : number -> number -> number := SFdiv prec emax.

(** [a < b], [a <= b] and [a == b] on numbers; all false when an operand is NaN. *)
Definition ltb : number -> number -> bool := SFltb.
Definition leb : number -> number -> bool := SFleb.
Definition eqb : number -> number -> bool := SFeqb.

Definition isNaN (x : number) : bool :=
  match x with S754_nan => true | _ => false end.

(** [Number.isFinite] *)
Definition isFinite (x : number) : bool :=
  match x with
  | S754_zero _ | S754_finite _ _ _ => true
  | S754_infinity _ | S754_nan => false
  end.

Definition isPosZero (x : number) : bool :=
  match x with S754_zero false => true | _ => false end.
Definition isNegZero (x : number) : bool :=
  match x with S754_zero true => true | _ => false end.

(** [Math.min(...args)]: NaN if an argument is NaN; otherwise the loop of
    the language definition, which starts from +Infinity and orders -0
    below +0. *)
Definition minStep (lowest x : number) : number :=
  if isNegZero x && isPosZero lowest then negZero
  else if ltb x lowest then x else lowest.

Definition Math_min (args : list number) : number :=
  if existsb isNaN args then NaN else fold_left minStep args posInf.

(** [Math.max(...args)], symmetrically, from -Infinity and with +0 above -0. *)
Definition maxStep (highest x : number) : number :=
  if isPosZero x && isNegZero highest then posZero
  else if ltb highest x then x else highest.

Definition Math_max (args : list number) : number :=
  if existsb isNaN args then NaN else fold_left maxStep args negInf.

(** The integer nearest to [m / 2^k], or to its opposite when [neg], ties
    towards +Infinity: [floor (x + 1/2)]. *)
Definition nearestInteger (neg : bool) (m : positive) (k : Z) : Z :=
  let twice := if neg then - (2 * Z.pos m) else 2 * Z.pos m in
  (twice + 2 ^ k) / 2 ^ (k + 1).

(** [Math.round]: a number that is not finite or already integral is
    returned as it is; otherwise the nearest integer, ties towards
    +Infinity, with the sign of the argument kept on a zero result. *)
Definition Math_round (x : number) : number :=
  match x with
  | S754_finite s m e =>
      if 0 <=? e then x
      else if Z.pos m mod 2 ^ (- e) =? 0 then x
      else
        let r := nearestInteger s m (- e) in
        if r =? 0 then S754_zero s else ofZ r
  | _ => x
  end.

End Num.

(** ** Strings and their conversions to and from numbers

    A string is the sequence of the UTF-8 bytes of its text. *)

Module Str.
Import Num.

Definition code (c : ascii) : Z := Z.of_N (N_of_ascii c).

Definition isDigit (c : ascii) : bool := (48 <=? code c) && (code c <=? 57).

(** Value of a digit in a radix up to 16, if [c] is one. *)
Definition digitValue (radix : Z) (c : ascii) : option Z :=
  let n := code c in
  let v := if (48 <=? n) && (n <=? 57) then n - 48
           else if (97 <=? n) && (n <=? 102) then n - 87
           else if (65 <=? n) && (n <=? 70) then n - 55
           else 16 in
  if v <? radix then Some v else None.

(** Length in bytes of the white space or line terminator that starts [s]
    (0 if there is none): TAB, LF, VT, FF, CR, SP, U+00A0, U+1680,
    U+2000..U+200A, U+2028, U+2029, U+202F, U+205F, U+3000 and U+FEFF. *)
Definition wsPrefix (s : list ascii) : nat :=
  match map code s with
  | (9 | 10 | 11 | 12 | 13 | 32) :: _ => 1%nat
  | 194 :: 160 :: _ => 2%nat
  | 225 :: 154 :: 128 :: _ => 3%nat
  | 226 :: 128 :: c :: _ =>
      if ((128 <=? c) && (c <=? 138)) || (c =? 168) || (c =? 169) || (c =? 175)
      then 3%nat else 0%nat
  | 226 :: 129 :: 159 :: _ => 3%nat
  | 227 :: 128 :: 128 :: _ => 3%nat
  | 239 :: 187 :: 191 :: _ => 3%nat
  | _ => 0%nat
  end.

(** Drops leading white space; [fuel] bounds the number of bytes looked at. *)
Fixpoint skipWs (fuel : nat) (s : list ascii) : list ascii :=
  match fuel with
  | O => s
  | S fuel' =>
      match wsPrefix s with
      | O => s
      | n => skipWs fuel' (skipn n s)
      end
  end.

(** Reads a maximal run of digits of the radix: its value, its length and
    the rest of the input. *)
Fixpoint readDigits (radix : Z) (s : list ascii) (acc : Z) (len : Z)
  : Z * Z * list ascii :=
  match s with
  | c :: s' =>
      match digitValue radix c with
      | Some d => readDigits radix s' (acc * radix + d) (len + 1)
      | None => (acc, len, s)
      end
  | [] => (acc, len, s)
  end.

Definition isPrefix (p s : list ascii) : bool :=
  (List.length p <=? List.length s)%nat
  && if list_eq_dec ascii_dec p (firstn (List.length p) s) then true else false.

(** Optional [ExponentPart]: the exponent and the rest, or the input
    untouched when no well-formed exponent starts it. *)
Definition readExponent (s : list ascii) : Z * list ascii :=
  match s with
  | ("e"%char | "E"%char) :: s1 =>
      let '(neg, s2) :=
        match s1 with
        | "+"%char :: t => (false, t)
        | "-"%char :: t => (true, t)
        | _ => (false, s1)
        end in
      let '(v, len, rest) := readDigits 10 s2 0 0 in
      if len =? 0 then (0, s) else (if neg then - v else v, rest)
  | _ => (0, s)
  end.

(** [StrUnsignedDecimalLiteral]: the number read and the rest of the input. *)
Definition readUnsignedDecimal (neg : bool) (s : list ascii)
  : option (number * list ascii) :=
  if isPrefix (list_ascii_of_string "Infinity") s
  then Some (S754_infinity neg, skipn 8 s)
  else
    let '(ip, ilen, s1) := readDigits 10 s 0 0 in
    let '(fp, flen, s2) :=
      match s1 with
      | "."%char :: t => let '(v, l, r) := readDigits 10 t 0 0 in (v, l, r)
      | _ => (0, 0, s1)
      end in
    let dot := match s1 with "."%char :: _ => true | _ => false end in
    if (ilen =? 0) && (flen =? 0) then None
    else
      let '(ex, rest) := readExponent (if dot then s2 else s1) in
      Some (ofDecimal neg (ip * 10 ^ flen + fp) (ex - flen), rest).

(** [StrNumericLiteral]: a signed decimal literal, or an unsigned binary,
    octal or hexadecimal integer literal. *)
Definition readNumeric (s : list ascii) : option (number * list ascii) :=
  let nonDecimal radix t :=
    let '(v, len, rest) := readDigits radix t 0 0 in
    if len =? 0 then None else Some (ofZ v, rest) in
  match s with
  | "0"%char :: ("x"%char | "X"%char) :: t => nonDecimal 16 t
  | "0"%char :: ("o"%char | "O"%char) :: t => nonDecimal 8 t
  | "0"%char :: ("b"%char | "B"%char) :: t => nonDecimal 2 t
  | "+"%char :: t => readUnsignedDecimal false t
  | "-"%char :: t => readUnsignedDecimal true t
  | _ => readUnsignedDecimal false s
  end.

(** [StringToNumber]: white space around the literal is ignored, the empty
    or blank string is [+0], and anything that is not a numeric literal as a
    whole is NaN. *)
Definition StringToNumber (str : string) : number :=
  let s := list_ascii_of_string str in
  let s1 := skipWs (List.length s) s in
  match s1 with
  | [] => posZero
  | _ =>
      match readNumeric s1 with
      | Some (v, rest) =>
          match skipWs (List.length rest) rest with
          | [] => v
          | _ => NaN
          end
      | None => NaN
      end
  end.

(** *** Number to string ([String(x)], radix 10) *)

(** Decimal digits of a non-negative integer, most significant first. *)
Fixpoint digitsOf (fuel : nat) (n : Z) (acc : list ascii) : list ascii :=
  match fuel with
  | O => acc
  | S fuel' =>
      let acc' := ascii_of_N (Z.to_N (48 + n mod 10)) :: acc in
      if n <? 10 then acc' else digitsOf fuel' (n / 10) acc'
  end.

Definition decimal (n : Z) : list ascii :=
  digitsOf (S (Z.to_nat (Z.log2 n))) n [].

(** [x < 10^n] for the positive rational [x = num / den]. *)
Definition belowPow10 (num den n : Z) : bool :=
  if 0 <=? n then num <? den * 10 ^ n else num * 10 ^ (- n) <? den.

(** The least [n], from [n0] on, with [num / den < 10^n]. *)
Fixpoint magnitude (fuel : nat) (num den n0 : Z) : Z :=
  match fuel with
  | O => n0
  | S fuel' =>
      if belowPow10 num den n0 then n0 else magnitude fuel' num den (n0 + 1)
  end.

(** The shortest decimal that reads back as the positive finite [x]: the
    digit string [s] of [k] digits and the exponent [n] with
    [s * 10^(n-k)] nearest to [x] among the shortest ones. *)
Fixpoint shortest (fuel : nat) (x : number) (num den n k : Z) : Z * Z * Z :=
  let p := n - k in
  let lo := if 0 <=? p then num / (den * 10 ^ p) else (num * 10 ^ (- p)) / den in
  let hi := lo + 1 in
  let reads c := eqb (ofDecimal false c p) x in
  (* twice the distance from [x], scaled by [den] and by [10^-p] when [p < 0] *)
  let dist c :=
    if 0 <=? p then Z.abs (num - c * den * 10 ^ p)
    else Z.abs (num * 10 ^ (- p) - c * den) in
  let pick c := if c =? 10 ^ k then (10 ^ (k - 1), k, n + 1) else (c, k, n) in
  let nearest :=
    if dist lo <? dist hi then lo
    else if dist hi <? dist lo then hi
    else if Z.even lo then lo else hi in
  match fuel with
  | O => pick nearest
  | S fuel' =>
      match reads lo, reads hi with
      | true, true => pick nearest
      | true, false => pick lo
      | false, true => pick hi
      | false, false => shortest fuel' x num den n (k + 1)
      end
  end.

Definition zeros (n : Z) : list ascii := repeat "0"%char (Z.to_nat n).

(** Layout of the digits [s] ([k] of them) with decimal exponent [n]. *)
Definition layout (s k n : Z) : list ascii :=
  let ds := decimal s in
  if (k <=? n) && (n <=? 21) then ds ++ zeros (n - k)
  else if (0 <? n) && (n <=? 21) then
    firstn (Z.to_nat n) ds ++ "."%char :: skipn (Z.to_nat n) ds
  else if (-6 <? n) && (n <=? 0) then
    "0"%char :: "."%char :: zeros (- n) ++ ds
  else
    let ex := n - 1 in
    let tail := "e"%char :: (if ex <? 0 then "-"%char else "+"%char)
                         :: decimal (Z.abs ex) in
    if k =? 1 then ds ++ tail
    else firstn 1 ds ++ "."%char :: skipn 1 ds ++ tail.

Definition positiveToString (m : positive) (e : Z) : list ascii :=
  let num := if 0 <=? e then Z.pos m * 2 ^ e else Z.pos m in
  let den := if 0 <=? e then 1 else 2 ^ (- e) in
  (* [2^b <= x], hence [10^n0 <= x] for the under-estimate [n0] of [b * log10 2] *)
  let b := Z.pos (digits2_pos m) + e - 1 in
  let n0 := (b * (if 0 <=? b then 30102 else 30103)) / 100000 in
  let n := magnitude 8 num den n0 in
  let '(s, k, n') := shortest 16 (S754_finite false m e) num den n 1 in
  layout s k n'.

(** [Number::toString] *)
Definition NumberToString (x : number) : string :=
  match x with
  | S754_nan => "NaN"
  | S754_zero _ => "0"
  | S754_infinity false => "Infinity"
  | S754_infinity true => "-Infinity"
  | S754_finite false m e => string_of_list_ascii (positiveToString m e)
  | S754_finite true m e =>
      string_of_list_ascii ("-"%char :: positiveToString m e)
  end.

End Str.

(** ** Values

    The decoded document is an untyped tree ([any] in the source): the
    XML decoder yields strings, numbers, booleans, objects keyed by tag or
    attribute name, and arrays for repeated tags. *)

Module Js.
Import Num Str.
Local Open Scope string_scope.

#[local] Set Warnings "-register-all".
Inductive JsVal : Type :=
  | VUndefined
  | VNull
  | VBool (b : bool)
  | VNumber (n : number)
  | VString (s : string)
  | VObject (fields : list (string * JsVal))
  | VArray (items : list JsVal).

(** Own property of an object: the first binding of the key. *)
Fixpoint lookup (k : string) (fields : list (string * JsVal)) : JsVal :=
  match fields with
  | [] => VUndefined
  | (k', v) :: rest => if String.eqb k k' then v else lookup k rest
  end.

(** [v?.k] for the property names read by the source ([gpx], [metadata],
    [name], [trk], [trkseg], [trkpt], [rte], [rtept], [lat], [lon],
    [message]): none is an index, [length] or a name found on a built-in
    prototype, so only an object can have it. *)
Definition optGet (v : JsVal) (k : string) : JsVal :=
  match v with
  | VObject fields => lookup k fields
  | _ => VUndefined
  end.

(** [a ?? b] *)
Definition nullish (v : JsVal) : bool :=
  match v with VUndefined | VNull => true | _ => false end.

Definition coalesce (a b : JsVal) : JsVal := if nullish a then b else a.

(** [ToBoolean]: the value is truthy. *)
Definition truthy (v : JsVal) : bool :=
  match v with
  | VUndefined | VNull => false
  | VBool b => b
  | VNumber n =>
      match n with
      | S754_zero _ | S754_nan => false
      | _ => true
      end
  | VString s => negb (String.eqb s "")
  | VObject _ | VArray _ => true
  end.

Definition join (sep : string) (parts : list string) : string :=
  match parts with
  | [] => ""
  | p :: ps => p ++ String.concat "" (map (fun q => sep ++ q) ps)
  end.

(** Outcome of a call that may throw; the thrown value is any value. *)
Inductive Completion (A : Type) : Type :=
  | Normal (a : A)
  | Throw (e : JsVal).
Arguments Normal {A} a.
Arguments Throw {A} e.

(** [new Error(msg)]: only the [message] of an error is read by the source. *)
Definition Error (msg : string) : JsVal := VObject [("message", VString msg)].

(** The object has an own property of this name. *)
Definition hasOwn (k : string) (fields : list (string * JsVal)) : bool :=
  existsb (fun kv => String.eqb k (fst kv)) fields.

(** The TypeError of a conversion to a primitive that finds no callable
    [valueOf] or [toString]; the text of its message is the engine's. *)
Definition cannotConvert : JsVal :=
  Error "Cannot convert object to primitive value".

(** [array.map(f)] for a callback that may throw: the elements are visited
    in order and the first exception ends the call. *)
Fixpoint mapC {A B : Type} (f : A -> Completion B) (l : list A)
  : Completion (list B) :=
  match l with
  | [] => Normal []
  | x :: rest =>
      match f x with
      | Throw e => Throw e
      | Normal y =>
          match mapC f rest with
          | Throw e => Throw e
          | Normal ys => Normal (y :: ys)
          end
      end
  end.

(** [ToString].  A decoded object holds data only, so an own [toString]
    property is never callable: the inherited [valueOf] returns the object
    itself and the conversion throws; without an own [toString] the
    inherited one answers.  An array joins the strings of its elements. *)
Fixpoint ToString (v : JsVal) : Completion string :=
  match v with
  | VUndefined => Normal "undefined"
  | VNull => Normal "null"
  | VBool true => Normal "true"
  | VBool false => Normal "false"
  | VNumber n => Normal (NumberToString n)
  | VString s => Normal s
  | VObject fields =>
      if hasOwn "toString" fields then Throw cannotConvert
      else Normal "[object Object]"
  | VArray items =>
      match (fix elements (xs : list JsVal) : Completion (list string) :=
               match xs with
               | [] => Normal []
               | x :: rest =>
                   match (if nullish x then Normal "" else ToString x) with
                   | Throw e => Throw e
                   | Normal part =>
                       match elements rest with
                       | Throw e => Throw e
                       | Normal parts => Normal (part :: parts)
                       end
                   end
               end) items with
      | Throw e => Throw e
      | Normal parts => Normal (join "," parts)
      end
  end.

(** [Number(v)]: [ToNumber]; objects and arrays go through their string,
    and throw when that conversion throws. *)
Definition ToNumber (v : JsVal) : Completion number :=
  match v with
  | VUndefined => Normal NaN
  | VNull => Normal posZero
  | VBool true => Normal (ofZ 1)
  | VBool false => Normal posZero
  | VNumber n => Normal n
  | VString s => Normal (StringToNumber s)
  | VObject _ | VArray _ =>
      match ToString v with
      | Throw e => Throw e
      | Normal s => Normal (StringToNumber s)
      end
  end.

End Js.

(** ** [src/src/gpx.ts] *)

Module Gpx.
Import Num Str Js.
Local Open Scope string_scope.

Record LatLng := { latitude : number; longitude : number }.

Record ParsedGpx := { name : JsVal; points : list LatLng }.

Definition asArray (v : JsVal) : list JsVal :=
  if negb (truthy v) then []
  else match v with
       | VArray items => items
       | _ => [v]
       end.

(** [xs[0]] *)
Definition first (xs : list JsVal) : JsVal := hd VUndefined xs.

(** The callback of [map] over the points: [null] or a [LatLng]; both
    coordinates are coerced, [lat] first, before they are tested. *)
Definition toLatLng (p : JsVal) : Completion (option LatLng) :=
  match ToNumber (optGet p "lat") with
  | Throw e => Throw e
  | Normal lat =>
      match ToNumber (optGet p "lon") with
      | Throw e => Throw e
      | Normal lon =>
          if negb (isFinite lat) || negb (isFinite lon) then Normal None
          else Normal (Some {| latitude := lat; longitude := lon |})
      end
  end.

(** [.filter(Boolean)] on the mapped array: [null] is dropped, an object kept. *)
Fixpoint filterBoolean (xs : list (option LatLng)) : list LatLng :=
  match xs with
  | [] => []
  | None :: rest => filterBoolean rest
  | Some p :: rest => p :: filterBoolean rest
  end.

Definition trkptsOf (gpx : JsVal) : list JsVal :=
  let trk := first (asArray (optGet gpx "trk")) in
  let seg := first (asArray (optGet trk "trkseg")) in
  asArray (optGet seg "trkpt").

Definition rteptsOf (gpx : JsVal) : list JsVal :=
  let rte := first (asArray (optGet gpx "rte")) in
  asArray (optGet rte "rtept").

Definition nameOf (gpx : JsVal) : JsVal :=
  coalesce (optGet (optGet gpx "metadata") "name")
    (coalesce (optGet (optGet gpx "trk") "name")
              (optGet (optGet gpx "rte") "name")).

(** [.map(...).filter(Boolean)] over a list of point nodes. *)
Definition validPoints (pts : list JsVal) : Completion (list LatLng) :=
  match mapC toLatLng pts with
  | Throw e => Throw e
  | Normal mapped => Normal (filterBoolean mapped)
  end.

Definition pointsFromTrk (gpx : JsVal) : Completion (list LatLng) :=
  validPoints (trkptsOf gpx).
Definition pointsFromRte (gpx : JsVal) : Completion (list LatLng) :=
  validPoints (rteptsOf gpx).

(** [parseGpxXml] after the decoding step, on the decoded document: the
    route nodes are read and coerced only when the track gave no point. *)
Definition parseGpxDoc (doc : JsVal) : Completion ParsedGpx :=
  let gpx := optGet doc "gpx" in
  let name := nameOf gpx in
  match pointsFromTrk gpx with
  | Throw e => Throw e
  | Normal fromTrk =>
      if negb (List.length fromTrk =? 0)%nat
      then Normal {| name := name; points := fromTrk |}
      else
        match pointsFromRte gpx with
        | Throw e => Throw e
        | Normal fromRte => Normal {| name := name; points := fromRte |}
        end
  end.

Section Decoder.
(** [new XMLParser({...}).parse], a collaborator: it yields the decoded
    tree, or throws. *)
Variable XMLParser_parse : string -> Completion JsVal.

Definition parseGpxXml (xml : string) : Completion ParsedGpx :=
  match XMLParser_parse xml with
  | Normal doc => parseGpxDoc doc
  | Throw e => Throw e
  end.
End Decoder.

(** The region returned by [boundingRegion]; its [latitude] and
    [longitude] fields are [r_latitude] and [r_longitude] here, the names
    being taken by [LatLng]. *)
Record Region := {
  r_latitude : number;
  r_longitude : number;
  latitudeDelta : number;
  longitudeDelta : number }.

Record Bounds := { minLat : number; maxLat : number;
                   minLon : number; maxLon : number }.

(** Body of the [for (const p of points)] loop. *)
Definition scanStep (b : Bounds) (p : LatLng) : Bounds :=
  {| minLat := Math_min [minLat b; latitude p];
     maxLat := Math_max [maxLat b; latitude p];
     minLon := Math_min [minLon b; longitude p];
     maxLon := Math_max [maxLon b; longitude p] |}.

Definition two : number := ofZ 2.
Definition minimumSpan : number := ofDecimal false 1 (-2).   (* 0.01 *)
Definition paddingFactor : number := ofDecimal false 14 (-1). (* 1.4 *)

Definition boundingRegion (points : list LatLng) : option Region :=
  match points with
  | [] => None
  | p0 :: _ =>
      let b0 := {| minLat := latitude p0; maxLat := latitude p0;
                   minLon := longitude p0; maxLon := longitude p0 |} in
      let b := fold_left scanStep points b0 in
      Some {| r_latitude := div (add (minLat b) (maxLat b)) two;
              r_longitude := div (add (minLon b) (maxLon b)) two;
              latitudeDelta :=
                Math_max [minimumSpan; mul (sub (maxLat b) (minLat b)) paddingFactor];
              longitudeDelta :=
                Math_max [minimumSpan; mul (sub (maxLon b) (minLon b)) paddingFactor] |}
  end.

End Gpx.

(** ** [src/App.tsx] *)

Module App.
Import Num Str Js Gpx.
Local Open Scope string_scope.

(** *** Speed readout *)

Definition lit_3_6 : number := ofDecimal false 36 (-1).

(** [kmh(ms: number)]: [ms * 3.6]. *)
Definition kmh (ms : number) : number := mul ms lit_3_6.

(** The number a value is, when it is one. *)
Definition numberOf (v : JsVal) : number :=
  match v with VNumber n => n | _ => NaN end.

(** [Number.isFinite(v)]: [v] is a number, and a finite one. *)
Definition Number_isFinite (v : JsVal) : bool :=
  match v with VNumber n => isFinite n | _ => false end.

Definition fmtSpeed (ms : JsVal) : string :=
  if nullish ms || negb (Number_isFinite ms) then "—"
  else
    let v := kmh (numberOf ms) in
    if negb (isFinite v) || ltb v posZero then "0"
    else NumberToString (Math_round v).

(** *** Component state: one field per [useState] *)

Inductive NavMode := browse | drive.
Inductive LocPerm := unknown | granted | denied.

(** [Location.PermissionStatus] *)
Inductive PermissionStatus := st_granted | st_denied | st_undetermined.

Record Coords := {
  c_latitude : number; c_longitude : number;
  c_heading : JsVal; c_speed : JsVal }.

Record Hooks := {
  routeName : JsVal;
  route : list LatLng;
  mode : NavMode;
  locPerm : LocPerm;
  location : option Coords;
  speedMs : JsVal;
  gpsError : JsVal;
  servicesEnabled : option bool;
  loadingGpx : bool;
  gpxError : JsVal }.

Definition initialHooks : Hooks :=
  {| routeName := VUndefined; route := []; mode := browse; locPerm := unknown;
     location := None; speedMs := VNull; gpsError := VNull;
     servicesEnabled := None; loadingGpx := false; gpxError := VNull |}.

(** Values derived at each render. *)
Definition region (h : Hooks) : option Region := boundingRegion (route h).
Definition speedText (h : Hooks) : string := fmtSpeed (speedMs h).

Definition eqMode (a b : NavMode) : bool :=
  match a, b with browse, browse | drive, drive => true | _, _ => false end.
Definition eqPerm (a b : LocPerm) : bool :=
  match a, b with
  | unknown, unknown | granted, granted | denied, denied => true
  | _, _ => false
  end.
Definition isGranted (s : PermissionStatus) : bool :=
  match s with st_granted => true | _ => false end.

(** *** Handlers

    A handler is a computation over the component state that may throw.
    The state setters write the state; what a handler READS of the state
    is the snapshot of the render that created it (its closure), passed as
    [snap]: a setter called earlier in the same handler does not change
    what the handler reads. *)

Definition M (A : Type) : Type := Hooks -> Hooks * Completion A.

Definition ret {A} (a : A) : M A := fun h => (h, Normal a).
Definition throw {A} (e : JsVal) : M A := fun h => (h, Throw e).
Definition bind {A B} (m : M A) (f : A -> M B) : M B :=
  fun h => match m h with
           | (h', Normal a) => f a h'
           | (h', Throw e) => (h', Throw e)
           end.
(** [await] of a collaborator call whose outcome is [c]. *)
Definition await {A} (c : Completion A) : M A := fun h => (h, c).

Notation "x <- m ;; k" := (bind m (fun x => k))
  (at level 61, m at next level, right associativity).
Notation "m ;; k" := (bind m (fun _ => k))
  (at level 61, right associativity).

(** [try { body } catch (e) { handler e }] *)
Definition tryCatch {A} (body : M A) (handler : JsVal -> M A) : M A :=
  fun h => match body h with
           | (h', Normal a) => (h', Normal a)
           | (h', Throw e) => handler e h'
           end.

(** [try { body } catch (e) { handler e } finally { fin }] *)
Definition tryCatchFinally {A} (body : M A) (handler : JsVal -> M A)
    (fin : M unit) : M A :=
  fun h =>
    let '(h1, r1) := tryCatch body handler h in
    match fin h1 with
    | (h2, Normal _) => (h2, r1)
    | (h2, Throw e) => (h2, Throw e)
    end.

Definition exec {A} (m : M A) (h : Hooks) : Hooks := fst (m h).

Definition setRouteName (v : JsVal) : M unit := fun h =>
  ({| routeName := v; route := route h; mode := mode h; locPerm := locPerm h;
      location := location h; speedMs := speedMs h; gpsError := gpsError h;
      servicesEnabled := servicesEnabled h; loadingGpx := loadingGpx h;
      gpxError := gpxError h |}, Normal tt).
Definition setRoute (v : list LatLng) : M unit := fun h =>
  ({| routeName := routeName h; route := v; mode := mode h; locPerm := locPerm h;
      location := location h; speedMs := speedMs h; gpsError := gpsError h;
      servicesEnabled := servicesEnabled h; loadingGpx := loadingGpx h;
      gpxError := gpxError h |}, Normal tt).
Definition setMode (v : NavMode) : M unit := fun h =>
  ({| routeName := routeName h; route := route h; mode := v; locPerm := locPerm h;
      location := location h; speedMs := speedMs h; gpsError := gpsError h;
      servicesEnabled := servicesEnabled h; loadingGpx := loadingGpx h;
      gpxError := gpxError h |}, Normal tt).
Definition setLocPerm (v : LocPerm) : M unit := fun h =>
  ({| routeName := routeName h; route := route h; mode := mode h; locPerm := v;
      location := location h; speedMs := speedMs h; gpsError := gpsError h;
      servicesEnabled := servicesEnabled h; loadingGpx := loadingGpx h;
      gpxError := gpxError h |}, Normal tt).
Definition setLocation (v : option Coords) : M unit := fun h =>
  ({| routeName := routeName h; route := route h; mode := mode h;
      locPerm := locPerm h; location := v; speedMs := speedMs h;
      gpsError := gpsError h; servicesEnabled := servicesEnabled h;
      loadingGpx := loadingGpx h; gpxError := gpxError h |}, Normal tt).
Definition setSpeedMs (v : JsVal) : M unit := fun h =>
  ({| routeName := routeName h; route := route h; mode := mode h;
      locPerm := locPerm h; location := location h; speedMs := v;
      gpsError := gpsError h; servicesEnabled := servicesEnabled h;
      loadingGpx := loadingGpx h; gpxError := gpxError h |}, Normal tt).
Definition setGpsError (v : JsVal) : M unit := fun h =>
  ({| routeName := routeName h; route := route h; mode := mode h;
      locPerm := locPerm h; location := location h; speedMs := speedMs h;
      gpsError := v; servicesEnabled := servicesEnabled h;
      loadingGpx := loadingGpx h; gpxError := gpxError h |}, Normal tt).
Definition setServicesEnabled (v : option bool) : M unit := fun h =>
  ({| routeName := routeName h; route := route h; mode := mode h;
      locPerm := locPerm h; location := location h; speedMs := speedMs h;
      gpsError := gpsError h; servicesEnabled := v;
      loadingGpx := loadingGpx h; gpxError := gpxError h |}, Normal tt).
Definition setLoadingGpx (v : bool) : M unit := fun h =>
  ({| routeName := routeName h; route := route h; mode := mode h;
      locPerm := locPerm h; location := location h; speedMs := speedMs h;
      gpsError := gpsError h; servicesEnabled := servicesEnabled h;
      loadingGpx := v; gpxError := gpxError h |}, Normal tt).
Definition setGpxError (v : JsVal) : M unit := fun h =>
  ({| routeName := routeName h; route := route h; mode := mode h;
      locPerm := locPerm h; location := location h; speedMs := speedMs h;
      gpsError := gpsError h; servicesEnabled := servicesEnabled h;
      loadingGpx := loadingGpx h; gpxError := v |}, Normal tt).

(** Replies of the location collaborator to one permission check. *)
Record LocationReplies := {
  hasServicesEnabledAsync : Completion bool;
  requestForegroundPermissionsAsync : Completion PermissionStatus }.

Definition servicesOffMessage : string :=
  "Location services are OFF. Enable GPS/location services and try again.".

Definition requestLocationPermission (env : LocationReplies) : M bool :=
  enabled <- await (hasServicesEnabledAsync env) ;;
  setServicesEnabled (Some enabled) ;;
  (if negb enabled then setGpsError (VString servicesOffMessage) else ret tt) ;;
  status <- await (requestForegroundPermissionsAsync env) ;;
  setLocPerm (if isGranted status then granted else denied) ;;
  ret (isGranted status && enabled).

Definition stopNavigation : M unit := setMode browse.

Definition startNavigation (snap : Hooks) (env : LocationReplies) : M unit :=
  setGpsError VNull ;;
  ok <- requestLocationPermission env ;;
  if negb ok then
    (if negb (truthy (gpsError snap))
     then setGpsError (VString "Location permission denied")
     else ret tt)
  else
    setMode drive.

(** [DocumentPicker.getDocumentAsync] result. *)
Record DocumentPickerResult := {
  canceled : bool;
  assets : option (list JsVal) }.

Section Load.
Variable XMLParser_parse : string -> Completion JsVal.

(** [picked]: outcome of the picker; [readAsStringAsync]: the file
    system at the time of the load. *)
Definition pickGpx (picked : Completion DocumentPickerResult)
    (readAsStringAsync : JsVal -> Completion string) : M unit :=
  tryCatchFinally
    (setGpxError VNull ;;
     setLoadingGpx true ;;
     picked <- await picked ;;
     if canceled picked then ret tt
     else
       let asset := match assets picked with
                    | Some items => first items
                    | None => VUndefined
                    end in
       if negb (truthy (optGet asset "uri"))
       then throw (Error "No file URI returned")
       else
         xml <- await (readAsStringAsync (optGet asset "uri")) ;;
         parsed <- await (parseGpxXml XMLParser_parse xml) ;;
         if (List.length (points parsed) =? 0)%nat
         then throw (Error "No route points found in GPX")
         else
           setRouteName (name parsed) ;;
           setRoute (points parsed) ;;
           setMode browse)
    (fun e =>
       setGpxError (coalesce (optGet e "message") (VString "Failed to load GPX")))
    (setLoadingGpx false).
End Load.

(** The position callback of the live subscription. *)
Definition onPosition (pos : Coords) : M unit :=
  setLocation (Some pos) ;;
  setSpeedMs (if nullish (c_speed pos) then VNull else c_speed pos).

(** The mount effect that reads the initial permission state. *)
Definition initialPermissionEffect
    (getForegroundPermissionsAsync : Completion PermissionStatus)
    (hasServicesEnabled : Completion bool) : M unit :=
  p <- await getForegroundPermissionsAsync ;;
  setLocPerm (match p with
              | st_granted => granted
              | st_denied => denied
              | st_undetermined => unknown
              end) ;;
  enabled <- await hasServicesEnabled ;;
  setServicesEnabled (Some enabled).

(** Replies consumed by one run of the tracking effect. *)
Record EffectReplies := {
  eff_location : LocationReplies;
  watchPositionAsync : Completion unit }.

(** Body of the tracking effect ([useEffect(..., [mode])]), run with the
    snapshot of the render that scheduled it.  The result tells whether a
    live subscription was opened ([sub] is set). *)
Definition trackingEffect (snap : Hooks) (env : EffectReplies) : M bool :=
  if negb (eqMode (mode snap) drive) then ret false
  else
    tryCatch
      (hasPerm <- (if eqPerm (locPerm snap) granted then ret true
                   else requestLocationPermission (eff_location env)) ;;
       if negb hasPerm then ret false
       else
         await (watchPositionAsync env) ;;
         ret true)
      (fun e =>
         setGpsError (coalesce (optGet e "message") (VString "GPS error")) ;;
         ret false).

(** *** The controller as a transition system

    The state of the running component: the committed hook values and
    whether the tracking effect holds an open live subscription.  Each
    event runs its handler to completion before the next event is taken;
    when the handler changed [mode], the tracking effect is cleaned up (its
    subscription removed) and run again with the new values.  [commit]
    takes the asynchronous body of the effect together with the commit
    that schedules it: these are the schedules in which the calls the body
    awaits settle before the next event.  The other schedules, in which
    an event or the cleanup comes between a call and its settlement, are
    those of [fstep] below. *)

Record World := { hooks : Hooks; sub : bool }.

Definition initialWorld : World := {| hooks := initialHooks; sub := false |}.

Inductive Event :=
  | Mounted (perm : Completion PermissionStatus) (enabled : Completion bool)
  | PressLoad (picked : Completion DocumentPickerResult)
              (readAsStringAsync : JsVal -> Completion string)
  | PressStart (env : LocationReplies)
  | PressStop
  | Position (pos : Coords).

Definition commit (w : World) (h' : Hooks) (eff : EffectReplies) : World :=
  if eqMode (mode (hooks w)) (mode h') then {| hooks := h'; sub := sub w |}
  else
    let '(h'', r) := trackingEffect h' eff h' in
    {| hooks := h'';
       sub := match r with Normal opened => opened | Throw _ => false end |}.

Section Controller.
Variable XMLParser_parse : string -> Completion JsVal.

(** The handler an event runs, when the interface offers the event in
    this state: Start is shown for a loaded route outside drive mode,
    Stop in drive mode, Load is disabled while a load is in progress, and
    positions are delivered by an open subscription only. *)
Definition handlerOf (w : World) (ev : Event) : option (M unit) :=
  let h := hooks w in
  match ev with
  | Mounted perm enabled => Some (initialPermissionEffect perm enabled)
  | PressLoad picked read =>
      if loadingGpx h then None
      else Some (pickGpx XMLParser_parse picked read)
  | PressStart env =>
      if negb (List.length (route h) =? 0)%nat && negb (eqMode (mode h) drive)
      then Some (startNavigation h env) else None
  | PressStop =>
      if eqMode (mode h) drive then Some stopNavigation else None
  | Position pos =>
      if sub w then Some (onPosition pos) else None
  end.

Definition step (w : World) (ev : Event) (eff : EffectReplies)
  : option World :=
  match handlerOf w ev with
  | Some handler => Some (commit w (exec handler (hooks w)) eff)
  | None => None
  end.

Fixpoint run (w : World) (evs : list (Event * EffectReplies))
  : option World :=
  match evs with
  | [] => Some w
  | (ev, eff) :: rest =>
      match step w ev eff with
      | Some w' => run w' rest
      | None => None
      end
  end.

Definition reachable (w : World) : Prop :=
  exists evs, run initialWorld evs = Some w.
End Controller.

(** *** The tracking effect, await by await

    One run of the effect is its closure: the variable [sub], where the
    asynchronous body stands, and whether the cleanup has run.  A run is
    started by the commit of a render that changed [mode] (and by the
    mount); the cleanup of the run before it is called first.  The body
    reads [mode] and [locPerm] of its render before its first await. *)

Inductive Stage :=
  | AwaitServices
  | AwaitPermission (enabled : bool)
  | AwaitWatch
  | Finished.

Record EffectRun := {
  stage : Stage;
  holds : bool;
  cleaned : bool }.

(** The body up to its first await. *)
Definition startRun (snap : Hooks) : EffectRun :=
  {| stage := if negb (eqMode (mode snap) drive) then Finished
              else if eqPerm (locPerm snap) granted then AwaitWatch
              else AwaitServices;
     holds := false;
     cleaned := false |}.

(** The cleanup: [sub?.remove(); sub = null]. *)
Definition cleanup (r : EffectRun) : EffectRun :=
  {| stage := stage r; holds := false; cleaned := true |}.

(** The settlement of an awaited call. *)
Inductive Reply :=
  | ServicesReply (c : Completion bool)
  | PermissionReply (c : Completion PermissionStatus)
  | WatchReply (c : Completion unit).

Definition atStage (r : EffectRun) (st : Stage) : EffectRun :=
  {| stage := st; holds := holds r; cleaned := cleaned r |}.

(** The [catch] of the body. *)
Definition caught (e : JsVal) : M unit :=
  setGpsError (coalesce (optGet e "message") (VString "GPS error")).

(** The body from the settlement of the call it awaits to its next await:
    the state it writes and where it stands then.  The assignment
    [sub = await ...] is made whether or not the cleanup has run. *)
Definition resume (r : EffectRun) (reply : Reply) : option (M unit * EffectRun) :=
  match stage r, reply with
  | AwaitServices, ServicesReply (Normal enabled) =>
      Some (setServicesEnabled (Some enabled) ;;
            (if negb enabled then setGpsError (VString servicesOffMessage)
             else ret tt),
            atStage r (AwaitPermission enabled))
  | AwaitPermission enabled, PermissionReply (Normal status) =>
      Some (setLocPerm (if isGranted status then granted else denied),
            atStage r (if isGranted status && enabled then AwaitWatch
                       else Finished))
  | AwaitWatch, WatchReply (Normal _) =>
      Some (ret tt, {| stage := Finished; holds := true; cleaned := cleaned r |})
  | AwaitServices, ServicesReply (Throw e)
  | AwaitPermission _, PermissionReply (Throw e)
  | AwaitWatch, WatchReply (Throw e) =>
      Some (caught e, atStage r Finished)
  | _, _ => None
  end.

(** The component with the runs of its tracking effect, the newest
    first. *)
Record Session := { s_hooks : Hooks; runs : list EffectRun }.

Definition initialSession : Session :=
  {| s_hooks := initialHooks; runs := [startRun initialHooks] |}.

(** Some subscription is open and delivers fixes. *)
Definition liveSub (s : Session) : bool := existsb holds (runs s).

(** What a commit does to the runs: nothing when [mode] is unchanged;
    otherwise the cleanup of the current run, then a new run. *)
Definition commitRuns (h h' : Hooks) (rs : list EffectRun) : list EffectRun :=
  if eqMode (mode h) (mode h') then rs
  else startRun h' ::
       match rs with
       | [] => []
       | r :: rest => cleanup r :: rest
       end.

Fixpoint replaceRun (i : nat) (r' : EffectRun) (rs : list EffectRun)
  : list EffectRun :=
  match rs, i with
  | [], _ => []
  | _ :: rest, O => r' :: rest
  | r :: rest, S j => r :: replaceRun j r' rest
  end.

Inductive Action :=
  | Handle (ev : Event)
  | Settle (i : nat) (reply : Reply).

Section Lifecycle.
Variable XMLParser_parse : string -> Completion JsVal.

Definition fstep (s : Session) (a : Action) : option Session :=
  match a with
  | Handle ev =>
      match handlerOf XMLParser_parse
              {| hooks := s_hooks s; sub := liveSub s |} ev with
      | Some handler =>
          let h' := exec handler (s_hooks s) in
          Some {| s_hooks := h'; runs := commitRuns (s_hooks s) h' (runs s) |}
      | None => None
      end
  | Settle i reply =>
      match nth_error (runs s) i with
      | Some r =>
          match resume r reply with
          | Some (writes, r') =>
              let h' := exec writes (s_hooks s) in
              Some {| s_hooks := h';
                      runs := commitRuns (s_hooks s) h'
                                (replaceRun i r' (runs s)) |}
          | None => None
          end
      | None => None
      end
  end.

Fixpoint frun (s : Session) (acts : list Action) : option Session :=
  match acts with
  | [] => Some s
  | a :: rest =>
      match fstep s a with
      | Some s' => frun s' rest
      | None => None
      end
  end.

(** The settlement of the call the current run awaits, from the replies
    of one run of the effect. *)
Definition replyFor (eff : EffectReplies) (st : Stage) : option Reply :=
  match st with
  | AwaitServices =>
      Some (ServicesReply (hasServicesEnabledAsync (eff_location eff)))
  | AwaitPermission _ =>
      Some (PermissionReply (requestForegroundPermissionsAsync (eff_location eff)))
  | AwaitWatch => Some (WatchReply (watchPositionAsync eff))
  | Finished => None
  end.

(** The current run settled at once, call after call. *)
Fixpoint settleNow (calls : nat) (eff : EffectReplies) (s : Session) : Session :=
  match calls with
  | O => s
  | S n =>
      match runs s with
      | r :: _ =>
          match replyFor eff (stage r) with
          | Some reply =>
              match fstep s (Settle 0 reply) with
              | Some s' => settleNow n eff s'
              | None => s
              end
          | None => s
          end
      | [] => s
      end
  end.
End Lifecycle.

End App.

(** * Properties *)

Import Num Str Js Gpx App.
Local Open Scope string_scope.

(** Sample documents, as the decoder yields them (attributes are strings). *)

Definition pt (lat lon : string) : JsVal :=
  VObject [("lat", VString lat); ("lon", VString lon)].

(** A track of three points whose second has a non-numeric [lat], and a
    route of two other points. *)
Definition docTrackAndRoute : JsVal :=
  VObject [("gpx", VObject [
    ("metadata", VObject [("name", VString "Morning ride")]);
    ("trk", VObject [("name", VString "Track 1");
       ("trkseg", VObject [("trkpt", VArray [
          pt "47.5" "8.25"; pt "north" "8.5"; pt "47.75" "8.75"])])]);
    ("rte", VObject [("name", VString "Plan");
       ("rtept", VArray [pt "10" "20"; pt "11" "21"])])])].

(** The number a value coerces to; when the coercion throws there is no
    number, and NaN stands in for it. *)
Definition coerced (v : JsVal) : number :=
  match ToNumber v with
  | Normal n => n
  | Throw _ => NaN
  end.

(** A point node is valid when both coordinates coerce to finite numbers;
    [coords] is the point it then denotes. *)
Definition latOf (p : JsVal) : number := coerced (optGet p "lat").
Definition lonOf (p : JsVal) : number := coerced (optGet p "lon").
Definition validPt (p : JsVal) : bool := isFinite (latOf p) && isFinite (lonOf p).
Definition coords (p : JsVal) : LatLng :=
  {| latitude := latOf p; longitude := lonOf p |}.

(** A value that can be coerced: no object in it (itself, or an element of
    it when it is an array) has a [toString] entry of its own.  Attribute
    values are strings and always can. *)
Fixpoint coercible (v : JsVal) : bool :=
  match v with
  | VObject fields => negb (hasOwn "toString" fields)
  | VArray items => forallb coercible items
  | _ => true
  end.

(** The string of an array element, as [join] takes it. *)
Definition elementString (x : JsVal) : Completion string :=
  if nullish x then Normal "" else ToString x.

(** A point node with a coordinate that cannot be coerced; [noFatal] holds
    of a list of nodes without any. *)
Definition fatalPt (p : JsVal) : bool :=
  negb (coercible (optGet p "lat")) || negb (coercible (optGet p "lon")).
Definition noFatal (pts : list JsVal) : bool :=
  forallb (fun p => negb (fatalPt p)) pts.

(** The coordinates the parse coerces can all be coerced: those of the
    track points, and those of the route points when no track point is
    valid. *)
Definition consultedCoercible (gpx : JsVal) : bool :=
  noFatal (trkptsOf gpx) &&
  match filter validPt (trkptsOf gpx) with
  | [] => noFatal (rteptsOf gpx)
  | _ :: _ => true
  end.

(** The points of the result in the words of the specification: the valid
    track points in document order, and the valid route points when no
    track point is valid. *)
Definition spec_points (gpx : JsVal) : list LatLng :=
  match filter validPt (trkptsOf gpx) with
  | [] => map coords (filter validPt (rteptsOf gpx))
  | kept => map coords kept
  end.

(** A value that is neither an object nor an array, as the string of an
    attribute and an absent attribute are. *)
Definition primitive (v : JsVal) : bool :=
  match v with
  | VObject _ | VArray _ => false
  | _ => true
  end.

(** What the decoder yields for a [lat] element that has an empty
    [toString] child element. *)
Definition latWithToString : JsVal := VObject [("toString", VString "")].

(** A valid track point beside a track point whose [lat] is such an
    element, and a route. *)
Definition docUncoercibleLat : JsVal :=
  VObject [("gpx", VObject [
    ("trk", VObject [("trkseg", VObject [("trkpt", VArray [
       pt "47.5" "8.25";
       VObject [("lat", latWithToString); ("lon", VString "8.5")]])])]);
    ("rte", VObject [("rtept", VArray [pt "10" "20"])])])].

(** A document without metadata, route and [lon], whose only point has
    such a [lat]. *)
Definition docOnlyUncoercibleLat : JsVal :=
  VObject [("gpx", VObject [
    ("trk", VObject [("trkseg", VObject [("trkpt",
       VObject [("lat", latWithToString)])])])])].





(** The shape of a document with one track of one segment, and with one
    route, holding the point nodes [pts]. *)
Definition hasTrackPoints (gpx : JsVal) (pts : list JsVal) : Prop :=
  exists trk seg,
    optGet gpx "trk" = VObject trk /\
    lookup "trkseg" trk = VObject seg /\
    lookup "trkpt" seg = VArray pts.
Definition hasRoutePoints (gpx : JsVal) (pts : list JsVal) : Prop :=
  exists rte,
    optGet gpx "rte" = VObject rte /\
    lookup "rtept" rte = VArray pts.

(** The name rule in the words of the specification: of the metadata,
    track and route names, the first that is non-empty (present and not
    the empty string); no name when there is none. *)
Definition nonEmpty (v : JsVal) : bool :=
  negb (nullish v) && negb (match v with VString s => String.eqb s "" | _ => false end).

Definition spec_firstNonEmptyName (gpx : JsVal) : JsVal :=
  let candidates := [optGet (optGet gpx "metadata") "name";
                     optGet (optGet gpx "trk") "name";
                     optGet (optGet gpx "rte") "name"] in
  hd VUndefined (filter nonEmpty candidates).

(** A track whose only point is unparsable, beside a usable route. *)
Definition docBadTrackGoodRoute : JsVal :=
  VObject [("gpx", VObject [
    ("trk", VObject [("trkseg", VObject [("trkpt", pt "north" "8.5")])]);
    ("rte", VObject [("rtept", VArray [pt "10" "20"])])])].

(** An empty metadata name beside a named track. *)
Definition docEmptyMetadataName : JsVal :=
  VObject [("gpx", VObject [
    ("metadata", VObject [("name", VString "")]);
    ("trk", VObject [("name", VString "Morning ride");
       ("trkseg", VObject [("trkpt", pt "47.5" "8.25")])])])].


(** The asset whose [uri] the load reads. *)
Definition pickedUri (p : DocumentPickerResult) : JsVal :=
  optGet (match assets p with Some items => first items | None => VUndefined end)
         "uri".

Ltac unfold_handlers :=
  unfold exec, pickGpx, startNavigation, stopNavigation, requestLocationPermission,
    onPosition, initialPermissionEffect, trackingEffect,
    tryCatchFinally, tryCatch, bind, ret, throw, await,
    setRouteName, setRoute, setMode, setLocPerm, setLocation, setSpeedMs,
    setGpsError, setServicesEnabled, setLoadingGpx, setGpxError.

(** A document with neither track nor route. *)
Definition docNoData : JsVal :=
  VObject [("gpx", VObject [("metadata", VObject [("name", VString "Empty")])])].

(** A picker result for one file. *)
Definition pickedFile (uri : string) : DocumentPickerResult :=
  {| canceled := false; assets := Some [VObject [("uri", VString uri)]] |}.

(** The state after loading [docTrackAndRoute] from a fresh start. *)
Definition hooksLoaded : Hooks :=
  exec (pickGpx (fun _ => Normal docTrackAndRoute)
          (Normal (pickedFile "file:///ride.gpx")) (fun _ => Normal "<gpx/>"))
       initialHooks.

(** Replies of the location collaborator. *)
Definition servicesOffPermissionGranted : LocationReplies :=
  {| hasServicesEnabledAsync := Normal false;
     requestForegroundPermissionsAsync := Normal st_granted |}.

Definition servicesOnPermissionDenied : LocationReplies :=
  {| hasServicesEnabledAsync := Normal true;
     requestForegroundPermissionsAsync := Normal st_denied |}.

Definition allGranted : EffectReplies :=
  {| eff_location := {| hasServicesEnabledAsync := Normal true;
                        requestForegroundPermissionsAsync := Normal st_granted |};
     watchPositionAsync := Normal tt |}.

(** The world after loading [docTrackAndRoute] from a fresh start. *)
Definition worldLoaded : World := {| hooks := hooksLoaded; sub := false |}.

Definition loadRide : Event :=
  PressLoad (Normal (pickedFile "file:///ride.gpx")) (fun _ => Normal "<gpx/>").


(** A latitude near the top of the binary64 range, as the parser reads it. *)
Definition hugePoint : LatLng := coords (pt "1.7e308" "0").

(** [m] is a least (greatest) element of [l] for the order on numbers. *)
Definition isLeast (m : number) (l : list number) : Prop :=
  In m l /\ forall y, In y l -> leb m y = true.
Definition isGreatest (m : number) (l : list number) : Prop :=
  In m l /\ forall y, In y l -> leb y m = true.

Definition notNaNPoint (p : LatLng) : Prop :=
  isNaN (latitude p) = false /\ isNaN (longitude p) = false.

(** Case analysis on the integer comparisons of a goal about the order on
    numbers. *)
Ltac compare_cases :=
  repeat match goal with
         | H : context [Pos.compare_cont Eq ?a ?b] |- _ =>
             change (Pos.compare_cont Eq a b) with (Pos.compare a b) in H
         | |- context [Pos.compare_cont Eq ?a ?b] =>
             change (Pos.compare_cont Eq a b) with (Pos.compare a b)
         end;
  repeat match goal with
         | H : context [Z.compare ?a ?b] |- _ => destruct (Z.compare_spec a b)
         | |- context [Z.compare ?a ?b] => destruct (Z.compare_spec a b)
         | H : context [Pos.compare ?a ?b] |- _ => destruct (Pos.compare_spec a b)
         | |- context [Pos.compare ?a ?b] => destruct (Pos.compare_spec a b)
         end;
  cbn in *; try reflexivity; try discriminate; try lia.

(** One update of a bound by the scan. *)
Definition min2 (m x : number) : number := Math_min [m; x].
Definition max2 (m x : number) : number := Math_max [m; x].

Definition notNaN (x : number) : Prop := isNaN x = false.

(** Twice the exact value of [m / 2^k] scaled by [2^k], with its sign. *)
Definition twiceScaled (neg : bool) (m : positive) : Z :=
  if neg then - (2 * Z.pos m) else 2 * Z.pos m.

Definition finitePoint (p : LatLng) : Prop :=
  isFinite (latitude p) = true /\ isFinite (longitude p) = true.

(** Two tracks, the first with two segments, and two routes. *)
Definition docSeveralTracks : JsVal :=
  VObject [("gpx", VObject [
    ("trk", VArray [
       VObject [("name", VString "Day 1");
         ("trkseg", VArray [
            VObject [("trkpt", VArray [pt "47.5" "8.25"; pt "47.75" "8.75"])];
            VObject [("trkpt", pt "48" "9")]])];
       VObject [("name", VString "Day 2");
         ("trkseg", VObject [("trkpt", pt "49" "10")])]]);
    ("rte", VArray [
       VObject [("name", VString "Plan A"); ("rtept", pt "10" "20")];
       VObject [("name", VString "Plan B"); ("rtept", pt "11" "21")]])])].

(** A named track without usable points, beside a route. *)
Definition docNamedTrackNoPoints : JsVal :=
  VObject [("gpx", VObject [
    ("trk", VObject [("name", VString "Recorded");
       ("trkseg", VObject [("trkpt", VArray [pt "north" "8.5"; VString "text"])])]);
    ("rte", VObject [("name", VString "Planned");
       ("rtept", VArray [pt "10" "20"; pt "11" "21"])])])].

(** What the scans compute, up to the sign of a zero: a least value that
    is [-0] when the least values are zeros and [-0] is among them, and
    symmetrically a greatest value that is [+0]. *)
Definition scannedMin (r : number) (l : list number) : Prop :=
  isLeast r l /\ (In negZero l -> r <> posZero).
Definition scannedMax (r : number) (l : list number) : Prop :=
  isGreatest r l /\ (In posZero l -> r <> negZero).

(** ** What [NavigatorApp] renders from the state ([src/App.tsx]) *)

Module View.

(** The child expression of the subtitle [Text] of the top bar. *)
Definition subtitle (h : Hooks) : JsVal :=
  if truthy (routeName h) then routeName h
  else if negb (List.length (route h) =? 0)%nat then VString "Loaded GPX route"
  else VString "Load a GPX file to begin".

(** The exception of React for a child that is a plain object; the text
    of its message is the library's. *)
Definition notAChild : JsVal := Error "Objects are not valid as a React child".

(** The text React renders for a child of a [Text]: a string is its own
    text and a number the string of the number; a boolean, null and
    undefined render nothing; an array renders its elements in order; a
    plain object is refused with an exception. *)
Fixpoint renderChild (v : JsVal) : Completion string :=
  match v with
  | VUndefined | VNull | VBool _ => Normal ""
  | VNumber n => Normal (NumberToString n)
  | VString s => Normal s
  | VObject _ => Throw notAChild
  | VArray items =>
      (fix children (xs : list JsVal) : Completion string :=
         match xs with
         | [] => Normal ""
         | x :: rest =>
             match renderChild x with
             | Throw e => Throw e
             | Normal text =>
                 match children rest with
                 | Throw e => Throw e
                 | Normal texts => Normal (text ++ texts)
                 end
             end
         end) items
  end.

(** The subtitle as rendered. *)
Definition subtitleText (h : Hooks) : Completion string :=
  renderChild (subtitle h).

(** The Start and Stop buttons are rendered under these conditions. *)
Definition showStart (h : Hooks) : bool :=
  negb (List.length (route h) =? 0)%nat && negb (eqMode (mode h) drive).
Definition showStop (h : Hooks) : bool := eqMode (mode h) drive.

(** The fallback region and camera center (London). *)
Definition defaultCenter : LatLng :=
  {| latitude := ofDecimal false 515072 (-4);
     longitude := ofDecimal true 1276 (-4) |}.

Definition defaultRegion : Region :=
  {| r_latitude := latitude defaultCenter;
     r_longitude := longitude defaultCenter;
     latitudeDelta := ofDecimal false 2 (-1);
     longitudeDelta := ofDecimal false 2 (-1) |}.

(** [initialRegion] of the map: [region ?? {...}]. *)
Definition initialRegion (h : Hooks) : Region :=
  match region h with
  | Some r => r
  | None => defaultRegion
  end.

Record Camera := {
  center : LatLng;
  pitch : number;
  heading : JsVal;
  altitude : number;
  zoom : number }.

(** The [camera] prop of the map: set in drive mode only; centered on the
    last fix, else on the region of the route, else on the fallback. *)
Definition camera (h : Hooks) : option Camera :=
  if eqMode (mode h) drive then
    Some {| center :=
              match location h with
              | Some c => {| latitude := c_latitude c; longitude := c_longitude c |}
              | None =>
                  match region h with
                  | Some r => {| latitude := r_latitude r; longitude := r_longitude r |}
                  | None => defaultCenter
                  end
              end;
            pitch := ofZ 55;
            heading :=
              coalesce (match location h with
                        | Some c => c_heading c
                        | None => VUndefined
                        end) (VNumber posZero);
            altitude := ofZ 900;
            zoom := ofZ 17 |}
  else None.

End View.

Import View.

(** The route is loaded. *)
Definition routeLoaded (w : World) : Prop := route (hooks w) <> [].

(** Drive mode has a route. *)
Definition driveHasRoute (w : World) : Prop :=
  mode (hooks w) = drive -> route (hooks w) <> [].

(** The fields of the state that belong to the location side. *)
Definition sameGpsState (h h' : Hooks) : Prop :=
  locPerm h' = locPerm h /\ location h' = location h /\
  speedMs h' = speedMs h /\ gpsError h' = gpsError h /\
  servicesEnabled h' = servicesEnabled h.

(** The fields of the state that belong to the route side. *)
Definition sameRouteState (h h' : Hooks) : Prop :=
  routeName h' = routeName h /\ route h' = route h /\ mode h' = mode h.

(** A picker result without any asset. *)
Definition pickedNothing : DocumentPickerResult :=
  {| canceled := false; assets := Some [] |}.

Definition pickerCancelled : DocumentPickerResult :=
  {| canceled := true; assets := None |}.

(** A fix with and without a speed. *)
Definition fixWithSpeed : Coords :=
  {| c_latitude := StringToNumber "47.5"; c_longitude := StringToNumber "8.25";
     c_heading := VNull; c_speed := VNumber (ofZ 5) |}.
Definition fixWithoutSpeed : Coords :=
  {| c_latitude := StringToNumber "47.5"; c_longitude := StringToNumber "8.25";
     c_heading := VNumber (ofZ 90); c_speed := VUndefined |}.

(** The world after a successful start from [worldLoaded]. *)
Definition worldDriving : World :=
  match step (fun _ => Normal docTrackAndRoute) worldLoaded
             (PressStart (eff_location allGranted)) allGranted with
  | Some w => w
  | None => worldLoaded
  end.

Definition watchFails : EffectReplies :=
  {| eff_location := eff_location allGranted;
     watchPositionAsync := Throw (Error "Location request failed") |}.

(** Case analysis on the outcome of a load. *)
Ltac load_cases decode picked read :=
  unfold_handlers;
  destruct picked as [?p|?e]; cbn;
  [ destruct (canceled p); cbn;
    [ | destruct (truthy _); cbn;
        [ destruct (read _) as [?xml|?e]; cbn;
          [ destruct (parseGpxXml decode xml) as [?parsed|?e]; cbn;
            [ destruct (List.length (points parsed) =? 0)%nat; cbn | ]
          | ]
        | ] ]
  | ].

(** The text starts with a minus sign. *)
Definition startsWithMinus (s : string) : bool :=
  match s with
  | String c _ => Ascii.eqb c "-"%char
  | EmptyString => false
  end.

(** A number that is not below zero in sign: its string has no minus sign. *)
Definition unsignedNumber (x : number) : Prop :=
  match x with
  | S754_zero _ | S754_nan => True
  | S754_infinity s | S754_finite s _ _ => s = false
  end.

(** The state after a start attempt that failed for a denied permission. *)
Definition hooksAfterDenial : Hooks :=
  exec (startNavigation hooksLoaded servicesOnPermissionDenied) hooksLoaded.

(** The world after a start attempt from [worldLoaded] that failed for a
    denied permission. *)
Definition worldAfterDenial : World := {| hooks := hooksAfterDenial; sub := false |}.

(** Subscriptions that no cleanup will remove: those assigned to the
    [sub] of a run after its cleanup. *)
Definition leaked (s : Session) : nat :=
  List.length (filter (fun r => holds r && cleaned r) (runs s)).

(** The runs of a session as commits leave them: the newest has not been
    cleaned up, and all the others have. *)
Definition currentFirst (s : Session) : Prop :=
  match runs s with
  | [] => False
  | r :: rest => cleaned r = false /\ Forall (fun r' => cleaned r' = true) rest
  end.

(** The session of a world: the body of the current run has finished and
    holds the subscription of the world, and no older run holds one. *)
Definition settled (w : World) (s : Session) : Prop :=
  s_hooks s = hooks w /\
  exists rest,
    runs s = {| stage := Finished; holds := sub w; cleaned := false |} :: rest /\
    Forall (fun r => stage r = Finished /\ holds r = false /\ cleaned r = true)
           rest.

(** The session after loading [docTrackAndRoute] from a fresh start, and
    after a successful start from there, the watch call being pending. *)
Definition sessionLoaded : Session :=
  {| s_hooks := hooksLoaded; runs := [startRun hooksLoaded] |}.

Definition sessionAwaitingWatch : Session :=
  match fstep (fun _ => Normal docTrackAndRoute) sessionLoaded
              (Handle (PressStart (eff_location allGranted))) with
  | Some s => s
  | None => sessionLoaded
  end.

(** The value of a finite number in units of [2^-1074]. *)
Definition scaled (x : number) : Z :=
  match x with
  | S754_finite s m e => (if s then - Z.pos m else Z.pos m) * 2 ^ (e + 1074)
  | _ => 0
  end.

(** A number of binary64, as every number of the language is: a NaN, an
    infinity, a zero, or a mantissa of at most 53 bits at its canonical
    exponent. *)
Definition binary64 (x : number) : Prop := valid_binary prec emax x = true.

Definition binary64Point (p : LatLng) : Prop :=
  binary64 (latitude p) /\ binary64 (longitude p).

(** Something has been shifted out. *)
Definition inexact (mrs : shr_record) : bool := shr_r mrs || shr_s mrs.

(** The outcome of a rounding of the positive value [N0] (in units of
    [2^-1074]): an infinity, or a number of binary64 whose value [V] is a
    multiple of a power of two [2^j] within [2^j] of [N0], where [N0]
    is at least [2^(52+j)] unless [j = 0]. *)
Definition rounds (N0 : Z) (s : bool) (x : number) : Prop :=
  x = S754_infinity s \/
  exists m e, x = S754_finite s m e /\ bounded prec emax m e = true /\
    exists j q, 0 <= j /\ Z.pos m * 2 ^ (e + 1074) = q * 2 ^ j /\
      N0 - 2 ^ j < q * 2 ^ j < N0 + 2 ^ j /\
      (0 < j -> 2 ^ 52 * 2 ^ j <= N0).

(** A start attempt whose check finds the services enabled and the
    permission granted. *)
Definition successfulStart (a : Action) : Prop :=
  exists env, a = Handle (PressStart env) /\
    hasServicesEnabledAsync env = Normal true /\
    requestForegroundPermissionsAsync env = Normal st_granted.

(** The settlement of the call the current run awaits. *)
Definition settlesCurrent (a : Action) : Prop :=
  exists reply, a = Settle 0 reply.

(** Browse mode with no call of the effect pending and no subscription
    open. *)
Definition idle (s : Session) : Prop :=
  mode (s_hooks s) = browse /\
  Forall (fun r => stage r = Finished /\ holds r = false) (runs s).

(** A text is a rendered number when it is the string of some number. *)
Definition renderedNumber (s : string) : Prop :=
  exists x : number, s = NumberToString x.

(** ** The parser *)

(** *** Coercion of the coordinates *)

Lemma JsVal_array_ind (P : JsVal -> Prop) :
  (forall v, (forall items, v <> VArray items) -> P v) ->
  (forall items, Forall P items -> P (VArray items)) ->
  forall v, P v.
Proof.
  intros Hleaf Harr. fix IH 1. intros v.
  destruct v as [ | | b | n | s | fields | items];
    try (apply Hleaf; intros items' H; discriminate H).
  apply Harr. induction items as [|x xs IHxs]; constructor;
    [apply IH | exact IHxs].
Qed.

Lemma ToString_array items :
  ToString (VArray items) =
  match mapC elementString items with
  | Throw e => Throw e
  | Normal parts => Normal (join "," parts)
  end.
Proof.
  cbn [ToString].
  match goal with
  | |- match ?f items with _ => _ end = _ =>
      assert (H : forall xs, f xs = mapC elementString xs)
  end.
  { induction xs as [|x xs IH]; [reflexivity|].
    cbn [mapC]. unfold elementString at 1. rewrite <- IH. reflexivity. }
  now rewrite H.
Qed.

(** The conversion to a string throws exactly on the values that are not
    [coercible]. *)
Lemma ToString_coercible v :
  (coercible v = true -> exists s, ToString v = Normal s) /\
  (coercible v = false -> ToString v = Throw cannotConvert).
Proof.
  induction v as [v Hleaf | items IH] using JsVal_array_ind.
  - destruct v as [ | | [|] | n | s | fields | items]; cbn;
      try (split; [eauto | discriminate]).
    + destruct (hasOwn "toString" fields); cbn;
        split; intros H; try discriminate H; eauto.
    + exfalso. now apply (Hleaf items).
  - rewrite ToString_array. cbn [coercible].
    assert (Hparts :
      (forallb coercible items = true ->
       exists parts, mapC elementString items = Normal parts) /\
      (forallb coercible items = false ->
       mapC elementString items = Throw cannotConvert)).
    { induction IH as [|x xs [Hx1 Hx2] _ [IH1 IH2]]; cbn [forallb mapC].
      - split; [eauto | discriminate].
      - unfold elementString at 1 3.
        destruct (nullish x) eqn:Hn.
        + assert (Hc : coercible x = true) by (destruct x; cbn in *; congruence).
          rewrite Hc. cbn [andb].
          split; intros H.
          * destruct (IH1 H) as [parts ->]. eauto.
          * now rewrite (IH2 H).
        + destruct (coercible x); cbn [andb].
          * destruct (Hx1 eq_refl) as [s ->].
            split; intros H.
            -- destruct (IH1 H) as [parts ->]. eauto.
            -- now rewrite (IH2 H).
          * rewrite (Hx2 eq_refl). split; [discriminate | reflexivity]. }
    destruct Hparts as [H1 H2]. split; intros H.
    + destruct (H1 H) as [parts ->]. eauto.
    + now rewrite (H2 H).
Qed.

Lemma ToNumber_coercible v :
  (coercible v = true -> ToNumber v = Normal (coerced v)) /\
  (coercible v = false -> ToNumber v = Throw cannotConvert).
Proof.
  destruct (ToString_coercible v) as [H1 H2].
  unfold coerced.
  destruct v as [ | | [|] | n | s | fields | items];
    try (split; [reflexivity | discriminate]);
    unfold ToNumber; (split; intros H;
      [destruct (H1 H) as [s ->]; reflexivity | now rewrite (H2 H)]).
Qed.

Lemma primitive_coercible v : primitive v = true -> coercible v = true.
Proof. destruct v; cbn; congruence. Qed.



(** The per-node rule. *)
Lemma toLatLng_valid p :
  fatalPt p = false ->
  toLatLng p = Normal (if validPt p then Some (coords p) else None).
Proof.
  unfold fatalPt, toLatLng, validPt, coords, latOf, lonOf. intros H.
  apply orb_false_iff in H as [H1 H2].
  apply negb_false_iff in H1, H2.
  rewrite (proj1 (ToNumber_coercible _) H1), (proj1 (ToNumber_coercible _) H2).
  destruct (isFinite (coerced (optGet p "lat")));
    destruct (isFinite (coerced (optGet p "lon"))); reflexivity.
Qed.

Lemma toLatLng_fatal p : fatalPt p = true -> toLatLng p = Throw cannotConvert.
Proof.
  unfold fatalPt, toLatLng. intros H.
  destruct (coercible (optGet p "lat")) eqn:H1.
  - cbn in H. apply negb_true_iff in H.
    rewrite (proj1 (ToNumber_coercible _) H1), (proj2 (ToNumber_coercible _) H).
    reflexivity.
  - now rewrite (proj2 (ToNumber_coercible _) H1).
Qed.

(** Each tier: the valid nodes, in their order, each as its point, unless
    a node of the tier cannot be coerced. *)
Lemma validPoints_filter pts :
  noFatal pts = true ->
  validPoints pts = Normal (map coords (filter validPt pts)).
Proof.
  unfold validPoints, noFatal.
  induction pts as [|p pts IH]; cbn [forallb mapC filter map];
    [reflexivity|].
  intros H. apply andb_true_iff in H as [Hp Hrest].
  apply negb_true_iff in Hp. rewrite (toLatLng_valid p Hp).
  specialize (IH Hrest).
  destruct (mapC toLatLng pts) as [mapped|e]; [|discriminate IH].
  injection IH as IH.
  destruct (validPt p); cbn; now rewrite IH.
Qed.

Lemma validPoints_fatal pts :
  noFatal pts = false -> validPoints pts = Throw cannotConvert.
Proof.
  unfold validPoints, noFatal.
  induction pts as [|p pts IH]; cbn [forallb mapC]; [discriminate|].
  intros H. destruct (fatalPt p) eqn:Hp.
  - now rewrite (toLatLng_fatal p Hp).
  - rewrite (toLatLng_valid p Hp). cbn in H. specialize (IH H).
    destruct (mapC toLatLng pts) as [mapped|e]; [discriminate IH|].
    exact IH.
Qed.

Lemma validPoints_In p pts r :
  validPoints pts = Normal r -> In p pts -> validPt p = true ->
  In (coords p) r.
Proof.
  intros Hr Hin Hv. destruct (noFatal pts) eqn:Hf.
  - rewrite (validPoints_filter pts Hf) in Hr. injection Hr as <-.
    apply in_map, filter_In. now split.
  - rewrite (validPoints_fatal pts Hf) in Hr. discriminate Hr.
Qed.

Lemma length_zero_nil {A} (l : list A) : (List.length l =? 0)%nat = true <-> l = [].
Proof. destruct l; simpl; split; congruence. Qed.

(** *** The two tiers of [parseGpxDoc] *)

Lemma parse_points_track doc pts :
  pointsFromTrk (optGet doc "gpx") = Normal pts -> pts <> [] ->
  parseGpxDoc doc = Normal {| name := nameOf (optGet doc "gpx"); points := pts |}.
Proof.
  intros H Hne. unfold parseGpxDoc. rewrite H.
  destruct pts; [congruence | reflexivity].
Qed.

Lemma parse_points_route doc :
  pointsFromTrk (optGet doc "gpx") = Normal [] ->
  parseGpxDoc doc =
  match pointsFromRte (optGet doc "gpx") with
  | Normal pts => Normal {| name := nameOf (optGet doc "gpx"); points := pts |}
  | Throw e => Throw e
  end.
Proof. intros H. unfold parseGpxDoc. now rewrite H. Qed.

Lemma parse_throws_track doc e :
  pointsFromTrk (optGet doc "gpx") = Throw e -> parseGpxDoc doc = Throw e.
Proof. intros H. unfold parseGpxDoc. now rewrite H. Qed.

Lemma parse_name doc r :
  parseGpxDoc doc = Normal r -> name r = nameOf (optGet doc "gpx").
Proof.
  unfold parseGpxDoc.
  destruct (pointsFromTrk _) as [fromTrk|e]; [|discriminate].
  destruct (negb _); [intros [= <-]; reflexivity|].
  destruct (pointsFromRte _) as [fromRte|e]; [|discriminate].
  intros [= <-]. reflexivity.
Qed.

Lemma parseGpxXml_decoded decode xml doc :
  decode xml = Normal doc ->
  parseGpxXml decode xml = parseGpxDoc doc.
Proof. intros H. unfold parseGpxXml. now rewrite H. Qed.

(** The parser against the specification's reading of it: it returns the
    name and [spec_points] when every coordinate it coerces can be
    coerced, and throws otherwise. *)
Lemma parseGpxDoc_spec doc :
  let gpx := optGet doc "gpx" in
  parseGpxDoc doc =
  if consultedCoercible gpx
  then Normal {| name := nameOf gpx; points := spec_points gpx |}
  else Throw cannotConvert.
Proof.
  intros gpx. unfold consultedCoercible, spec_points.
  destruct (noFatal (trkptsOf gpx)) eqn:Ht; cbn [andb].
  - pose proof (validPoints_filter _ Ht) as Htrk.
    destruct (filter validPt (trkptsOf gpx)) as [|q kept] eqn:Hk.
    + rewrite (parse_points_route doc Htrk). fold gpx. unfold pointsFromRte.
      destruct (noFatal (rteptsOf gpx)) eqn:Hr.
      * now rewrite (validPoints_filter _ Hr).
      * now rewrite (validPoints_fatal _ Hr).
    + apply (parse_points_track doc _ Htrk). discriminate.
  - apply parse_throws_track. apply (validPoints_fatal _ Ht).
Qed.

Lemma parse_returns_iff doc :
  consultedCoercible (optGet doc "gpx") = true <->
  exists r, parseGpxDoc doc = Normal r.
Proof.
  pose proof (parseGpxDoc_spec doc) as H. cbv zeta in H.
  destruct (consultedCoercible (optGet doc "gpx")); rewrite H; split.
  - eauto.
  - reflexivity.
  - discriminate.
  - intros [r Hr]. discriminate Hr.
Qed.

(** The readers on a document of the plain shape. *)
Lemma trkptsOf_shape gpx pts : hasTrackPoints gpx pts -> trkptsOf gpx = pts.
Proof.
  intros [trk [seg [Ht [Hs Hp]]]]. unfold trkptsOf. rewrite Ht. cbn.
  rewrite Hs. cbn. rewrite Hp. reflexivity.
Qed.

Lemma rteptsOf_shape gpx pts : hasRoutePoints gpx pts -> rteptsOf gpx = pts.
Proof.
  intros [rte [Hr Hp]]. unfold rteptsOf. rewrite Hr. cbn.
  rewrite Hp. reflexivity.
Qed.

(** C1, as stated, fails on a track with a valid point beside a node
    whose [lat] cannot be coerced: the parse throws and returns no point. *)
Lemma valid_track_point_counterexample :
  ~ (forall doc : JsVal,
       let trkpts := trkptsOf (optGet doc "gpx") in
       (exists p, In p trkpts /\ validPt p = true) ->
       exists r, parseGpxDoc doc = Normal r /\
                 points r = map coords (filter validPt trkpts)).
Proof.
  intros H. specialize (H docUncoercibleLat). cbv zeta in H.
  destruct H as [r [Hr _]].
  - exists (pt "47.5" "8.25"). split; [left; reflexivity | vm_compute; reflexivity].
  - vm_compute in Hr. discriminate Hr.
Qed.

(** C1 (amended): when every coordinate of the point nodes of the first
    segment of the first track can be coerced and one of these nodes is
    valid, the result is exactly the valid track points, and it is the
    same for any other document with the same [trk] node, whatever its
    route data; when a coordinate of these nodes cannot be coerced the
    parse throws, again whatever the route data.  A returned result
    differs from the valid track points only when there are none, and is
    then the valid route points.  The track nodes and the route nodes
    are those of the document: in a document with one track of one
    segment, and with one route, the nodes listed there. *)
Theorem track_points_take_precedence (decode : string -> Completion JsVal)
    (xml : string) (doc : JsVal) :
  decode xml = Normal doc ->
  let gpx := optGet doc "gpx" in
  let trkpts := trkptsOf gpx in
  (noFatal trkpts = true -> filter validPt trkpts <> [] ->
     exists r, parseGpxXml decode xml = Normal r /\
       points r = map coords (filter validPt trkpts) /\
       forall doc', optGet (optGet doc' "gpx") "trk" = optGet gpx "trk" ->
         exists r', parseGpxDoc doc' = Normal r' /\ points r' = points r) /\
  (noFatal trkpts = false ->
     exists e, parseGpxXml decode xml = Throw e /\
       forall doc', optGet (optGet doc' "gpx") "trk" = optGet gpx "trk" ->
         parseGpxDoc doc' = Throw e) /\
  (forall r, parseGpxXml decode xml = Normal r ->
     points r <> map coords (filter validPt trkpts) ->
     filter validPt trkpts = [] /\
     points r = map coords (filter validPt (rteptsOf gpx))) /\
  (forall pts, hasTrackPoints gpx pts -> trkpts = pts) /\
  (forall pts, hasRoutePoints gpx pts -> rteptsOf gpx = pts).
Proof.
  intros Hdec gpx trkpts. rewrite (parseGpxXml_decoded decode xml doc Hdec).
  assert (Hsame : forall doc',
            optGet (optGet doc' "gpx") "trk" = optGet gpx "trk" ->
            trkptsOf (optGet doc' "gpx") = trkpts)
    by (intros doc' Htrk; unfold trkpts, trkptsOf; now rewrite Htrk).
  split; [|split; [|split; [|split]]];
    [ | | | apply trkptsOf_shape | apply rteptsOf_shape].
  - intros Hf Hne.
    assert (Htier : forall d, trkptsOf (optGet d "gpx") = trkpts ->
              parseGpxDoc d =
              Normal {| name := nameOf (optGet d "gpx");
                        points := map coords (filter validPt trkpts) |}).
    { intros d Hd. apply parse_points_track.
      - unfold pointsFromTrk. rewrite Hd. now apply validPoints_filter.
      - destruct (filter validPt trkpts); [congruence | discriminate]. }
    eexists. split; [apply Htier; reflexivity|].
    split; [reflexivity|].
    intros doc' Htrk. eexists. split; [apply Htier, Hsame, Htrk | reflexivity].
  - intros Hf. exists cannotConvert.
    assert (Htier : forall d, trkptsOf (optGet d "gpx") = trkpts ->
              parseGpxDoc d = Throw cannotConvert).
    { intros d Hd. apply parse_throws_track.
      unfold pointsFromTrk. rewrite Hd. now apply validPoints_fatal. }
    split; [apply Htier; reflexivity|].
    intros doc' Htrk. apply Htier, Hsame, Htrk.
  - intros r Hr Hdiff.
    pose proof (parseGpxDoc_spec doc) as Hspec. cbv zeta in Hspec.
    fold gpx in Hspec. rewrite Hr in Hspec.
    destruct (consultedCoercible gpx); [|discriminate Hspec].
    injection Hspec as ->. cbn [points] in *.
    unfold spec_points in *. fold trkpts in Hdiff |- *.
    destruct (filter validPt trkpts) as [|q kept]; [split; reflexivity|].
    now contradiction Hdiff.
Qed.

Lemma track_points_take_precedence_witness :
  exists r, parseGpxXml (fun _ => Normal docTrackAndRoute) "<gpx/>" = Normal r /\
    points r = map coords [pt "47.5" "8.25"; pt "47.75" "8.75"].
Proof.
  destruct (track_points_take_precedence (fun _ => Normal docTrackAndRoute)
              "<gpx/>" docTrackAndRoute eq_refl) as [Htrk [_ [_ [Hshape _]]]].
  assert (Hnodes : trkptsOf (optGet docTrackAndRoute "gpx") =
                   [pt "47.5" "8.25"; pt "north" "8.5"; pt "47.75" "8.75"]).
  { apply Hshape. do 2 eexists. repeat split; reflexivity. }
  rewrite Hnodes in Htrk.
  destruct Htrk as [r [Hr [Hpts _]]].
  - reflexivity.
  - vm_compute. discriminate.
  - exists r. split; [exact Hr|]. rewrite Hpts. vm_compute. reflexivity.
Defined.

(** C3, as stated, fails twice.  On a track whose only point is unparsable
    beside a route, the result is not the (empty) rest of the track but
    the route; and a point whose [lat] cannot be coerced at all is fatal
    to the parse. *)
Lemma bad_track_points_counterexample :
  ~ (forall doc : JsVal,
       let trkpts := trkptsOf (optGet doc "gpx") in
       (exists p, In p trkpts /\ validPt p = false) ->
       noFatal trkpts = true ->
       exists r, parseGpxDoc doc = Normal r /\
                 points r = map coords (filter validPt trkpts)) /\
  ~ (forall doc : JsVal,
       let trkpts := trkptsOf (optGet doc "gpx") in
       (exists p, In p trkpts /\ validPt p = false) ->
       exists r, parseGpxDoc doc = Normal r).
Proof.
  split; intros H.
  - specialize (H docBadTrackGoodRoute). cbv zeta in H.
    destruct H as [r [Hr Hpts]].
    + exists (pt "north" "8.5"). split; [left | vm_compute]; reflexivity.
    + vm_compute. reflexivity.
    + vm_compute in Hr. injection Hr as <-. vm_compute in Hpts.
      discriminate Hpts.
  - specialize (H docUncoercibleLat). cbv zeta in H.
    destruct H as [r Hr].
    + exists (VObject [("lat", latWithToString); ("lon", VString "8.5")]).
      split; [right; left | vm_compute]; reflexivity.
    + vm_compute in Hr. discriminate Hr.
Qed.

(** C3 (amended): a point node whose [lat] or [lon] coerces to a number
    that is not finite is dropped and is not fatal; coordinates that are
    strings or absent, as attributes are, always coerce.  When every
    coordinate of the track nodes can be coerced, the result is the valid
    track nodes in document order if there is one, and otherwise the valid
    route nodes in document order, under the same per-point rule.  A
    coordinate that cannot be coerced, in a tier that is read, makes the
    parse throw.  The track nodes and the route nodes are those of the
    document: in a document with one track of one segment, and with one
    route, the nodes listed there. *)
Theorem bad_points_are_skipped (decode : string -> Completion JsVal)
    (xml : string) (doc : JsVal) :
  decode xml = Normal doc ->
  let trkpts := trkptsOf (optGet doc "gpx") in
  let rtepts := rteptsOf (optGet doc "gpx") in
  (forall p, primitive (optGet p "lat") = true ->
     primitive (optGet p "lon") = true ->
     toLatLng p = Normal (if validPt p then Some (coords p) else None)) /\
  (noFatal trkpts = true -> filter validPt trkpts <> [] ->
     exists r, parseGpxXml decode xml = Normal r /\
       points r = map coords (filter validPt trkpts)) /\
  (noFatal trkpts = true -> filter validPt trkpts = [] ->
     noFatal rtepts = true ->
     exists r, parseGpxXml decode xml = Normal r /\
       points r = map coords (filter validPt rtepts)) /\
  (noFatal trkpts = false -> exists e, parseGpxXml decode xml = Throw e) /\
  (noFatal trkpts = true -> filter validPt trkpts = [] ->
     noFatal rtepts = false -> exists e, parseGpxXml decode xml = Throw e) /\
  (forall pts, hasTrackPoints (optGet doc "gpx") pts -> trkpts = pts) /\
  (forall pts, hasRoutePoints (optGet doc "gpx") pts -> rtepts = pts).
Proof.
  intros Hdec trkpts rtepts. rewrite (parseGpxXml_decoded decode xml doc Hdec).
  pose proof (parseGpxDoc_spec doc) as Hspec. cbv zeta in Hspec.
  unfold consultedCoercible, spec_points in Hspec.
  fold trkpts rtepts in Hspec.
  split; [|split; [|split; [|split; [|split; [|split]]]]];
    [ | | | | | apply trkptsOf_shape | apply rteptsOf_shape].
  - intros p Hlat Hlon. apply toLatLng_valid. unfold fatalPt.
    now rewrite (primitive_coercible _ Hlat), (primitive_coercible _ Hlon).
  - intros Hf Hne. rewrite Hf in Hspec.
    destruct (filter validPt trkpts); [congruence|].
    eexists. split; [exact Hspec | reflexivity].
  - intros Hf Hnone Hr. rewrite Hf, Hnone, Hr in Hspec.
    eexists. split; [exact Hspec | reflexivity].
  - intros Hf. rewrite Hf in Hspec. eexists. exact Hspec.
  - intros Hf Hnone Hr. rewrite Hf, Hnone, Hr in Hspec. eexists. exact Hspec.
Qed.

Lemma bad_points_are_skipped_witness :
  (exists r, parseGpxXml (fun _ => Normal docTrackAndRoute) "<gpx/>" = Normal r /\
     points r = [coords (pt "47.5" "8.25"); coords (pt "47.75" "8.75")]) /\
  (exists r, parseGpxXml (fun _ => Normal docNamedTrackNoPoints) "<gpx/>" = Normal r /\
     points r = [coords (pt "10" "20"); coords (pt "11" "21")]).
Proof.
  split.
  - destruct (bad_points_are_skipped (fun _ => Normal docTrackAndRoute)
                "<gpx/>" docTrackAndRoute eq_refl)
      as [_ [Hsome [_ [_ [_ [Hshape _]]]]]].
    assert (Hnodes : trkptsOf (optGet docTrackAndRoute "gpx") =
                     [pt "47.5" "8.25"; pt "north" "8.5"; pt "47.75" "8.75"]).
    { apply Hshape. do 2 eexists. repeat split; reflexivity. }
    rewrite Hnodes in Hsome.
    destruct Hsome as [r [Hr Hpts]].
    + reflexivity.
    + vm_compute. discriminate.
    + exists r. split; [exact Hr|]. rewrite Hpts. vm_compute. reflexivity.
  - destruct (bad_points_are_skipped (fun _ => Normal docNamedTrackNoPoints)
                "<gpx/>" docNamedTrackNoPoints eq_refl)
      as [_ [_ [Hnone [_ [_ [Htrk Hrte]]]]]].
    assert (Ht : trkptsOf (optGet docNamedTrackNoPoints "gpx") =
                 [pt "north" "8.5"; VString "text"]).
    { apply Htrk. do 2 eexists. repeat split; reflexivity. }
    assert (Hr : rteptsOf (optGet docNamedTrackNoPoints "gpx") =
                 [pt "10" "20"; pt "11" "21"]).
    { apply Hrte. eexists. split; reflexivity. }
    rewrite Ht, Hr in Hnone.
    destruct Hnone as [r [Hres Hpts]].
    + reflexivity.
    + vm_compute. reflexivity.
    + reflexivity.
    + exists r. split; [exact Hres|]. rewrite Hpts. vm_compute. reflexivity.
Defined.

(** C4, as stated, fails: an empty metadata name is returned although the
    track has a non-empty name. *)
Lemma name_first_non_empty_counterexample :
  ~ (forall doc res, parseGpxDoc doc = Normal res ->
       name res = spec_firstNonEmptyName (optGet doc "gpx")).
Proof.
  intros H.
  specialize (H docEmptyMetadataName _ (parseGpxDoc_spec docEmptyMetadataName)).
  vm_compute in H. discriminate H.
Qed.

(** C4 (amended): the name is the first of the metadata name, the name of
    the [trk] node and the name of the [rte] node that is present (neither
    undefined nor null); an empty metadata name is present and is the
    result; when none is present the name is undefined.  No name makes the
    parse throw: it returns exactly when the coordinates it coerces can be
    coerced. *)
Theorem name_first_present (decode : string -> Completion JsVal)
    (xml : string) (doc : JsVal) :
  decode xml = Normal doc ->
  let gpx := optGet doc "gpx" in
  let m := optGet (optGet gpx "metadata") "name" in
  let t := optGet (optGet gpx "trk") "name" in
  let r := optGet (optGet gpx "rte") "name" in
  (consultedCoercible gpx = true <->
   exists res, parseGpxXml decode xml = Normal res) /\
  (forall res, parseGpxXml decode xml = Normal res ->
    (nullish m = false -> name res = m) /\
    (nullish m = true -> nullish t = false -> name res = t) /\
    (nullish m = true -> nullish t = true -> name res = r) /\
    (m = VString "" -> name res = VString "") /\
    (m = VUndefined -> t = VUndefined -> r = VUndefined ->
     name res = VUndefined)).
Proof.
  intros Hdec gpx m t r. rewrite (parseGpxXml_decoded decode xml doc Hdec).
  split; [apply parse_returns_iff|].
  intros res Hres. rewrite (parse_name doc res Hres).
  unfold nameOf, coalesce. fold gpx m t r.
  repeat split.
  - intros ->. reflexivity.
  - intros -> ->. reflexivity.
  - intros -> ->. reflexivity.
  - intros ->. reflexivity.
  - intros -> -> ->. reflexivity.
Qed.

Lemma name_first_present_witness :
  exists res,
    parseGpxXml (fun _ => Normal docEmptyMetadataName) "<gpx/>" = Normal res /\
    name res = VString "".
Proof.
  destruct (name_first_present (fun _ => Normal docEmptyMetadataName)
              "<gpx/>" docEmptyMetadataName eq_refl) as [Hret Hname].
  destruct (proj1 Hret) as [res Hres]; [vm_compute; reflexivity|].
  exists res. split; [exact Hres|].
  destruct (Hname res Hres) as [_ [_ [_ [Hempty _]]]].
  apply Hempty. reflexivity.
Defined.

(** Absent nodes yield no points. *)
Lemma asArray_falsy v : truthy v = false -> asArray v = [].
Proof. intros H. unfold asArray. now rewrite H. Qed.

Lemma trkptsOf_no_trk gpx : truthy (optGet gpx "trk") = false -> trkptsOf gpx = [].
Proof. intros H. unfold trkptsOf. now rewrite (asArray_falsy _ H). Qed.

Lemma rteptsOf_no_rte gpx : truthy (optGet gpx "rte") = false -> rteptsOf gpx = [].
Proof. intros H. unfold rteptsOf. now rewrite (asArray_falsy _ H). Qed.

Lemma parse_no_data doc :
  truthy (optGet (optGet doc "gpx") "trk") = false ->
  truthy (optGet (optGet doc "gpx") "rte") = false ->
  parseGpxDoc doc =
  Normal {| name := nameOf (optGet doc "gpx"); points := [] |}.
Proof.
  intros Ht Hr. rewrite parse_points_route; unfold pointsFromTrk, pointsFromRte.
  - now rewrite (rteptsOf_no_rte _ Hr).
  - now rewrite (trkptsOf_no_trk _ Ht).
Qed.

Lemma parse_no_gpx doc :
  optGet doc "gpx" = VUndefined ->
  parseGpxDoc doc = Normal {| name := VUndefined; points := [] |}.
Proof. intros H. unfold parseGpxDoc. rewrite H. reflexivity. Qed.

(** ** Loading a file *)

(** Whatever the outcome, a load that surfaces an error has written
    nothing but the error and the progress flag. *)
Lemma pickGpx_error_frame decode picked read h :
  let h' := exec (pickGpx decode picked read) h in
  nullish (gpxError h') = false ->
  route h' = route h /\ routeName h' = routeName h /\ mode h' = mode h.
Proof.
  unfold_handlers.
  destruct picked as [p|e]; cbn.
  - destruct (canceled p); cbn; [discriminate|].
    destruct (truthy _); cbn; [|auto].
    destruct (read _) as [xml|e]; cbn; [|auto].
    destruct (parseGpxXml decode xml) as [parsed|e]; cbn; [|auto].
    destruct (List.length (points parsed) =? 0)%nat; cbn; [auto|].
    discriminate.
  - auto.
Qed.

Lemma pickGpx_reads decode p read xml h :
  canceled p = false -> truthy (pickedUri p) = true ->
  read (pickedUri p) = Normal xml ->
  exec (pickGpx decode (Normal p) read) h =
  match parseGpxXml decode xml with
  | Throw e =>
      exec (setGpxError (coalesce (optGet e "message") (VString "Failed to load GPX")) ;;
            setLoadingGpx false) h
  | Normal parsed =>
      if (List.length (points parsed) =? 0)%nat
      then exec (setGpxError (VString "No route points found in GPX") ;;
                 setLoadingGpx false) h
      else exec (setGpxError VNull ;; setRouteName (name parsed) ;;
                 setRoute (points parsed) ;; setMode browse ;;
                 setLoadingGpx false) h
  end.
Proof.
  unfold pickedUri. intros Hc Hu Hr. unfold_handlers. cbn.
  rewrite Hc. cbn. rewrite Hu. cbn. rewrite Hr. cbn.
  destruct (parseGpxXml decode xml) as [parsed|e]; cbn; [|reflexivity].
  destruct (List.length (points parsed) =? 0)%nat; reflexivity.
Qed.

(** C5, as stated, fails: on a document without metadata, route and
    [lon], whose only point has a [lat] element with a [toString] child,
    the parser throws. *)
Lemma parser_total_counterexample :
  ~ (forall doc : JsVal, exists r, parseGpxDoc doc = Normal r).
Proof.
  intros H. destruct (H docOnlyUncoercibleLat) as [r Hr].
  vm_compute in Hr. discriminate Hr.
Qed.

(** C5 (amended): the parser returns exactly on the decoded documents in
    which every coordinate it coerces can be coerced, and throws on the
    others; it returns in particular when the coordinates of all point
    nodes are strings or absent, as attributes are, and whichever of the
    [gpx], track, segment, route and point nodes are absent.  Without
    track and route nodes (in particular without a [gpx] node) the points
    are empty.  The empty list is turned into the load error by the
    caller, [pickGpx], which leaves the route as it was; so is an
    exception of the parser, under the message of the exception.  The
    point nodes are those of the document: in a document with one track
    of one segment, and with one route, the nodes listed there. *)
Theorem parser_is_total (decode : string -> Completion JsVal)
    (xml : string) (doc : JsVal) :
  decode xml = Normal doc ->
  let gpx := optGet doc "gpx" in
  (consultedCoercible gpx = true <->
   exists r, parseGpxXml decode xml = Normal r) /\
  (consultedCoercible gpx = false <->
   exists e, parseGpxXml decode xml = Throw e) /\
  ((forall p, In p (trkptsOf gpx ++ rteptsOf gpx) ->
      primitive (optGet p "lat") = true /\ primitive (optGet p "lon") = true) ->
   exists r, parseGpxXml decode xml = Normal r) /\
  (truthy (optGet gpx "trk") = false -> truthy (optGet gpx "rte") = false ->
   exists r, parseGpxXml decode xml = Normal r /\ points r = []) /\
  (gpx = VUndefined ->
   parseGpxXml decode xml = Normal {| name := VUndefined; points := [] |}) /\
  (forall h p read,
     canceled p = false -> truthy (pickedUri p) = true ->
     read (pickedUri p) = Normal xml ->
     let h' := exec (pickGpx decode (Normal p) read) h in
     (forall r, parseGpxXml decode xml = Normal r -> points r = [] ->
        gpxError h' = VString "No route points found in GPX" /\
        route h' = route h) /\
     (forall e, parseGpxXml decode xml = Throw e ->
        gpxError h' = coalesce (optGet e "message") (VString "Failed to load GPX") /\
        route h' = route h)) /\
  (forall pts, hasTrackPoints gpx pts -> trkptsOf gpx = pts) /\
  (forall pts, hasRoutePoints gpx pts -> rteptsOf gpx = pts).
Proof.
  intros Hdec gpx.
  pose proof (parseGpxXml_decoded decode xml doc Hdec) as Hparse.
  pose proof (parseGpxDoc_spec doc) as Hspec. cbv zeta in Hspec. fold gpx in Hspec.
  split; [|split; [|split; [|split; [|split; [|split; [|split]]]]]];
    [ | | | | | | apply trkptsOf_shape | apply rteptsOf_shape].
  - rewrite Hparse. apply parse_returns_iff.
  - rewrite Hparse, Hspec.
    destruct (consultedCoercible gpx); split; intros H; try discriminate H;
      eauto.
    destruct H as [e He]. discriminate He.
  - intros Hprim. rewrite Hparse.
    apply parse_returns_iff. fold gpx. unfold consultedCoercible.
    assert (Hall : forall pts, (forall p, In p pts ->
              primitive (optGet p "lat") = true /\
              primitive (optGet p "lon") = true) -> noFatal pts = true).
    { intros pts Hp. apply forallb_forall. intros p Hin.
      destruct (Hp p Hin) as [H1 H2]. unfold fatalPt.
      now rewrite (primitive_coercible _ H1), (primitive_coercible _ H2). }
    rewrite (Hall (trkptsOf gpx)), (Hall (rteptsOf gpx)).
    + now destruct (filter validPt (trkptsOf gpx)).
    + intros p Hin. apply Hprim, in_or_app. now right.
    + intros p Hin. apply Hprim, in_or_app. now left.
  - intros Ht Hr. rewrite Hparse, (parse_no_data doc Ht Hr). eauto.
  - intros Hg. rewrite Hparse. now apply parse_no_gpx.
  - intros h p read Hc Hu Hr h'. subst h'.
    rewrite (pickGpx_reads decode p read xml h Hc Hu Hr).
    split.
    + intros r Hret Hempty. rewrite Hret, Hempty. split; reflexivity.
    + intros e Hthrow. rewrite Hthrow. split; reflexivity.
Qed.

Lemma parser_is_total_witness :
  (exists r, parseGpxXml (fun _ => Normal docNoData) "<gpx/>" = Normal r /\
             points r = []) /\
  (exists r, parseGpxXml (fun _ => Normal docNamedTrackNoPoints) "<gpx/>"
             = Normal r).
Proof.
  split.
  - destruct (parser_is_total (fun _ => Normal docNoData) "<gpx/>" docNoData
                eq_refl) as [_ [_ [_ [Hnone _]]]].
    apply Hnone; reflexivity.
  - destruct (parser_is_total (fun _ => Normal docNamedTrackNoPoints) "<gpx/>"
                docNamedTrackNoPoints eq_refl) as [_ [_ [Hprim _]]].
    apply Hprim. intros p Hin.
    assert (Hcases : p = pt "north" "8.5" \/ p = VString "text" \/
                     p = pt "10" "20" \/ p = pt "11" "21").
    { vm_compute in Hin.
      destruct Hin as [<- | [<- | [<- | [<- | []]]]]; auto. }
    destruct Hcases as [-> | [-> | [-> | ->]]]; split; reflexivity.
Defined.

(** C8: a load that surfaces an error leaves the route, its name, the mode
    and the region derived from the route as they were.  A document the
    decoder rejects, a document on which the parser throws and a document
    without usable points are such failures; a document with points
    replaces the route in full. *)
Theorem failed_load_keeps_route (decode : string -> Completion JsVal)
    (picked : Completion DocumentPickerResult)
    (read : JsVal -> Completion string) (h : Hooks) :
  let h' := exec (pickGpx decode picked read) h in
  (nullish (gpxError h') = false ->
     route h' = route h /\ routeName h' = routeName h /\
     mode h' = mode h /\ region h' = region h) /\
  (forall p xml,
     picked = Normal p -> canceled p = false -> truthy (pickedUri p) = true ->
     read (pickedUri p) = Normal xml ->
     (forall e, decode xml = Throw e ->
        gpxError h' = coalesce (optGet e "message") (VString "Failed to load GPX")
        /\ nullish (gpxError h') = false) /\
     (forall doc e, decode xml = Normal doc -> parseGpxDoc doc = Throw e ->
        gpxError h' = coalesce (optGet e "message") (VString "Failed to load GPX")
        /\ nullish (gpxError h') = false) /\
     (forall doc parsed, decode xml = Normal doc ->
        parseGpxDoc doc = Normal parsed -> points parsed = [] ->
        gpxError h' = VString "No route points found in GPX") /\
     (forall doc parsed, decode xml = Normal doc ->
        parseGpxDoc doc = Normal parsed -> points parsed <> [] ->
        route h' = points parsed /\
        routeName h' = name parsed /\
        mode h' = browse /\ gpxError h' = VNull)).
Proof.
  intros h'. split.
  - intros Herr.
    destruct (pickGpx_error_frame decode picked read h Herr) as [Hr [Hn Hm]].
    fold h' in Hr, Hn, Hm. unfold region. rewrite Hr. auto.
  - intros p xml -> Hc Hu Hread. subst h'.
    rewrite (pickGpx_reads decode p read xml h Hc Hu Hread).
    unfold parseGpxXml. split; [|split; [|split]].
    + intros e He. rewrite He. unfold_handlers. cbn. unfold coalesce.
      destruct (nullish (optGet e "message")) eqn:E; split; auto.
    + intros doc e Hd He. rewrite Hd, He. unfold_handlers. cbn. unfold coalesce.
      destruct (nullish (optGet e "message")) eqn:E; split; auto.
    + intros doc parsed Hd Hp Hempty. rewrite Hd, Hp, Hempty. reflexivity.
    + intros doc parsed Hd Hp Hsome. rewrite Hd, Hp.
      destruct (points parsed); [congruence|].
      repeat split; reflexivity.
Qed.

Lemma failed_load_keeps_route_witness :
  let h' := exec (pickGpx (fun _ => Normal docNoData)
                    (Normal (pickedFile "file:///empty.gpx"))
                    (fun _ => Normal "<gpx/>")) hooksLoaded in
  gpxError h' = VString "No route points found in GPX" /\
  route h' = route hooksLoaded /\ region h' = region hooksLoaded.
Proof.
  intros h'.
  destruct (failed_load_keeps_route (fun _ => Normal docNoData)
              (Normal (pickedFile "file:///empty.gpx"))
              (fun _ => Normal "<gpx/>") hooksLoaded) as [Hframe Hcases].
  fold h' in Hframe, Hcases.
  destruct (Hcases (pickedFile "file:///empty.gpx") "<gpx/>"
              eq_refl eq_refl eq_refl eq_refl) as [_ [_ [Hnone _]]].
  specialize (Hnone docNoData _ eq_refl eq_refl eq_refl).
  split; [exact Hnone|].
  rewrite Hnone in Hframe. destruct (Hframe eq_refl) as [Hr [_ [_ Hreg]]].
  split; assumption.
Defined.




(** ** The navigation controller *)

Lemma eqMode_true a b : eqMode a b = true <-> a = b.
Proof. destruct a, b; cbn; split; congruence. Qed.

Lemma mode_cases (m : NavMode) : m = browse \/ m = drive.
Proof. destruct m; auto. Qed.

(** The permission check answers [true] only when the services are
    enabled and the permission is granted, and it leaves [mode] alone. *)
Lemma requestLocationPermission_spec env h :
  let '(h', r) := requestLocationPermission env h in
  mode h' = mode h /\ route h' = route h /\
  (r = Normal true <->
   hasServicesEnabledAsync env = Normal true /\
   requestForegroundPermissionsAsync env = Normal st_granted).
Proof.
  unfold_handlers.
  destruct env as [[[|]|e1] [[| |]|e2]]; cbn;
    (split; [reflexivity|]; split; [reflexivity|]);
    split; intros H; try discriminate H; auto;
    destruct H as [H1 H2]; try discriminate H1; try discriminate H2.
Qed.

(** [startNavigation] enters drive mode exactly when the check succeeds. *)
Lemma startNavigation_mode snap env h :
  let h' := exec (startNavigation snap env) h in
  route h' = route h /\
  ((hasServicesEnabledAsync env = Normal true /\
    requestForegroundPermissionsAsync env = Normal st_granted /\
    mode h' = drive)
   \/
   (~ (hasServicesEnabledAsync env = Normal true /\
       requestForegroundPermissionsAsync env = Normal st_granted) /\
    mode h' = mode h)).
Proof.
  unfold_handlers.
  destruct env as [[[|]|e1] [[| |]|e2]]; cbn;
    try (split; [reflexivity|]; left; repeat split; reflexivity);
    destruct (truthy (gpsError snap)); cbn;
    (split; [reflexivity|]); right; (split; [|reflexivity]);
    intros [H1 H2]; try discriminate H1; discriminate H2.
Qed.

Lemma pickGpx_mode decode picked read h :
  let h' := exec (pickGpx decode picked read) h in
  mode h' = mode h \/ mode h' = browse.
Proof.
  unfold_handlers.
  destruct picked as [p|e]; cbn; [|auto].
  destruct (canceled p); cbn; [auto|].
  destruct (truthy _); cbn; [|auto].
  destruct (read _) as [xml|e]; cbn; [|auto].
  destruct (parseGpxXml decode xml) as [parsed|e]; cbn; [|auto].
  destruct (List.length (points parsed) =? 0)%nat; cbn; auto.
Qed.

(** The tracking effect opens a subscription only for a render in drive
    mode, and never writes [mode] or [route]. *)
Lemma trackingEffect_spec snap eff h :
  let '(h', r) := trackingEffect snap eff h in
  mode h' = mode h /\ route h' = route h /\
  (r = Normal true -> mode snap = drive) /\
  (exists opened, r = Normal opened).
Proof.
  unfold trackingEffect.
  destruct (mode snap); cbn.
  - repeat split; [discriminate | now exists false].
  - unfold tryCatch, bind.
    destruct (eqPerm (locPerm snap) granted).
    + unfold ret, await. destruct (watchPositionAsync eff); cbn;
        repeat split; eauto.
    + pose proof (requestLocationPermission_spec (eff_location eff) h) as Hreq.
      destruct (requestLocationPermission (eff_location eff) h) as [h1 [ok|e]].
      * destruct Hreq as [Hm [Hr _]].
        destruct ok; cbn; unfold ret, await;
          [destruct (watchPositionAsync eff); cbn|]; repeat split; eauto.
      * destruct Hreq as [Hm [Hr _]]. cbn. repeat split; eauto.
Qed.

Lemma commit_spec w h' eff :
  let w' := commit w h' eff in
  mode (hooks w') = mode h' /\ route (hooks w') = route h' /\
  (sub w' = true ->
   (mode h' = mode (hooks w) /\ sub w = true) \/
   (mode h' = drive /\ mode (hooks w) = browse)).
Proof.
  unfold commit.
  destruct (eqMode (mode (hooks w)) (mode h')) eqn:E; cbn.
  - apply eqMode_true in E. repeat split. intros Hs. left. split; congruence.
  - pose proof (trackingEffect_spec h' eff h') as Heff.
    destruct (trackingEffect h' eff h') as [h'' r]. cbn.
    destruct Heff as [Hm [Hr [Hopen _]]]. repeat split; try assumption.
    intros Hs. right. destruct r as [[|]|e]; try discriminate Hs.
    specialize (Hopen eq_refl). split; [assumption|].
    rewrite Hopen in E. destruct (mode (hooks w)); [reflexivity | discriminate E].
Qed.

Section ControllerFacts.
Variable decode : string -> Completion JsVal.

Lemma step_commit w ev eff w' :
  step decode w ev eff = Some w' ->
  exists handler, handlerOf decode w ev = Some handler /\
                  w' = commit w (exec handler (hooks w)) eff.
Proof.
  unfold step. destruct (handlerOf decode w ev) as [handler|]; [|discriminate].
  intros [= <-]. now exists handler.
Qed.




(** The only handler that takes [mode] from browse to drive is
    [startNavigation], after a check in which the services were enabled
    and the permission granted. *)
Lemma only_start_enters_drive w ev handler :
  handlerOf decode w ev = Some handler ->
  mode (hooks w) = browse -> mode (exec handler (hooks w)) = drive ->
  exists env, ev = PressStart env /\
    hasServicesEnabledAsync env = Normal true /\
    requestForegroundPermissionsAsync env = Normal st_granted.
Proof.
  intros Hh Hb Hd. destruct ev as [perm en | picked read | env | | pos];
    cbn in Hh.
  - injection Hh as <-. exfalso. revert Hd. unfold_handlers.
    destruct perm as [[| |]|e]; cbn; try congruence;
      destruct en; cbn; congruence.
  - destruct (loadingGpx (hooks w)); [discriminate|]. injection Hh as <-.
    destruct (pickGpx_mode decode picked read (hooks w)); congruence.
  - destruct (_ && _); [|discriminate]. injection Hh as <-.
    destruct (startNavigation_mode (hooks w) env (hooks w))
      as [_ [[Hs [Hp _]] | [_ Hsame]]].
    + now exists env.
    + congruence.
  - destruct (eqMode _ _); [|discriminate]. injection Hh as <-.
    cbn in Hd. discriminate Hd.
  - destruct (sub w); [|discriminate]. injection Hh as <-.
    cbn in Hd. congruence.
Qed.

End ControllerFacts.



(** What [startNavigation] leaves in [gpsError] is decided by the error of
    the render that created the handler, not by the error the permission
    check has just set: with no error showing before the attempt, the
    services-off message is replaced by the generic one; with an error
    showing before the attempt, a denied permission surfaces no error. *)
Lemma startNavigation_reads_stale_error (h : Hooks) (st : PermissionStatus) :
  (truthy (gpsError h) = false ->
   gpsError (exec (startNavigation h
       {| hasServicesEnabledAsync := Normal false;
          requestForegroundPermissionsAsync := Normal st |}) h)
   = VString "Location permission denied") /\
  (truthy (gpsError h) = true -> isGranted st = false ->
   gpsError (exec (startNavigation h
       {| hasServicesEnabledAsync := Normal true;
          requestForegroundPermissionsAsync := Normal st |}) h)
   = VNull).
Proof.
  split.
  - intros Hstale. unfold_handlers. cbn.
    destruct st; cbn; rewrite Hstale; reflexivity.
  - intros Hstale Hden. unfold_handlers. cbn.
    destruct st; try discriminate Hden; cbn; rewrite Hstale; reflexivity.
Qed.

(** C9 (the code departs from it): with a route loaded and no error
    showing, a start attempt made while the location services are off ends
    with the generic message, not with the services-off message that the
    permission check had set. *)
Theorem services_off_message_is_replaced :
  exists w',
    step (fun _ => Normal docTrackAndRoute) worldLoaded
         (PressStart servicesOffPermissionGranted) allGranted = Some w' /\
    mode (hooks w') = browse /\
    gpsError (hooks w') = VString "Location permission denied" /\
    gpsError (hooks w') <> VString servicesOffMessage.
Proof.
  eexists. split; [reflexivity|]. cbn.
  split; [reflexivity|]. split; [reflexivity|]. discriminate.
Qed.

(** ** The speed readout *)

(** [Math.round] on a value [x] that is not an integer picks the integer
    [r] with [r - 1/2 <= x < r + 1/2]; here [x] is [m / 2^k] with its sign
    and both sides are scaled by [2^(k+1)]. *)
Lemma nearestInteger_bounds neg m k :
  0 < k ->
  let r := nearestInteger neg m k in
  (2 * r - 1) * 2 ^ k <= twiceScaled neg m < (2 * r + 1) * 2 ^ k.
Proof.
  intros Hk r. subst r. unfold nearestInteger, twiceScaled.
  set (t := if neg then - (2 * Z.pos m) else 2 * Z.pos m).
  assert (Hp : 0 < 2 ^ k) by (apply Z.pow_pos_nonneg; lia).
  replace (2 ^ (k + 1)) with (2 * 2 ^ k) by (rewrite Z.pow_add_r; lia).
  pose proof (Z.div_mod (t + 2 ^ k) (2 * 2 ^ k) ltac:(lia)) as Hdm.
  pose proof (Z.mod_pos_bound (t + 2 ^ k) (2 * 2 ^ k) ltac:(lia)) as Hmod.
  nia.
Qed.

(** C6, as stated, fails: a finite speed whose km/h value overflows is
    shown as "0", which is the string of a number and the readout of a
    speed of zero. *)
Lemma overflowing_speed_counterexample :
  ~ (forall n, isFinite n = true -> isFinite (kmh n) = false ->
       ~ renderedNumber (fmtSpeed (VNumber n))).
Proof.
  intros H. apply (H (StringToNumber "1e308")).
  - vm_compute. reflexivity.
  - vm_compute. reflexivity.
  - exists posZero. vm_compute. reflexivity.
Qed.

(** C6 (amended): a missing value (null or undefined) and a number that is
    not finite give the unknown marker; a finite speed whose km/h value is
    negative gives "0"; a finite speed whose km/h value is finite and not
    negative gives the rounded value as a string (5 m/s gives "18"); a
    finite speed whose km/h value is not finite gives "0" as well, the
    readout of a speed of zero: the value itself is not formatted. *)
Theorem fmtSpeed_cases :
  fmtSpeed VNull = "—" /\ fmtSpeed VUndefined = "—" /\
  (forall n, isFinite n = false -> fmtSpeed (VNumber n) = "—") /\
  (forall n, isFinite n = true -> ltb (kmh n) posZero = true ->
     fmtSpeed (VNumber n) = "0") /\
  (forall n, isFinite n = true -> isFinite (kmh n) = true ->
     ltb (kmh n) posZero = false ->
     fmtSpeed (VNumber n) = NumberToString (Math_round (kmh n))) /\
  fmtSpeed (VNumber (ofZ 5)) = "18" /\
  fmtSpeed (VNumber (ofDecimal true 5 (-1))) = "0" /\
  (forall n, isFinite n = true -> isFinite (kmh n) = false ->
     fmtSpeed (VNumber n) = "0" /\
     fmtSpeed (VNumber n) = fmtSpeed (VNumber posZero) /\
     fmtSpeed (VNumber n) <> NumberToString (Math_round (kmh n))).
Proof.
  split; [reflexivity|]. split; [reflexivity|].
  split; [|split; [|split; [|split; [|split]]]].
  - intros n Hn. unfold fmtSpeed. cbn. now rewrite Hn.
  - intros n Hn Hneg. unfold fmtSpeed.
    cbn [nullish Number_isFinite orb numberOf].
    rewrite Hn. cbn [negb]. rewrite Hneg. now rewrite orb_true_r.
  - intros n Hn Hfin Hpos. unfold fmtSpeed.
    cbn [nullish Number_isFinite orb numberOf].
    rewrite Hn. cbn [negb]. now rewrite Hfin, Hpos.
  - vm_compute. reflexivity.
  - vm_compute. reflexivity.
  - intros n Hn Hinf. unfold fmtSpeed at 1 2 4.
    cbn [nullish Number_isFinite orb numberOf].
    rewrite Hn. cbn [negb]. rewrite Hinf. cbn [negb orb].
    split; [reflexivity|]. split; [vm_compute; reflexivity|].
    destruct (kmh n) as [s|[|]| |s m e]; cbn in Hinf |- *;
      discriminate.
Qed.

Lemma fmtSpeed_cases_witness :
  fmtSpeed (VNumber (StringToNumber "-2.5")) = "0" /\
  fmtSpeed (VNumber (StringToNumber "1e308")) = "0" /\
  fmtSpeed (VNumber (StringToNumber "27.4")) = "99".
Proof.
  destruct fmtSpeed_cases as [_ [_ [_ [Hneg [Hround [_ [_ Hover]]]]]]].
  split; [|split].
  - apply Hneg; vm_compute; reflexivity.
  - apply Hover; vm_compute; reflexivity.
  - rewrite Hround; vm_compute; reflexivity.
Defined.

(** ** The bounding region *)

(** The order on numbers other than NaN. *)
Lemma leb_refl x : isNaN x = false -> leb x x = true.
Proof.
  unfold leb, SFleb, SFcompare.
  destruct x as [[|]|[|]| |[|] m e]; cbn; intros H; try reflexivity;
    try discriminate H;
    rewrite Z.compare_refl, Pos.compare_cont_refl; reflexivity.
Qed.

Lemma ltb_false_leb x y :
  isNaN x = false -> isNaN y = false -> ltb x y = false -> leb y x = true.
Proof.
  unfold ltb, leb, SFltb, SFleb, SFcompare.
  destruct x as [[|]|[|]| |[|] mx ex], y as [[|]|[|]| |[|] my ey]; cbn;
    intros Hx Hy H; try reflexivity; try discriminate;
    compare_cases.
Qed.

Lemma ltb_leb x y : ltb x y = true -> leb x y = true.
Proof.
  unfold ltb, leb, SFltb, SFleb.
  destruct (SFcompare x y) as [[| |]|]; intros H; try discriminate; reflexivity.
Qed.

Lemma leb_trans x y z : leb x y = true -> leb y z = true -> leb x z = true.
Proof.
  unfold leb, SFleb, SFcompare.
  destruct x as [[|]|[|]| |[|] mx ex], y as [[|]|[|]| |[|] my ey],
           z as [[|]|[|]| |[|] mz ez]; cbn;
    intros Hxy Hyz; try reflexivity; try discriminate;
    compare_cases.
Qed.

(** [Math.min] and [Math.max] of two numbers other than NaN. *)
Lemma min2_spec m x :
  notNaN m -> notNaN x ->
  notNaN (min2 m x) /\ (min2 m x = m \/ min2 m x = x) /\
  leb (min2 m x) m = true /\ leb (min2 m x) x = true.
Proof.
  unfold notNaN, min2, Math_min. intros Hm Hx. cbn [existsb].
  rewrite Hm, Hx. cbn [orb fold_left].
  assert (Hfirst : minStep posInf m = m)
    by (destruct m as [[|]|[|]| |[|] mm em]; try discriminate; reflexivity).
  rewrite Hfirst. unfold minStep.
  destruct (isNegZero x && isPosZero m) eqn:Hz.
  - apply andb_true_iff in Hz as [Hxz Hmz].
    destruct x as [[|]| | |]; try discriminate Hxz.
    destruct m as [[|]| | |]; try discriminate Hmz.
    repeat split; auto.
  - destruct (ltb x m) eqn:Hlt.
    + repeat split; auto using ltb_leb, leb_refl.
    + repeat split; auto using ltb_false_leb, leb_refl.
Qed.

Lemma max2_spec m x :
  notNaN m -> notNaN x ->
  notNaN (max2 m x) /\ (max2 m x = m \/ max2 m x = x) /\
  leb m (max2 m x) = true /\ leb x (max2 m x) = true.
Proof.
  unfold notNaN, max2, Math_max. intros Hm Hx. cbn [existsb].
  rewrite Hm, Hx. cbn [orb fold_left].
  assert (Hfirst : maxStep negInf m = m)
    by (destruct m as [[|]|[|]| |[|] mm em]; try discriminate; reflexivity).
  rewrite Hfirst. unfold maxStep.
  destruct (isPosZero x && isNegZero m) eqn:Hz.
  - apply andb_true_iff in Hz as [Hxz Hmz].
    destruct x as [[|]| | |]; try discriminate Hxz.
    destruct m as [[|]| | |]; try discriminate Hmz.
    repeat split; auto.
  - destruct (ltb m x) eqn:Hlt.
    + repeat split; auto using ltb_leb, leb_refl.
    + repeat split; auto using ltb_false_leb, leb_refl.
Qed.

(** The scan of a list keeps a least (greatest) element of what it has seen. *)
Lemma fold_min2_least xs : forall m0,
  notNaN m0 -> Forall notNaN xs ->
  notNaN (fold_left min2 xs m0) /\ isLeast (fold_left min2 xs m0) (m0 :: xs).
Proof.
  induction xs as [|x xs IH]; intros m0 Hm0 Hxs; cbn [fold_left].
  - split; [assumption|]. split; [now left|].
    intros y [<-|[]]. now apply leb_refl.
  - inversion Hxs as [|? ? Hx Hxs']; subst.
    destruct (min2_spec m0 x Hm0 Hx) as [Hn [Hor [Hle0 Hlex]]].
    destruct (IH (min2 m0 x) Hn Hxs') as [Hr [Hin Hall]].
    split; [assumption|]. split.
    + destruct Hin as [Heq|Hin]; [|now right; right].
      rewrite <- Heq. destruct Hor as [->| ->]; [now left | now right; left].
    + intros y [<-|[<-|Hy]].
      * apply (leb_trans _ (min2 m0 x)); [apply Hall; now left | assumption].
      * apply (leb_trans _ (min2 m0 x)); [apply Hall; now left | assumption].
      * apply Hall. now right.
Qed.

Lemma fold_max2_greatest xs : forall m0,
  notNaN m0 -> Forall notNaN xs ->
  notNaN (fold_left max2 xs m0) /\ isGreatest (fold_left max2 xs m0) (m0 :: xs).
Proof.
  induction xs as [|x xs IH]; intros m0 Hm0 Hxs; cbn [fold_left].
  - split; [assumption|]. split; [now left|].
    intros y [<-|[]]. now apply leb_refl.
  - inversion Hxs as [|? ? Hx Hxs']; subst.
    destruct (max2_spec m0 x Hm0 Hx) as [Hn [Hor [Hle0 Hlex]]].
    destruct (IH (max2 m0 x) Hn Hxs') as [Hr [Hin Hall]].
    split; [assumption|]. split.
    + destruct Hin as [Heq|Hin]; [|now right; right].
      rewrite <- Heq. destruct Hor as [->| ->]; [now left | now right; left].
    + intros y [<-|[<-|Hy]].
      * apply (leb_trans _ (max2 m0 x)); [assumption | apply Hall; now left].
      * apply (leb_trans _ (max2 m0 x)); [assumption | apply Hall; now left].
      * apply Hall. now right.
Qed.

(** The loop of [boundingRegion] is four independent scans. *)
Lemma scan_components ps : forall b,
  fold_left scanStep ps b =
  {| minLat := fold_left min2 (map latitude ps) (minLat b);
     maxLat := fold_left max2 (map latitude ps) (maxLat b);
     minLon := fold_left min2 (map longitude ps) (minLon b);
     maxLon := fold_left max2 (map longitude ps) (maxLon b) |}.
Proof.
  induction ps as [|p ps IH]; intros b; cbn [fold_left map].
  - now destruct b.
  - rewrite IH. reflexivity.
Qed.

Lemma isLeast_drop_head m x xs : isLeast m (x :: x :: xs) -> isLeast m (x :: xs).
Proof.
  intros [Hin Hall]. split.
  - destruct Hin as [<-|Hin]; [now left | assumption].
  - intros y Hy. apply Hall. now right.
Qed.

Lemma isGreatest_drop_head m x xs :
  isGreatest m (x :: x :: xs) -> isGreatest m (x :: xs).
Proof.
  intros [Hin Hall]. split.
  - destruct Hin as [<-|Hin]; [now left | assumption].
  - intros y Hy. apply Hall. now right.
Qed.

(** Rounding a non-negative mantissa never yields NaN. *)
Lemma shr_1_nonneg mrs : 0 <= shr_m mrs -> 0 <= shr_m (shr_1 mrs).
Proof.
  destruct mrs as [m r s]. destruct m as [|[q|q|]|[q|q|]]; cbn; lia.
Qed.

Lemma iter_shr_1_nonneg n : forall mrs,
  0 <= shr_m mrs -> 0 <= shr_m (iter_pos shr_1 n mrs).
Proof.
  induction n as [n IH|n IH|]; intros mrs H; cbn [iter_pos].
  - apply IH, IH, shr_1_nonneg, H.
  - apply IH, IH, H.
  - apply shr_1_nonneg, H.
Qed.

Lemma shr_fexp_nonneg m e l :
  0 <= m -> 0 <= shr_m (fst (shr_fexp prec emax m e l)).
Proof.
  intros Hm. unfold shr_fexp, shr.
  assert (H0 : 0 <= shr_m (shr_record_of_loc m l))
    by (destruct l as [|[| |]]; exact Hm).
  destruct (fexp prec emax (Zdigits2 m + e) - e); cbn [fst];
    auto using iter_shr_1_nonneg.
Qed.

Lemma round_nearest_even_nonneg m l : 0 <= m -> 0 <= round_nearest_even m l.
Proof.
  intros Hm. unfold round_nearest_even.
  destruct l as [|[| |]]; try destruct (Z.even m); lia.
Qed.

Lemma binary_round_aux_notNaN sx mx ex lx :
  0 <= mx -> notNaN (binary_round_aux prec emax sx mx ex lx).
Proof.
  intros Hm. unfold notNaN, binary_round_aux.
  pose proof (shr_fexp_nonneg mx ex lx Hm) as H1.
  destruct (shr_fexp prec emax mx ex lx) as [mrs' e']. cbn [fst] in H1.
  pose proof (shr_fexp_nonneg _ e' loc_Exact
                (round_nearest_even_nonneg _ (loc_of_shr_record mrs') H1)) as H2.
  destruct (shr_fexp prec emax _ e' loc_Exact) as [mrs'' e'']. cbn [fst] in H2.
  destruct (shr_m mrs'') as [|q|q]; [reflexivity | | lia].
  destruct (Z.leb e'' (emax - prec)); reflexivity.
Qed.

Lemma binary_normalize_notNaN m e : notNaN (binary_normalize prec emax m e false).
Proof.
  unfold binary_normalize, binary_round.
  destruct m as [|q|q]; [reflexivity | |];
    destruct (shl_align _ _ _) as [mz ez];
    apply binary_round_aux_notNaN; lia.
Qed.

Lemma sub_finite_notNaN a b :
  isFinite a = true -> isFinite b = true -> notNaN (Num.sub a b).
Proof.
  unfold Num.sub, SFsub.
  destruct a as [[|]|[|]| |sa ma ea], b as [[|]|[|]| |sb mb eb];
    intros Ha Hb; try discriminate; try reflexivity.
  apply binary_normalize_notNaN.
Qed.

Lemma paddingFactor_value :
  paddingFactor = S754_finite false 6305039478318694 (-52).
Proof. vm_compute. reflexivity. Qed.

Lemma mul_paddingFactor_notNaN x : notNaN x -> notNaN (Num.mul x paddingFactor).
Proof.
  rewrite paddingFactor_value. unfold Num.mul, SFmul.
  destruct x as [[|]|[|]| |sx mx ex]; intros Hx; try discriminate Hx;
    try reflexivity.
  apply binary_round_aux_notNaN. lia.
Qed.

(** With finite coordinates the span is at least the minimum span. *)
Lemma span_at_least_minimum mn mx :
  isFinite mn = true -> isFinite mx = true ->
  leb minimumSpan (Math_max [minimumSpan; Num.mul (Num.sub mx mn) paddingFactor])
  = true.
Proof.
  intros Hmn Hmx.
  apply (max2_spec minimumSpan (Num.mul (Num.sub mx mn) paddingFactor)).
  - reflexivity.
  - now apply mul_paddingFactor_notNaN, sub_finite_notNaN.
Qed.

Lemma finite_notNaN x : isFinite x = true -> notNaN x.
Proof. destruct x; intros H; try discriminate H; reflexivity. Qed.

Lemma Forall_In_map {A} (P : number -> Prop) (f : A -> number) l m :
  Forall (fun a => P (f a)) l -> In m (map f l) -> P m.
Proof.
  intros Hall Hin. apply in_map_iff in Hin as [a [<- Ha]].
  rewrite Forall_forall in Hall. now apply Hall.
Qed.

(** A NaN met by the scan stays. *)
Lemma min2_NaN m x : isNaN m = true \/ isNaN x = true -> min2 m x = NaN.
Proof.
  unfold min2, Math_min. cbn [existsb]. intros [-> | ->];
    [|rewrite orb_true_r]; reflexivity.
Qed.

Lemma max2_NaN m x : isNaN m = true \/ isNaN x = true -> max2 m x = NaN.
Proof.
  unfold max2, Math_max. cbn [existsb]. intros [-> | ->];
    [|rewrite orb_true_r]; reflexivity.
Qed.

Lemma fold_min2_NaN xs : forall m0,
  isNaN m0 = true \/ Exists (fun x => isNaN x = true) xs ->
  fold_left min2 xs m0 = NaN.
Proof.
  induction xs as [|x xs IH]; intros m0 H; cbn [fold_left].
  - destruct H as [H|H]; [|inversion H].
    destruct m0; try discriminate H. reflexivity.
  - apply IH. destruct H as [H|H].
    + left. rewrite min2_NaN; auto.
    + inversion H as [? ? Hx|? ? Hxs]; subst.
      * left. rewrite min2_NaN; auto.
      * now right.
Qed.

Lemma fold_max2_NaN xs : forall m0,
  isNaN m0 = true \/ Exists (fun x => isNaN x = true) xs ->
  fold_left max2 xs m0 = NaN.
Proof.
  induction xs as [|x xs IH]; intros m0 H; cbn [fold_left].
  - destruct H as [H|H]; [|inversion H].
    destruct m0; try discriminate H. reflexivity.
  - apply IH. destruct H as [H|H].
    + left. rewrite max2_NaN; auto.
    + inversion H as [? ? Hx|? ? Hxs]; subst.
      * left. rewrite max2_NaN; auto.
      * now right.
Qed.

Lemma NaN_or_not xs :
  Forall notNaN xs \/ Exists (fun x => isNaN x = true) xs.
Proof.
  induction xs as [|x xs [IH | IH]].
  - left. constructor.
  - destruct (isNaN x) eqn:Hx.
    + right. now constructor.
    + left. now constructor.
  - right. now constructor 2.
Qed.

(** On an axis whose least and greatest values have a finite sum, no
    value is NaN. *)
Lemma finite_sum_notNaN xs m0 :
  isFinite (Num.add (fold_left min2 xs m0) (fold_left max2 xs m0)) = true ->
  notNaN m0 /\ Forall notNaN xs.
Proof.
  intros Hsum.
  assert (Hnot : ~ (isNaN m0 = true \/ Exists (fun x => isNaN x = true) xs)).
  { intros H. rewrite (fold_min2_NaN xs m0 H) in Hsum. discriminate Hsum. }
  split.
  - unfold notNaN. destruct (isNaN m0) eqn:E; [|reflexivity].
    contradiction Hnot. now left.
  - destruct (NaN_or_not xs) as [H | H]; [exact H|].
    contradiction Hnot. now right.
Qed.

(** *** The midpoint of two numbers

    Values are read in units of [2^-1074], in which every finite number
    of binary64 is an integer. *)

Lemma digits2_bounds p :
  2 ^ (Z.pos (digits2_pos p) - 1) <= Z.pos p < 2 ^ Z.pos (digits2_pos p).
Proof.
  induction p as [p IH | p IH | ]; cbn [digits2_pos].
  - rewrite Pos2Z.inj_succ.
    replace (Z.succ (Z.pos (digits2_pos p)) - 1) with (Z.succ (Z.pos (digits2_pos p) - 1)) by lia.
    rewrite !Z.pow_succ_r by lia. lia.
  - rewrite Pos2Z.inj_succ.
    replace (Z.succ (Z.pos (digits2_pos p)) - 1) with (Z.succ (Z.pos (digits2_pos p) - 1)) by lia.
    rewrite !Z.pow_succ_r by lia. lia.
  - cbn. lia.
Qed.

Lemma pow2_pos k : 0 <= k -> 0 < 2 ^ k.
Proof. intros. apply Z.pow_pos_nonneg; lia. Qed.

Lemma pow2_le a b : 0 <= a <= b -> 2 ^ a <= 2 ^ b.
Proof. intros. apply Z.pow_le_mono_r; lia. Qed.

Lemma pow2_lt_inv a b : 0 <= b -> 2 ^ a < 2 ^ b -> a < b.
Proof.
  intros Hb H. destruct (Z_lt_le_dec a b) as [|Hle]; [assumption|].
  pose proof (pow2_le b a ltac:(lia)). lia.
Qed.

Lemma fexp_value e : fexp prec emax e = Z.max (e - 53) (-1074).
Proof. reflexivity. Qed.

(** The shape of a canonical mantissa and exponent. *)
Lemma bounded_shape m e :
  bounded prec emax m e = true <->
  (-1074 <= e <= 971 /\ Z.pos m < 2 ^ 53 /\ (-1074 < e -> 2 ^ 52 <= Z.pos m)).
Proof.
  unfold bounded, canonical_mantissa. rewrite fexp_value.
  rewrite andb_true_iff, Z.eqb_eq, Z.leb_le.
  change (emax - prec) with 971.
  pose proof (digits2_bounds m) as Hd.
  set (d := Z.pos (digits2_pos m)) in *.
  assert (Hdpos : 0 < d) by (unfold d; lia).
  split.
  - intros [Hc He]. split; [lia|].
    assert (Hd53 : d <= 53) by lia.
    split.
    + pose proof (pow2_le d 53 ltac:(lia)). lia.
    + intros Hn. assert (d = 53) by lia.
      replace (d - 1) with 52 in Hd by lia. lia.
  - intros [He [Hm Hn]]. split; [|lia].
    assert (Hd53 : d <= 53).
    { assert (d - 1 < 53); [|lia]. apply pow2_lt_inv; lia. }
    destruct (Z.eq_dec e (-1074)) as [->|Hne]; [lia|].
    assert (52 < d); [|lia].
    apply pow2_lt_inv; [lia|]. specialize (Hn ltac:(lia)). lia.
Qed.

Lemma pow2_add a b : 0 <= a -> 0 <= b -> 2 ^ (a + b) = 2 ^ a * 2 ^ b.
Proof. intros. apply Z.pow_add_r; lia. Qed.

(** Canonical magnitudes are ordered as their exponents, then as their
    mantissas. *)
Lemma magnitude_lt m1 e1 m2 e2 :
  bounded prec emax m1 e1 = true -> bounded prec emax m2 e2 = true ->
  e1 < e2 ->
  Z.pos m1 * 2 ^ (e1 + 1074) < Z.pos m2 * 2 ^ (e2 + 1074).
Proof.
  intros H1 H2 He.
  apply bounded_shape in H1 as [He1 [Hm1 _]].
  apply bounded_shape in H2 as [He2 [_ Hn2]].
  specialize (Hn2 ltac:(lia)).
  replace (e2 + 1074) with ((e1 + 1074) + (e2 - e1)) by lia.
  rewrite (pow2_add (e1 + 1074) (e2 - e1)) by lia.
  pose proof (pow2_pos (e1 + 1074) ltac:(lia)) as Hp.
  pose proof (pow2_le 1 (e2 - e1) ltac:(lia)) as Hq.
  change (2 ^ 1) with 2 in Hq.
  change (2 ^ 53) with (2 * 2 ^ 52) in Hm1.
  set (P := 2 ^ (e1 + 1074)) in *. set (Q := 2 ^ (e2 - e1)) in *.
  set (K := 2 ^ 52) in *. assert (0 < K) by (unfold K; lia).
  assert (Z.pos m1 * P < 2 * K * P) by (apply Z.mul_lt_mono_pos_r; lia).
  assert (K * (P * 2) <= Z.pos m2 * (P * Q)).
  { apply Z.mul_le_mono_nonneg; try lia. apply Z.mul_le_mono_nonneg_l; lia. }
  lia.
Qed.

Lemma compare_scaled x y :
  binary64 x -> binary64 y -> isFinite x = true -> isFinite y = true ->
  SFcompare x y = Some (Z.compare (scaled x) (scaled y)).
Proof.
  unfold binary64.
  destruct x as [sx|sx| |sx mx ex], y as [sy|sy| |sy my ey];
    cbn [valid_binary isFinite]; intros Hx Hy Fx Fy;
    try discriminate Fx; try discriminate Fy.
  - reflexivity.
  - unfold SFcompare, scaled.
    pose proof (proj1 (bounded_shape my ey) Hy) as [He _].
    pose proof (pow2_pos (ey + 1074) ltac:(lia)).
    destruct sy; f_equal; symmetry.
    + apply Z.compare_gt_iff. nia.
    + apply Z.compare_lt_iff. nia.
  - unfold SFcompare, scaled.
    pose proof (proj1 (bounded_shape mx ex) Hx) as [He _].
    pose proof (pow2_pos (ex + 1074) ltac:(lia)).
    destruct sx; f_equal; symmetry.
    + apply Z.compare_lt_iff. nia.
    + apply Z.compare_gt_iff. nia.
  - pose proof (proj1 (bounded_shape mx ex) Hx) as [Hex _].
    pose proof (proj1 (bounded_shape my ey) Hy) as [Hey _].
    pose proof (pow2_pos (ex + 1074) ltac:(lia)) as Px.
    pose proof (pow2_pos (ey + 1074) ltac:(lia)) as Py.
    unfold SFcompare, scaled.
    change (Pos.compare_cont Eq mx my) with (Pos.compare mx my).
    destruct sx, sy.
    + (* both negative *)
      f_equal. symmetry.
      destruct (Z.compare_spec ex ey) as [->|Hlt|Hgt].
      * rewrite Pos2Z.inj_compare.
        destruct (Z.compare_spec (Z.pos mx) (Z.pos my)) as [E|L|G].
        -- injection E as ->. apply Z.compare_refl.
        -- apply Z.compare_gt_iff. apply Z.mul_lt_mono_pos_r; lia.
        -- apply Z.compare_lt_iff. apply Z.mul_lt_mono_pos_r; lia.
      * apply Z.compare_gt_iff.
        pose proof (magnitude_lt mx ex my ey Hx Hy Hlt). lia.
      * apply Z.compare_lt_iff.
        pose proof (magnitude_lt my ey mx ex Hy Hx ltac:(lia)). lia.
    + f_equal. symmetry. apply Z.compare_lt_iff. nia.
    + f_equal. symmetry. apply Z.compare_gt_iff. nia.
    + f_equal. symmetry.
      destruct (Z.compare_spec ex ey) as [->|Hlt|Hgt].
      * rewrite Pos2Z.inj_compare.
        destruct (Z.compare_spec (Z.pos mx) (Z.pos my)) as [E|L|G].
        -- injection E as ->. apply Z.compare_refl.
        -- apply Z.compare_lt_iff. apply Z.mul_lt_mono_pos_r; lia.
        -- apply Z.compare_gt_iff. apply Z.mul_lt_mono_pos_r; lia.
      * apply Z.compare_lt_iff.
        pose proof (magnitude_lt mx ex my ey Hx Hy Hlt). lia.
      * apply Z.compare_gt_iff.
        pose proof (magnitude_lt my ey mx ex Hy Hx ltac:(lia)). lia.
Qed.

Lemma leb_scaled x y :
  binary64 x -> binary64 y -> isFinite x = true -> isFinite y = true ->
  (leb x y = true <-> scaled x <= scaled y).
Proof.
  intros Hx Hy Fx Fy. unfold leb, SFleb.
  rewrite (compare_scaled x y Hx Hy Fx Fy).
  destruct (Z.compare_spec (scaled x) (scaled y)); split; intros; try lia;
    try reflexivity; discriminate.
Qed.

(** *** Shifting a mantissa to the right *)

Lemma iter_pos_nat {A} (f : A -> A) p x :
  iter_pos f p x = Nat.iter (Pos.to_nat p) f x.
Proof.
  revert x. induction p as [p IH | p IH | ]; intros x; cbn [iter_pos].
  - rewrite !IH. rewrite Pos2Nat.inj_xI.
    replace (S (2 * Pos.to_nat p))%nat with (Pos.to_nat p + (Pos.to_nat p + 1))%nat by lia.
    rewrite !Nat.iter_add. reflexivity.
  - rewrite !IH. rewrite Pos2Nat.inj_xO.
    replace (2 * Pos.to_nat p)%nat with (Pos.to_nat p + Pos.to_nat p)%nat by lia.
    rewrite Nat.iter_add. reflexivity.
  - reflexivity.
Qed.


Lemma shr_1_spec mrs :
  0 <= shr_m mrs ->
  shr_m (shr_1 mrs) = shr_m mrs / 2 /\
  (inexact mrs = false -> shr_m mrs mod 2 = 0 -> inexact (shr_1 mrs) = false).
Proof.
  destruct mrs as [m r s]. unfold inexact. cbn [shr_m shr_r shr_s].
  intros Hm. destruct m as [|[p|p|]|p]; try lia; cbn [shr_1 shr_m shr_r shr_s].
  - split; [reflexivity|]. intros ->. reflexivity.
  - split.
    + rewrite Pos2Z.inj_xI. apply Z.div_unique with 1; lia.
    + intros _ H. rewrite Pos2Z.inj_xI in H.
      rewrite Z.add_comm, Z.mul_comm, Z.mod_add in H by lia. discriminate H.
  - split.
    + rewrite Pos2Z.inj_xO. apply Z.div_unique with 0; lia.
    + intros -> _. reflexivity.
  - split; [reflexivity|]. intros _ H. discriminate H.
Qed.

Lemma shr_iter_spec n mrs :
  0 <= shr_m mrs ->
  let mrs' := Nat.iter n shr_1 mrs in
  shr_m mrs' = shr_m mrs / 2 ^ Z.of_nat n /\
  (inexact mrs = false -> shr_m mrs mod 2 ^ Z.of_nat n = 0 ->
   inexact mrs' = false).
Proof.
  intros Hm. cbv zeta. induction n as [|n [IHm IHx]].
  - cbn. rewrite Z.div_1_r. split; [reflexivity | auto].
  - rewrite Nat.iter_succ.
    assert (Hpos : 0 < 2 ^ Z.of_nat n) by (apply pow2_pos; lia).
    assert (Hn : 0 <= shr_m (Nat.iter n shr_1 mrs))
      by (rewrite IHm; apply Z.div_pos; lia).
    destruct (shr_1_spec _ Hn) as [Hs Hx].
    rewrite Nat2Z.inj_succ, Z.pow_succ_r by lia.
    split.
    + rewrite Hs, IHm, Z.div_div by lia. f_equal. lia.
    + intros Hex Hdiv.
      rewrite (Z.mul_comm 2), Z.rem_mul_r in Hdiv by lia.
      assert (H0 : 0 <= shr_m mrs mod 2 ^ Z.of_nat n < 2 ^ Z.of_nat n)
        by (apply Z.mod_pos_bound; lia).
      assert (H1 : 0 <= (shr_m mrs / 2 ^ Z.of_nat n) mod 2 < 2)
        by (apply Z.mod_pos_bound; lia).
      apply Hx.
      * apply IHx; [exact Hex | nia].
      * rewrite IHm. nia.
Qed.

Lemma shr_spec m e n :
  0 <= m -> 0 < n ->
  let '(mrs, e') := shr (shr_record_of_loc m loc_Exact) e n in
  e' = e + n /\ shr_m mrs = m / 2 ^ n /\
  (m mod 2 ^ n = 0 -> inexact mrs = false).
Proof.
  intros Hm Hn. destruct n as [|p|p]; try lia. cbn [shr shr_record_of_loc].
  rewrite iter_pos_nat.
  pose proof (shr_iter_spec (Pos.to_nat p) {| shr_m := m; shr_r := false; shr_s := false |} Hm)
    as H.
  cbv zeta in H. cbn [shr_m] in H. rewrite positive_nat_Z in H.
  destruct H as [H1 H2]. split; [reflexivity|]. split; [exact H1|].
  intros Hdiv. apply H2; [reflexivity | exact Hdiv].
Qed.

Lemma round_spec mrs :
  let q := round_nearest_even (shr_m mrs) (loc_of_shr_record mrs) in
  (q = shr_m mrs \/ (q = shr_m mrs + 1 /\ inexact mrs = true)).
Proof.
  destruct mrs as [m [|] [|]]; cbn; auto.
  destruct (Z.even m); auto.
Qed.

(** *** Rounding an exact value *)

Lemma digits_of_range p k :
  2 ^ (k - 1) <= Z.pos p < 2 ^ k -> 0 < k -> Z.pos (digits2_pos p) = k.
Proof.
  intros [Hlo Hhi] Hk. pose proof (digits2_bounds p) as [Dlo Dhi].
  set (d := Z.pos (digits2_pos p)) in *.
  assert (0 < d) by (unfold d; lia).
  assert (d - 1 < k) by (apply pow2_lt_inv; lia).
  assert (k - 1 < d) by (apply pow2_lt_inv; lia).
  lia.
Qed.

(** A mantissa already at its canonical exponent is left as it is. *)
Lemma binary_round_aux_canonical s m e :
  Z.max (Z.pos (digits2_pos m) + e - 53) (-1074) = e ->
  binary_round_aux prec emax s (Z.pos m) e loc_Exact =
  if Z.leb e 971 then S754_finite s m e else S754_infinity s.
Proof.
  intros Hc. unfold binary_round_aux, shr_fexp. cbn [Zdigits2].
  rewrite fexp_value, Hc, Z.sub_diag. cbn [shr shr_record_of_loc shr_m].
  cbn [loc_of_shr_record round_nearest_even Zdigits2].
  rewrite fexp_value, Hc, Z.sub_diag. cbn [shr shr_record_of_loc shr_m].
  reflexivity.
Qed.


Lemma rounds_exact s m e :
  Z.max (Z.pos (digits2_pos m) + e - 53) (-1074) = e ->
  rounds (Z.pos m * 2 ^ (e + 1074)) s
         (binary_round_aux prec emax s (Z.pos m) e loc_Exact).
Proof.
  intros Hc. rewrite (binary_round_aux_canonical s m e Hc).
  destruct (Z.leb_spec e 971) as [Hle|Hgt]; [right | left; reflexivity].
  exists m, e. split; [reflexivity|]. split.
  - unfold bounded, canonical_mantissa. rewrite fexp_value, Hc, Z.eqb_refl.
    apply Z.leb_le in Hle. exact Hle.
  - exists 0, (Z.pos m * 2 ^ (e + 1074)). cbn [Z.pow]. lia.
Qed.

Lemma rounds_inexact s m e :
  -1074 <= e -> 53 < Z.pos (digits2_pos m) ->
  rounds (Z.pos m * 2 ^ (e + 1074)) s
         (binary_round_aux prec emax s (Z.pos m) e loc_Exact).
Proof.
  intros He Hd. pose proof (digits2_bounds m) as [Dlo Dhi].
  set (d := Z.pos (digits2_pos m)) in *.
  set (n := d - 53). set (et := e + n).
  unfold binary_round_aux, shr_fexp. cbn [Zdigits2]. fold d.
  rewrite fexp_value.
  replace (Z.max (d + e - 53) (-1074) - e) with n by (unfold n; lia).
  pose proof (shr_spec (Z.pos m) e n ltac:(lia) ltac:(unfold n; lia)) as Hshr.
  destruct (shr (shr_record_of_loc (Z.pos m) loc_Exact) e n) as [mrs e'].
  destruct Hshr as [-> [Hfloor Hexact]]. fold et.
  pose proof (round_spec mrs) as Hq. cbv zeta in Hq.
  set (q := round_nearest_even (shr_m mrs) (loc_of_shr_record mrs)) in *.
  assert (Hn : 0 < n) by (unfold n; lia).
  assert (Pn : 0 < 2 ^ n) by (apply pow2_pos; lia).
  assert (Hd1 : 2 ^ (d - 1) = 2 ^ 52 * 2 ^ n).
  { replace (d - 1) with (52 + n) by (unfold n; lia). apply pow2_add; lia. }
  assert (Hd2 : 2 ^ d = 2 ^ 53 * 2 ^ n).
  { replace d with (53 + n) at 1 by (unfold n; lia). apply pow2_add; lia. }
  set (f := Z.pos m / 2 ^ n) in *.
  pose proof (Z.div_mod (Z.pos m) (2 ^ n) ltac:(lia)) as Hdm. fold f in Hdm.
  pose proof (Z.mod_pos_bound (Z.pos m) (2 ^ n) Pn) as Hmod.
  set (r := Z.pos m mod 2 ^ n) in *.
  assert (Hf : 2 ^ 52 <= f < 2 ^ 53) by nia.
  assert (Hqr : q = f \/ (q = f + 1 /\ r <> 0)).
  { destruct Hq as [Hq | [Hq Hin]]; rewrite Hfloor in Hq; [now left|].
    right. split; [exact Hq|]. intros Hr0. rewrite (Hexact Hr0) in Hin.
    discriminate Hin. }
  assert (Pe : 0 < 2 ^ (e + 1074)) by (apply pow2_pos; lia).
  assert (Hj : 2 ^ (et + 1074) = 2 ^ n * 2 ^ (e + 1074)).
  { replace (et + 1074) with (n + (e + 1074)) by (unfold et; lia).
    apply pow2_add; lia. }
  assert (Hgrid : Z.pos m * 2 ^ (e + 1074) - 2 ^ (et + 1074)
                  < q * 2 ^ (et + 1074)
                  < Z.pos m * 2 ^ (e + 1074) + 2 ^ (et + 1074)).
  { rewrite Hj, Hdm. set (P := 2 ^ (e + 1074)) in *. set (G := 2 ^ n) in *.
    assert (HrP : 0 <= r * P < G * P)
      by (split; [apply Z.mul_nonneg_nonneg; lia
                 | apply Z.mul_lt_mono_pos_r; lia]).
    assert (Hr0 : r <> 0 -> 0 < r * P) by (intros; apply Z.mul_pos_pos; lia).
    replace ((G * f + r) * P) with (f * (G * P) + r * P) by ring.
    destruct Hqr as [E | [E Hr]]; rewrite E.
    - lia.
    - specialize (Hr0 Hr). replace ((f + 1) * (G * P)) with (f * (G * P) + G * P) by ring.
      lia. }
  assert (Hbig : 2 ^ 52 * 2 ^ (et + 1074) <= Z.pos m * 2 ^ (e + 1074)).
  { rewrite Hj, Hdm. set (P := 2 ^ (e + 1074)) in *. set (G := 2 ^ n) in *.
    assert (0 <= r * P) by (apply Z.mul_nonneg_nonneg; lia).
    assert (2 ^ 52 * (G * P) <= f * (G * P))
      by (apply Z.mul_le_mono_nonneg_r; [apply Z.mul_nonneg_nonneg|]; lia).
    replace ((G * f + r) * P) with (f * (G * P) + r * P) by ring. lia. }
  assert (Hqb : 2 ^ 52 <= q <= 2 ^ 53) by lia.
  destruct (Z.eq_dec q (2 ^ 53)) as [Hcarry | Hnc].
  - (* the mantissa reached 2^53: one more shift *)
    assert (Hc : q = Z.pos 9007199254740992) by (rewrite Hcarry; reflexivity).
    clear Hq Hcarry. clearbody q. subst q. cbn [Zdigits2].
    change (Z.pos (digits2_pos 9007199254740992)) with 54.
    rewrite fexp_value.
    replace (Z.max (54 + et - 53) (-1074) - et) with 1 by (unfold et; lia).
    cbn [shr iter_pos shr_record_of_loc shr_1 shr_m].
    change (emax - prec) with 971.
    destruct (Z.leb_spec (et + 1) 971) as [Hle|Hgt]; [right | left; reflexivity].
    exists 4503599627370496%positive, (et + 1). split; [reflexivity|]. split.
    + apply bounded_shape. cbn. lia.
    + exists (et + 1074), (Z.pos 9007199254740992).
      split; [unfold et; lia|]. split.
      * replace (et + 1 + 1074) with (1 + (et + 1074)) by lia.
        rewrite (pow2_add 1 (et + 1074)) by (unfold et; lia).
        change (2 ^ 1) with 2. lia.
      * split; [exact Hgrid|]. intros _. exact Hbig.
  - clear Hq. clearbody q. destruct q as [|qp|qp]; try lia.
    assert (Hdq : Z.pos (digits2_pos qp) = 53)
      by (apply digits_of_range; [change (53 - 1) with 52|]; lia).
    cbn [Zdigits2]. rewrite Hdq, fexp_value.
    replace (Z.max (53 + et - 53) (-1074) - et) with 0 by (unfold et; lia).
    cbn [shr shr_record_of_loc shr_m].
    change (emax - prec) with 971.
    destruct (Z.leb_spec et 971) as [Hle|Hgt]; [right | left; reflexivity].
    exists qp, et. split; [reflexivity|]. split.
    + apply bounded_shape. unfold et in *. lia.
    + exists (et + 1074), (Z.pos qp). split; [unfold et; lia|].
      split; [reflexivity|]. split; [exact Hgrid|]. intros _. exact Hbig.
Qed.

Lemma iter_xO_value m p : Z.pos (Pos.iter xO m p) = Z.pos m * 2 ^ Z.pos p.
Proof.
  induction p as [|p IH] using Pos.peano_ind.
  - cbn [Pos.iter]. rewrite Pos2Z.inj_xO. change (2 ^ 1) with 2. lia.
  - rewrite Pos.iter_succ, Pos2Z.inj_xO, IH, Pos2Z.inj_succ, Z.pow_succ_r by lia.
    lia.
Qed.

Lemma iter_xO_digits m p :
  Z.pos (digits2_pos (Pos.iter xO m p)) = Z.pos (digits2_pos m) + Z.pos p.
Proof.
  induction p as [|p IH] using Pos.peano_ind.
  - cbn [Pos.iter digits2_pos]. lia.
  - rewrite Pos.iter_succ. cbn [digits2_pos]. lia.
Qed.

(** [binary_round] on a mantissa at an exponent of at least -1074. *)
Lemma binary_round_rounds s m e :
  -1074 <= e ->
  rounds (Z.pos m * 2 ^ (e + 1074)) s (binary_round prec emax s m e).
Proof.
  intros He. unfold binary_round, shl_align. rewrite fexp_value.
  set (d := Z.pos (digits2_pos m)).
  set (et := Z.max (d + e - 53) (-1074)).
  destruct (et - e) as [|p|p] eqn:Hdiff.
  - apply rounds_exact. fold d. fold et. lia.
  - apply rounds_inexact; [exact He|]. fold d. unfold et in Hdiff. lia.
  - assert (Hv : Z.pos m * 2 ^ (e + 1074) =
                 Z.pos (Pos.iter xO m p) * 2 ^ (et + 1074)).
    { rewrite iter_xO_value.
      replace (e + 1074) with (Z.pos p + (et + 1074)) by lia.
      rewrite (pow2_add (Z.pos p) (et + 1074)) by (unfold et; lia). ring. }
    rewrite Hv. apply rounds_exact. rewrite iter_xO_digits. fold d.
    unfold et in *. lia.
Qed.

(** A rounded value stays on the same side of the numbers of the shape
    [m * 2^k] with [m < 2^53]. *)
Lemma rounds_above N0 s x m k :
  rounds N0 s x -> isFinite x = true ->
  0 <= m < 2 ^ 53 -> 0 <= k -> m * 2 ^ k <= N0 ->
  m * 2 ^ k <= Z.abs (scaled x).
Proof.
  intros [-> | [mx [ex [-> [Hb [j [q [Hj [Hv [Hgrid Hbig]]]]]]]]]] Hfin Hm Hk Hle;
    [discriminate Hfin|].
  assert (Habs : Z.abs (scaled (S754_finite s mx ex)) = q * 2 ^ j).
  { unfold scaled. rewrite <- Hv.
    apply bounded_shape in Hb as [He _].
    pose proof (pow2_pos (ex + 1074) ltac:(lia)).
    destruct s; [rewrite Z.mul_opp_l, Z.abs_opp|]; apply Z.abs_eq; nia. }
  rewrite Habs. assert (Pj : 0 < 2 ^ j) by (apply pow2_pos; lia).
  destruct (Z_le_gt_dec j k) as [Hjk | Hjk].
  - replace k with ((k - j) + j) in * by lia.
    rewrite (pow2_add (k - j) j) in * by lia.
    pose proof (pow2_pos (k - j) ltac:(lia)).
    set (c := m * 2 ^ (k - j)) in *.
    replace (m * (2 ^ (k - j) * 2 ^ j)) with (c * 2 ^ j) in * by (unfold c; ring).
    assert (c - 1 < q) by nia. nia.
  - specialize (Hbig ltac:(lia)).
    assert (m * 2 ^ k < 2 ^ 52 * 2 ^ j).
    { replace j with ((j - k - 1) + (1 + k)) by lia.
      rewrite (pow2_add (j - k - 1) (1 + k)), (pow2_add 1 k) by lia.
      change (2 ^ 1) with 2.
      pose proof (pow2_pos (j - k - 1) ltac:(lia)).
      pose proof (pow2_pos k Hk).
      change (2 ^ 53) with (2 * 2 ^ 52) in Hm.
      assert (m * 2 ^ k < 2 * 2 ^ 52 * 2 ^ k) by (apply Z.mul_lt_mono_pos_r; lia).
      assert (2 ^ 52 * (1 * (2 * 2 ^ k)) <= 2 ^ 52 * (2 ^ (j - k - 1) * (2 * 2 ^ k))).
      { apply Z.mul_le_mono_nonneg_l; [lia|].
        apply Z.mul_le_mono_nonneg_r; lia. }
      lia. }
    assert (2 ^ 52 - 1 < q) by nia. nia.
Qed.

Lemma rounds_below N0 s x m k :
  rounds N0 s x -> isFinite x = true ->
  0 <= m < 2 ^ 53 -> 0 <= k -> N0 <= m * 2 ^ k ->
  Z.abs (scaled x) <= m * 2 ^ k.
Proof.
  intros [-> | [mx [ex [-> [Hb [j [q [Hj [Hv [Hgrid Hbig]]]]]]]]]] Hfin Hm Hk Hle;
    [discriminate Hfin|].
  assert (Habs : Z.abs (scaled (S754_finite s mx ex)) = q * 2 ^ j).
  { unfold scaled. rewrite <- Hv.
    apply bounded_shape in Hb as [He _].
    pose proof (pow2_pos (ex + 1074) ltac:(lia)).
    destruct s; [rewrite Z.mul_opp_l, Z.abs_opp|]; apply Z.abs_eq; nia. }
  rewrite Habs. assert (Pj : 0 < 2 ^ j) by (apply pow2_pos; lia).
  destruct (Z_le_gt_dec j k) as [Hjk | Hjk].
  - replace k with ((k - j) + j) in * by lia.
    rewrite (pow2_add (k - j) j) in * by lia.
    pose proof (pow2_pos (k - j) ltac:(lia)).
    set (c := m * 2 ^ (k - j)) in *.
    replace (m * (2 ^ (k - j) * 2 ^ j)) with (c * 2 ^ j) in * by (unfold c; ring).
    assert (q < c + 1) by nia. nia.
  - specialize (Hbig ltac:(lia)). exfalso.
    assert (m * 2 ^ k < 2 ^ 52 * 2 ^ j); [|lia].
    replace j with ((j - k - 1) + (1 + k)) by lia.
    rewrite (pow2_add (j - k - 1) (1 + k)), (pow2_add 1 k) by lia.
    change (2 ^ 1) with 2.
    pose proof (pow2_pos (j - k - 1) ltac:(lia)).
    pose proof (pow2_pos k Hk).
    change (2 ^ 53) with (2 * 2 ^ 52) in Hm.
    assert (m * 2 ^ k < 2 * 2 ^ 52 * 2 ^ k) by (apply Z.mul_lt_mono_pos_r; lia).
    assert (2 ^ 52 * (1 * (2 * 2 ^ k)) <= 2 ^ 52 * (2 ^ (j - k - 1) * (2 * 2 ^ k))).
    { apply Z.mul_le_mono_nonneg_l; [lia|].
      apply Z.mul_le_mono_nonneg_r; lia. }
    lia.
Qed.

Lemma rounds_finite N0 s x :
  rounds N0 s x -> isFinite x = true ->
  binary64 x /\
  scaled x = (if s then - Z.abs (scaled x) else Z.abs (scaled x)).
Proof.
  intros [-> | [m [e [-> [Hb _]]]]] Hfin; [discriminate Hfin|].
  split; [exact Hb|]. unfold scaled.
  apply bounded_shape in Hb as [He _].
  pose proof (pow2_pos (e + 1074) ltac:(lia)).
  destruct s.
  - rewrite Z.mul_opp_l, Z.abs_opp, Z.abs_eq by nia. reflexivity.
  - rewrite Z.abs_eq by nia. reflexivity.
Qed.

Lemma shl_align_value m e ez :
  ez <= e -> -1074 <= ez ->
  Z.pos (fst (shl_align m e ez)) * 2 ^ (ez + 1074) = Z.pos m * 2 ^ (e + 1074).
Proof.
  intros Hle Hez. unfold shl_align.
  destruct (ez - e) as [|p|p] eqn:Hd; cbn [fst]; try lia.
  - replace e with ez by lia. reflexivity.
  - rewrite iter_xO_value.
    replace (e + 1074) with (Z.pos p + (ez + 1074)) by lia.
    rewrite (pow2_add (Z.pos p) (ez + 1074)) by lia. ring.
Qed.

(** The sum of two numbers, when it is finite, lies between twice the
    smaller and twice the larger. *)
Lemma add_between a b :
  binary64 a -> binary64 b -> isFinite a = true -> isFinite b = true ->
  scaled a <= scaled b -> isFinite (Num.add a b) = true ->
  binary64 (Num.add a b) /\
  2 * scaled a <= scaled (Num.add a b) <= 2 * scaled b.
Proof.
  unfold binary64, Num.add.
  destruct a as [sa|sa| |sa ma ea], b as [sb|sb| |sb mb eb];
    cbn [isFinite valid_binary]; intros Ha Hb Fa Fb Hle Hfin;
    try discriminate Fa; try discriminate Fb.
  - destruct sa, sb; cbn; split; (reflexivity || lia).
  - cbn [SFadd]. split; [exact Hb|]. cbn [scaled] in Hle |- *. lia.
  - cbn [SFadd]. split; [exact Ha|]. cbn [scaled] in Hle |- *. lia.
  - pose proof (proj1 (bounded_shape ma ea) Ha) as [Hea [Hma _]].
    pose proof (proj1 (bounded_shape mb eb) Hb) as [Heb [Hmb _]].
    cbn [SFadd] in Hfin |- *.
    set (ez := Z.min ea eb) in *.
    assert (Hez : -1074 <= ez) by (unfold ez; lia).
    pose proof (shl_align_value ma ea ez ltac:(unfold ez; lia) Hez) as Va.
    pose proof (shl_align_value mb eb ez ltac:(unfold ez; lia) Hez) as Vb.
    set (ma' := fst (shl_align ma ea ez)) in *.
    set (mb' := fst (shl_align mb eb ez)) in *.
    set (N := cond_Zopp sa (Z.pos ma') + cond_Zopp sb (Z.pos mb')) in *.
    set (A := scaled (S754_finite sa ma ea)) in *.
    set (B := scaled (S754_finite sb mb eb)) in *.
    assert (Pz : 0 < 2 ^ (ez + 1074)) by (apply pow2_pos; lia).
    assert (HN : N * 2 ^ (ez + 1074) = A + B).
    { unfold N, A, B, scaled, cond_Zopp. destruct sa, sb; lia. }
    assert (HA : Z.abs A = Z.pos ma * 2 ^ (ea + 1074)).
    { unfold A, scaled.
      pose proof (pow2_pos (ea + 1074) ltac:(lia)).
      destruct sa; [rewrite Z.mul_opp_l, Z.abs_opp|]; apply Z.abs_eq; nia. }
    assert (HB : Z.abs B = Z.pos mb * 2 ^ (eb + 1074)).
    { unfold B, scaled.
      pose proof (pow2_pos (eb + 1074) ltac:(lia)).
      destruct sb; [rewrite Z.mul_opp_l, Z.abs_opp|]; apply Z.abs_eq; nia. }
    assert (H2a : 2 * Z.abs A = Z.pos ma * 2 ^ (ea + 1075)).
    { rewrite HA. replace (ea + 1075) with (1 + (ea + 1074)) by lia.
      rewrite (pow2_add 1 (ea + 1074)) by lia. change (2 ^ 1) with 2. ring. }
    assert (H2b : 2 * Z.abs B = Z.pos mb * 2 ^ (eb + 1075)).
    { rewrite HB. replace (eb + 1075) with (1 + (eb + 1074)) by lia.
      rewrite (pow2_add 1 (eb + 1074)) by lia. change (2 ^ 1) with 2. ring. }
    clearbody A B N. unfold binary_normalize in *.
    destruct N as [|n|n].
    + split; [reflexivity|]. cbn [scaled]. lia.
    + pose proof (binary_round_rounds false n ez Hez) as Hr.
      set (S := binary_round prec emax false n ez) in *.
      destruct (rounds_finite _ _ _ Hr Hfin) as [Hv Hs].
      split; [exact Hv|].
      assert (HN0 : Z.pos n * 2 ^ (ez + 1074) = A + B) by exact HN.
      rewrite HN0 in Hr.
      assert (0 < A + B) by (rewrite <- HN0; nia).
      split.
      * destruct (Z_le_gt_dec A 0) as [Hneg|Hpos]; [lia|].
        pose proof (rounds_above _ _ _ (Z.pos ma) (ea + 1075) Hr Hfin
                      ltac:(lia) ltac:(lia)) as Hlow.
        rewrite <- H2a in Hlow. specialize (Hlow ltac:(lia)). lia.
      * pose proof (rounds_below _ _ _ (Z.pos mb) (eb + 1075) Hr Hfin
                      ltac:(lia) ltac:(lia)) as Hup.
        rewrite <- H2b in Hup. specialize (Hup ltac:(lia)). lia.
    + pose proof (binary_round_rounds true n ez Hez) as Hr.
      set (S := binary_round prec emax true n ez) in *.
      destruct (rounds_finite _ _ _ Hr Hfin) as [Hv Hs].
      split; [exact Hv|].
      assert (HN0 : Z.pos n * 2 ^ (ez + 1074) = - (A + B)).
      { rewrite <- HN. rewrite <- Pos2Z.opp_pos. ring. }
      rewrite HN0 in Hr.
      assert (0 < - (A + B)) by (rewrite <- HN0; nia).
      split.
      * pose proof (rounds_below _ _ _ (Z.pos ma) (ea + 1075) Hr Hfin
                      ltac:(lia) ltac:(lia)) as Hup.
        rewrite <- H2a in Hup. specialize (Hup ltac:(lia)). lia.
      * destruct (Z_le_gt_dec 0 B) as [Hpos|Hneg]; [lia|].
        pose proof (rounds_above _ _ _ (Z.pos mb) (eb + 1075) Hr Hfin
                      ltac:(lia) ltac:(lia)) as Hlow.
        rewrite <- H2b in Hlow. specialize (Hlow ltac:(lia)). lia.
Qed.

(** *** Halving *)

Lemma two_value : two = S754_finite false 4503599627370496 (-51).
Proof. vm_compute. reflexivity. Qed.

Lemma Zdigits2_le q k : 0 <= q < 2 ^ k -> 0 <= k -> Zdigits2 q <= k.
Proof.
  intros [Hq Hk] Hk0. destruct q as [|p|p]; cbn [Zdigits2]; try lia.
  pose proof (digits2_bounds p) as [Dlo _].
  assert (Z.pos (digits2_pos p) - 1 < k); [|lia].
  apply pow2_lt_inv; lia.
Qed.

(** Rounding at the least exponent: the mantissa goes up by at most one,
    and only from a value that is not exact. *)
Lemma binary_round_aux_least s q l :
  0 <= q < 2 ^ 52 ->
  let m1 := round_nearest_even q l in
  binary_round_aux prec emax s q (-1074) l =
  match m1 with
  | Z.pos p => S754_finite s p (-1074)
  | _ => S754_zero s
  end /\
  0 <= m1 <= 2 ^ 52 /\ (m1 = q \/ (m1 = q + 1 /\ l <> loc_Exact)).
Proof.
  intros Hq m1.
  assert (Hm1 : m1 = q \/ (m1 = q + 1 /\ l <> loc_Exact)).
  { unfold m1. destruct l as [|[| |]]; cbn; auto; try (right; split; [reflexivity | discriminate]).
    destruct (Z.even q); auto. right. split; [reflexivity | discriminate]. }
  assert (Hb : 0 <= m1 <= 2 ^ 52) by lia.
  split; [|split; assumption].
  unfold binary_round_aux, shr_fexp. rewrite fexp_value.
  pose proof (Zdigits2_le q 53 ltac:(change (2 ^ 53) with (2 * 2 ^ 52); lia) ltac:(lia)).
  replace (Z.max (Zdigits2 q + -1074 - 53) (-1074) - -1074) with 0 by lia.
  cbn [shr].
  assert (Hloc : loc_of_shr_record (shr_record_of_loc q l) = l)
    by (destruct l as [|[| |]]; reflexivity).
  assert (Hsm : shr_m (shr_record_of_loc q l) = q)
    by (destruct l as [|[| |]]; reflexivity).
  rewrite Hloc, Hsm. fold m1. rewrite fexp_value.
  pose proof (Zdigits2_le m1 53 ltac:(change (2 ^ 53) with (2 * 2 ^ 52); lia) ltac:(lia)).
  replace (Z.max (Zdigits2 m1 + -1074 - 53) (-1074) - -1074) with 0 by lia.
  cbn [shr shr_record_of_loc shr_m].
  destruct m1 as [|p|p]; try reflexivity. lia.
Qed.

Lemma div_eucl_exact a b : 0 < b -> Z.div_eucl (a * b) b = (a, 0).
Proof.
  intros Hb.
  assert (E : Z.div_eucl (a * b) b = (a * b / b, (a * b) mod b))
    by (unfold Z.div, Z.modulo; destruct (Z.div_eucl (a * b) b); reflexivity).
  rewrite E, Z.div_mul, Z.mod_mul by lia. reflexivity.
Qed.

(** Half of a number of binary64: exact above the least exponent, and
    rounded to a neighbour at the least exponent. *)
Lemma half_spec x :
  binary64 x -> isFinite x = true ->
  let c := Num.div x two in
  binary64 c /\ isFinite c = true /\
  (2 * scaled c = scaled x \/
   (Z.odd (scaled x) = true /\
    (2 * scaled c = scaled x - 1 \/ 2 * scaled c = scaled x + 1))).
Proof.
  unfold binary64, Num.div. rewrite two_value.
  destruct x as [s|s| |s m e]; cbn [isFinite valid_binary]; intros Hx Fx;
    try discriminate Fx.
  - cbn. repeat split. left. reflexivity.
  - pose proof (proj1 (bounded_shape m e) Hx) as [He [Hm Hn]].
    cbv zeta. cbn [SFdiv]. unfold SFdiv_core_binary. cbn [Zdigits2].
    change (Z.pos (digits2_pos 4503599627370496)) with 53.
    rewrite fexp_value. rewrite xorb_false_r.
    destruct (Z.eq_dec e (-1074)) as [->|Hne].
    + (* at the least exponent *)
      pose proof (Zdigits2_le (Z.pos m) 53 ltac:(lia) ltac:(lia)) as Hd.
      cbn [Zdigits2] in Hd.
      replace (Z.min (Z.max (Z.pos (digits2_pos m) + -1074 - (53 + -51) - 53) (-1074))
                     (-1074 - -51)) with (-1074) by lia.
      replace (-1074 - -51 - -1074) with 51 by lia.
      rewrite Z.shiftl_mul_pow2 by lia.
      pose proof (Z.div_eucl_eq (Z.pos m * 2 ^ 51) 4503599627370496 ltac:(lia)) as E.
      pose proof (Z.mod_pos_bound (Z.pos m * 2 ^ 51) 4503599627370496 ltac:(lia)) as M.
      unfold Z.modulo in M.
      destruct (Z.div_eucl (Z.pos m * 2 ^ 51) 4503599627370496) as [q r].
      change 4503599627370496 with (2 * 2 ^ 51) in E, M.
      assert (Hr : (r = 0 /\ Z.pos m = 2 * q) \/
                   (r = 2 ^ 51 /\ Z.pos m = 2 * q + 1)).
      { assert (Hr' : r = (Z.pos m - 2 * q) * 2 ^ 51) by lia.
        assert (0 <= Z.pos m - 2 * q < 2) by nia.
        assert (Z.pos m - 2 * q = 0 \/ Z.pos m - 2 * q = 1) as [Z0|Z1] by lia.
        - left. rewrite Z0 in Hr'. lia.
        - right. rewrite Z1 in Hr'. lia. }
      assert (Hq : 0 <= q < 2 ^ 52)
        by (change (2 ^ 53) with (2 * 2 ^ 52) in Hm; lia).
      destruct (binary_round_aux_least s q (new_location (2 * 2 ^ 51) r) Hq)
        as [Hres [Hb Hm1]].
      change 4503599627370496 with (2 * 2 ^ 51).
      rewrite Hres.
      set (m1 := round_nearest_even q (new_location (2 * 2 ^ 51) r)) in *.
      assert (Hexact : r = 0 -> new_location (2 * 2 ^ 51) r = loc_Exact)
        by (intros ->; reflexivity).
      assert (Hval : scaled (S754_finite s m (-1074)) = if s then - Z.pos m else Z.pos m)
        by (unfold scaled; change (2 ^ (-1074 + 1074)) with 1; lia).
      rewrite Hval.
      assert (Hc : forall p, m1 = Z.pos p ->
                scaled (S754_finite s p (-1074)) = if s then - m1 else m1).
      { intros p ->. unfold scaled. change (2 ^ (-1074 + 1074)) with 1.
        destruct s; lia. }
      assert (Hodd : Z.pos m = 2 * q + 1 ->
                Z.odd (if s then - Z.pos m else Z.pos m) = true).
      { intros ->. destruct s; [rewrite Z.odd_opp|];
          rewrite Z.add_comm, Z.odd_add_mul_2; reflexivity. }
      destruct m1 as [|p|p] eqn:Em1; try lia.
      * split; [reflexivity|]. split; [reflexivity|]. cbn [scaled].
        destruct Hr as [[Hr0 Hmq] | [Hr1 Hmq]].
        -- left. destruct Hm1 as [Hm1 | [Hm1 Hl]]; [|lia]. destruct s; lia.
        -- right. split; [apply Hodd, Hmq|].
           destruct Hm1 as [Hm1 | [Hm1 Hl]]; destruct s; lia.
      * split; [apply bounded_shape; change (2 ^ 53) with (2 * 2 ^ 52); lia|].
        split; [reflexivity|]. rewrite (Hc p eq_refl).
        destruct Hr as [[Hr0 Hmq] | [Hr1 Hmq]].
        -- left. destruct Hm1 as [Hm1 | [Hm1 Hl]].
           ++ destruct s; lia.
           ++ contradiction Hl. apply Hexact, Hr0.
        -- right. split; [apply Hodd, Hmq|].
           destruct Hm1 as [Hm1 | [Hm1 Hl]]; destruct s; lia.
    + (* above the least exponent: the exponent goes down by one *)
      specialize (Hn ltac:(lia)).
      assert (Hd : Z.pos (digits2_pos m) = 53)
        by (apply digits_of_range; [change (53 - 1) with 52|]; lia).
      rewrite Hd.
      assert (Hres : forall q e' l,
                (q, e', l) = (Z.pos m~0, e - 2, loc_Exact) \/
                (q, e', l) = (Z.pos m, e - 1, loc_Exact) ->
                binary_round_aux prec emax s q e' l = S754_finite s m (e - 1)).
      { intros q e' l [[= -> -> ->] | [= -> -> ->]].
        - unfold binary_round_aux, shr_fexp. cbn [Zdigits2].
          change (digits2_pos m~0) with (Pos.succ (digits2_pos m)).
          rewrite (Pos2Z.inj_succ (digits2_pos m)), Hd, fexp_value.
          replace (Z.max (Z.succ 53 + (e - 2) - 53) (-1074) - (e - 2)) with 1 by lia.
          cbv beta iota zeta delta
            [shr iter_pos shr_record_of_loc shr_1 shr_m shr_r shr_s orb
             loc_of_shr_record round_nearest_even Zdigits2].
          rewrite Hd, fexp_value.
          replace (Z.max (53 + (e - 2 + 1) - 53) (-1074) - (e - 2 + 1)) with 0 by lia.
          cbn [shr shr_record_of_loc shr_m]. change (emax - prec) with 971.
          replace (e - 2 + 1) with (e - 1) by lia.
          destruct (Z.leb_spec (e - 1) 971); [reflexivity | lia].
        - rewrite binary_round_aux_canonical by (rewrite Hd; lia).
          destruct (Z.leb_spec (e - 1) 971); [reflexivity | lia]. }
      assert (Hcore :
        (let e' := Z.min (Z.max (53 + e - (53 + -51) - 53) (-1074)) (e - -51) in
         let sh := e - -51 - e' in
         let m' := match sh with
                   | 0 => Z.pos m
                   | Z.pos _ => Z.shiftl (Z.pos m) sh
                   | Z.neg _ => 0
                   end in
         let '(q, r) := Z.div_eucl m' 4503599627370496 in
         (q, e', new_location 4503599627370496 r)) =
        (Z.pos m~0, e - 2, loc_Exact) \/
        (let e' := Z.min (Z.max (53 + e - (53 + -51) - 53) (-1074)) (e - -51) in
         let sh := e - -51 - e' in
         let m' := match sh with
                   | 0 => Z.pos m
                   | Z.pos _ => Z.shiftl (Z.pos m) sh
                   | Z.neg _ => 0
                   end in
         let '(q, r) := Z.div_eucl m' 4503599627370496 in
         (q, e', new_location 4503599627370496 r)) =
        (Z.pos m, e - 1, loc_Exact)).
      { cbv zeta. destruct (Z_le_gt_dec (-1074) (e - 2)) as [Hdeep | Hedge].
        - left.
          replace (Z.min (Z.max (53 + e - (53 + -51) - 53) (-1074)) (e - -51))
            with (e - 2) by lia.
          replace (e - -51 - (e - 2)) with 53 by lia.
          rewrite Z.shiftl_mul_pow2 by lia.
          replace (Z.pos m * 2 ^ 53) with (Z.pos m~0 * 4503599627370496)
            by (rewrite (Pos2Z.inj_xO m); change (2 ^ 53) with (2 * 4503599627370496); ring).
          rewrite div_eucl_exact by lia. reflexivity.
        - right. assert (e = -1073) by lia. subst e.
          change (Z.min (Z.max (53 + -1073 - (53 + -51) - 53) (-1074)) (-1073 - -51))
            with (-1074).
          change (-1073 - -51 - -1074) with 52.
          rewrite Z.shiftl_mul_pow2 by lia.
          change (2 ^ 52) with 4503599627370496.
          rewrite div_eucl_exact by lia. reflexivity. }
      cbv zeta in Hcore.
      destruct Hcore as [Hcore | Hcore]; rewrite Hcore; cbv beta iota;
        rewrite Hres by (first [left; reflexivity | right; reflexivity]);
        (split; [apply bounded_shape; lia|]); (split; [reflexivity|]);
        left; unfold scaled;
        replace (e + 1074) with (1 + (e - 1 + 1074)) by lia;
        rewrite (pow2_add 1 (e - 1 + 1074)) by lia; change (2 ^ 1) with 2;
        destruct s; ring.
Qed.

Lemma add_finite_inv a b :
  isFinite (Num.add a b) = true -> isFinite a = true /\ isFinite b = true.
Proof.
  unfold Num.add.
  destruct a as [sa|[|]| |sa ma ea], b as [sb|[|]| |sb mb eb];
    cbn [SFadd isFinite]; intros H; try discriminate H; split; reflexivity.
Qed.

(** The midpoint of two numbers of binary64, computed as [(a + b) / 2],
    lies between them whenever the sum is finite. *)
Lemma midpoint_between a b :
  binary64 a -> binary64 b -> leb a b = true ->
  isFinite (Num.add a b) = true ->
  leb a (Num.div (Num.add a b) two) = true /\ leb (Num.div (Num.add a b) two) b = true.
Proof.
  intros Ha Hb Hle Hfin.
  destruct (add_finite_inv a b Hfin) as [Fa Fb].
  apply (leb_scaled a b Ha Hb Fa Fb) in Hle.
  destruct (add_between a b Ha Hb Fa Fb Hle Hfin) as [Hs [Hlo Hhi]].
  destruct (half_spec (Num.add a b) Hs Hfin) as [Hc [Fc Hhalf]].
  cbv zeta in Hc, Fc, Hhalf.
  set (c := Num.div (Num.add a b) two) in *.
  assert (Hbetween : scaled a <= scaled c <= scaled b).
  { destruct Hhalf as [E | [Hodd E]]; [lia|].
    apply Z.odd_spec in Hodd as [k Hk]. lia. }
  split; apply leb_scaled; try assumption; lia.
Qed.

(** C2, as stated, fails in binary64: for the single point [hugePoint],
    whose latitude the parser reads from "1.7e308", the sum [min + max]
    overflows and the center is +Infinity, above the greatest latitude. *)
Lemma center_within_bounds_counterexample :
  ~ (forall (pts : list LatLng) (r : Region) (mn mx : number),
       boundingRegion pts = Some r ->
       isLeast mn (map latitude pts) -> isGreatest mx (map latitude pts) ->
       leb mn (r_latitude r) = true /\ leb (r_latitude r) mx = true).
Proof.
  intros H.
  assert (Hself : forall y, In y (map latitude [hugePoint]) -> y = latitude hugePoint)
    by (intros y [<-|[]]; reflexivity).
  destruct (H [hugePoint] _ (latitude hugePoint) (latitude hugePoint) eq_refl)
    as [_ Hle].
  - split; [now left|]. intros y Hy. rewrite (Hself y Hy). reflexivity.
  - split; [now left|]. intros y Hy. rewrite (Hself y Hy). reflexivity.
  - vm_compute in Hle. discriminate Hle.
Qed.

(** C2 (amended): [boundingRegion] returns nothing for the empty list; for
    a non-empty list it returns a region whose center on each axis is the
    binary64 value of [(min + max) / 2] and whose span on each axis is
    [Math.max(0.01, (max - min) * 1.4)], computed in binary64, where, when
    no coordinate is NaN, [min] and [max] are a least and a greatest value
    of that axis; with finite coordinates each span is at least 0.01.  The
    center of an axis lies within [min, max] whenever [min + max] is
    finite, the coordinates being numbers of binary64; it does not when
    [min + max] overflows. *)
Theorem boundingRegion_spec :
  boundingRegion [] = None /\
  forall p ps, exists r mnLat mxLat mnLon mxLon,
    boundingRegion (p :: ps) = Some r /\
    r_latitude r = Num.div (Num.add mnLat mxLat) two /\
    r_longitude r = Num.div (Num.add mnLon mxLon) two /\
    latitudeDelta r = Math_max [minimumSpan; Num.mul (Num.sub mxLat mnLat) paddingFactor] /\
    longitudeDelta r = Math_max [minimumSpan; Num.mul (Num.sub mxLon mnLon) paddingFactor] /\
    (Forall notNaNPoint (p :: ps) ->
     isLeast mnLat (map latitude (p :: ps)) /\
     isGreatest mxLat (map latitude (p :: ps)) /\
     isLeast mnLon (map longitude (p :: ps)) /\
     isGreatest mxLon (map longitude (p :: ps))) /\
    (Forall finitePoint (p :: ps) ->
     leb minimumSpan (latitudeDelta r) = true /\
     leb minimumSpan (longitudeDelta r) = true) /\
    (Forall binary64Point (p :: ps) ->
     (isFinite (Num.add mnLat mxLat) = true ->
      leb mnLat (r_latitude r) = true /\ leb (r_latitude r) mxLat = true) /\
     (isFinite (Num.add mnLon mxLon) = true ->
      leb mnLon (r_longitude r) = true /\ leb (r_longitude r) mxLon = true)).
Proof.
  split; [reflexivity|]. intros p ps.
  unfold boundingRegion. rewrite scan_components. cbn [minLat maxLat minLon maxLon].
  do 5 eexists. split; [reflexivity|]. cbn [r_latitude r_longitude latitudeDelta longitudeDelta].
  do 4 (split; [reflexivity|]).
  assert (Hbounds : Forall notNaNPoint (p :: ps) ->
     isLeast (fold_left min2 (map latitude (p :: ps)) (latitude p))
             (map latitude (p :: ps)) /\
     isGreatest (fold_left max2 (map latitude (p :: ps)) (latitude p))
                (map latitude (p :: ps)) /\
     isLeast (fold_left min2 (map longitude (p :: ps)) (longitude p))
             (map longitude (p :: ps)) /\
     isGreatest (fold_left max2 (map longitude (p :: ps)) (longitude p))
                (map longitude (p :: ps))).
  { intros Hpts.
    assert (Hlat : Forall notNaN (map latitude (p :: ps)))
      by (apply Forall_map; eapply Forall_impl; [|exact Hpts]; now intros q [Hq _]).
    assert (Hlon : Forall notNaN (map longitude (p :: ps)))
      by (apply Forall_map; eapply Forall_impl; [|exact Hpts]; now intros q [_ Hq]).
    assert (Hp : notNaN (latitude p) /\ notNaN (longitude p))
      by (inversion Hpts as [|? ? Hq _]; exact Hq).
    destruct Hp as [Hplat Hplon].
    split; [|split; [|split]].
    - apply isLeast_drop_head, (fold_min2_least (map latitude (p :: ps))); assumption.
    - apply isGreatest_drop_head, (fold_max2_greatest (map latitude (p :: ps))); assumption.
    - apply isLeast_drop_head, (fold_min2_least (map longitude (p :: ps))); assumption.
    - apply isGreatest_drop_head, (fold_max2_greatest (map longitude (p :: ps))); assumption. }
  split; [exact Hbounds|]. split.
  - intros Hfin.
    assert (Hnn : Forall notNaNPoint (p :: ps))
      by (eapply Forall_impl; [|exact Hfin];
          intros q [Hq1 Hq2]; split; now apply finite_notNaN).
    destruct (Hbounds Hnn) as [[I1 _] [[I2 _] [[I3 _] [I4 _]]]].
    assert (Flat : Forall (fun q => isFinite (latitude q) = true) (p :: ps))
      by (eapply Forall_impl; [|exact Hfin]; now intros q [Hq _]).
    assert (Flon : Forall (fun q => isFinite (longitude q) = true) (p :: ps))
      by (eapply Forall_impl; [|exact Hfin]; now intros q [_ Hq]).
    split; apply span_at_least_minimum;
      first [ exact (Forall_In_map (fun x => isFinite x = true) latitude _ _ Flat I1)
            | exact (Forall_In_map (fun x => isFinite x = true) latitude _ _ Flat I2)
            | exact (Forall_In_map (fun x => isFinite x = true) longitude _ _ Flon I3)
            | exact (Forall_In_map (fun x => isFinite x = true) longitude _ _ Flon I4) ].
  - intros Hb64.
    assert (Haxis : forall (f : LatLng -> number),
              Forall (fun q => binary64 (f q)) (p :: ps) ->
              let mn := fold_left min2 (map f (p :: ps)) (f p) in
              let mx := fold_left max2 (map f (p :: ps)) (f p) in
              isFinite (Num.add mn mx) = true ->
              leb mn (Num.div (Num.add mn mx) two) = true /\
              leb (Num.div (Num.add mn mx) two) mx = true).
    { intros f Hb mn mx Hsum.
      destruct (finite_sum_notNaN _ _ Hsum) as [Hp Hall].
      destruct (fold_min2_least (map f (p :: ps)) (f p) Hp Hall) as [_ Hmin].
      destruct (fold_max2_greatest (map f (p :: ps)) (f p) Hp Hall) as [_ Hmax].
      apply isLeast_drop_head in Hmin. apply isGreatest_drop_head in Hmax.
      fold mn in Hmin. fold mx in Hmax.
      destruct Hmin as [Imn Lmn]. destruct Hmax as [Imx _].
      apply midpoint_between.
      - exact (Forall_In_map binary64 f _ _ Hb Imn).
      - exact (Forall_In_map binary64 f _ _ Hb Imx).
      - exact (Lmn _ Imx).
      - exact Hsum. }
    split.
    + apply (Haxis latitude).
      eapply Forall_impl; [|exact Hb64]. now intros q [Hq _].
    + apply (Haxis longitude).
      eapply Forall_impl; [|exact Hb64]. now intros q [_ Hq].
Qed.

Lemma boundingRegion_spec_witness :
  exists r mn mx,
    boundingRegion [coords (pt "47.5" "8.25"); coords (pt "47.75" "8.75")]
      = Some r /\
    isLeast mn [StringToNumber "47.5"; StringToNumber "47.75"] /\
    isGreatest mx [StringToNumber "47.5"; StringToNumber "47.75"] /\
    r_latitude r = Num.div (Num.add mn mx) two /\
    latitudeDelta r = Math_max [minimumSpan; Num.mul (Num.sub mx mn) paddingFactor] /\
    leb mn (r_latitude r) = true /\ leb (r_latitude r) mx = true.
Proof.
  destruct boundingRegion_spec as [_ Hsome].
  destruct (Hsome (coords (pt "47.5" "8.25")) [coords (pt "47.75" "8.75")])
    as [r [mn [mx [mnLon [mxLon [Hr [Hc [_ [Hs [_ [Hbounds [_ Hin]]]]]]]]]]]].
  exists r, mn, mx.
  assert (Hpts : Forall notNaNPoint
            [coords (pt "47.5" "8.25"); coords (pt "47.75" "8.75")])
    by (repeat constructor).
  assert (Hb64 : Forall binary64Point
            [coords (pt "47.5" "8.25"); coords (pt "47.75" "8.75")])
    by (repeat constructor; vm_compute; reflexivity).
  destruct (Hbounds Hpts) as [[Imn Lmn] [[Imx Gmx] _]].
  destruct (Hin Hb64) as [Hlat _].
  assert (Hsum : isFinite (Num.add mn mx) = true).
  { assert (Hmn : mn = StringToNumber "47.5" \/ mn = StringToNumber "47.75")
      by (destruct Imn as [<-|[<-|[]]]; auto).
    assert (Hmx : mx = StringToNumber "47.5" \/ mx = StringToNumber "47.75")
      by (destruct Imx as [<-|[<-|[]]]; auto).
    destruct Hmn as [-> | ->], Hmx as [-> | ->]; vm_compute; reflexivity. }
  split; [exact Hr|]. split; [split; assumption|]. split; [split; assumption|].
  split; [exact Hc|]. split; [exact Hs|]. exact (Hlat Hsum).
Defined.

(** * Further properties of the code *)

(** ** The parser: what reaches the result *)

Lemma validPt_finite p : validPt p = true -> finitePoint (coords p).
Proof.
  unfold validPt, finitePoint. cbn. intros H.
  now apply andb_true_iff in H.
Qed.

Lemma valid_coords_finite pts : Forall finitePoint (map coords (filter validPt pts)).
Proof.
  apply Forall_forall. intros q Hq.
  apply in_map_iff in Hq as [p [<- Hp]]. apply filter_In in Hp as [_ Hv].
  now apply validPt_finite.
Qed.

Lemma valid_coords_length pts :
  (List.length (map coords (filter validPt pts)) <= List.length pts)%nat.
Proof. rewrite length_map. apply filter_length_le. Qed.

(** X1: every point the parser returns has finite coordinates (neither NaN
    nor an infinity), and the result comes from one tier: either it is not
    empty and is the valid points of the track nodes, with no more points
    than there are track nodes, or no track node is valid and it is the
    valid points of the route nodes, with no more points than there are
    route nodes.  The nodes are those of the document: in a document
    with one track of one segment, and with one route, the nodes listed
    there. *)
Theorem parsed_points_are_finite (doc : JsVal) (r : ParsedGpx) :
  parseGpxDoc doc = Normal r ->
  let trkpts := trkptsOf (optGet doc "gpx") in
  let rtepts := rteptsOf (optGet doc "gpx") in
  Forall finitePoint (points r) /\
  ((points r <> [] /\
    points r = map coords (filter validPt trkpts) /\
    (List.length (points r) <= List.length trkpts)%nat) \/
   (filter validPt trkpts = [] /\
    points r = map coords (filter validPt rtepts) /\
    (List.length (points r) <= List.length rtepts)%nat)) /\
  (forall pts, hasTrackPoints (optGet doc "gpx") pts -> trkpts = pts) /\
  (forall pts, hasRoutePoints (optGet doc "gpx") pts -> rtepts = pts).
Proof.
  intros Hr trkpts rtepts.
  cut (Forall finitePoint (points r) /\
       ((points r <> [] /\
         points r = map coords (filter validPt trkpts) /\
         (List.length (points r) <= List.length trkpts)%nat) \/
        (filter validPt trkpts = [] /\
         points r = map coords (filter validPt rtepts) /\
         (List.length (points r) <= List.length rtepts)%nat))).
  { intros [H1 H2]. split; [exact H1|]. split; [exact H2|].
    split; [apply trkptsOf_shape | apply rteptsOf_shape]. }
  pose proof (parseGpxDoc_spec doc) as Hspec. cbv zeta in Hspec.
  rewrite Hr in Hspec.
  destruct (consultedCoercible (optGet doc "gpx")); [|discriminate Hspec].
  injection Hspec as ->. cbn [points]. unfold spec_points.
  fold trkpts rtepts.
  destruct (filter validPt trkpts) as [|q kept] eqn:Hk.
  - split; [apply valid_coords_finite|]. right.
    split; [reflexivity|]. split; [reflexivity|]. apply valid_coords_length.
  - rewrite <- Hk. split; [apply valid_coords_finite|]. left.
    split; [rewrite Hk; discriminate|]. split; [reflexivity|].
    apply valid_coords_length.
Qed.

Lemma parsed_points_are_finite_witness :
  exists r, parseGpxDoc docTrackAndRoute = Normal r /\
    Forall finitePoint (points r) /\
    points r = [coords (pt "47.5" "8.25"); coords (pt "47.75" "8.75")].
Proof.
  assert (Hr : exists r, parseGpxDoc docTrackAndRoute = Normal r)
    by (eexists; vm_compute; reflexivity).
  destruct Hr as [r Hr]. exists r. split; [exact Hr|].
  destruct (parsed_points_are_finite docTrackAndRoute r Hr) as [Hfin [Htier _]].
  split; [exact Hfin|].
  destruct Htier as [[_ [Hpts _]] | [Hnone _]].
  - rewrite Hpts. vm_compute. reflexivity.
  - vm_compute in Hnone. discriminate Hnone.
Defined.

(** X2: only the first track, its first segment and the first route are
    read: with several [trk] (or [trkseg], or [rte]) nodes, the ones after
    the first do not influence the points. *)
Theorem only_first_track_segment_route :
  (forall gpx gpx' t rest rest',
     optGet gpx "trk" = VArray (t :: rest) ->
     optGet gpx' "trk" = VArray (t :: rest') ->
     pointsFromTrk gpx = pointsFromTrk gpx') /\
  (forall gpx gpx' s rest rest',
     optGet (first (asArray (optGet gpx "trk"))) "trkseg" = VArray (s :: rest) ->
     optGet (first (asArray (optGet gpx' "trk"))) "trkseg" = VArray (s :: rest') ->
     pointsFromTrk gpx = pointsFromTrk gpx') /\
  (forall gpx gpx' r rest rest',
     optGet gpx "rte" = VArray (r :: rest) ->
     optGet gpx' "rte" = VArray (r :: rest') ->
     pointsFromRte gpx = pointsFromRte gpx').
Proof.
  split; [|split].
  - intros gpx gpx' t rest rest' H H'.
    unfold pointsFromTrk, trkptsOf. rewrite H, H'. reflexivity.
  - intros gpx gpx' s rest rest' H H'.
    unfold pointsFromTrk, trkptsOf. rewrite H, H'. reflexivity.
  - intros gpx gpx' r rest rest' H H'.
    unfold pointsFromRte, rteptsOf. rewrite H, H'. reflexivity.
Qed.

Lemma only_first_track_segment_route_witness :
  parseGpxDoc docSeveralTracks =
  Normal {| name := VUndefined;
            points := [coords (pt "47.5" "8.25"); coords (pt "47.75" "8.75")] |}.
Proof.
  destruct only_first_track_segment_route as [_ [Hseg _]].
  apply (parse_points_track docSeveralTracks); [|discriminate].
  rewrite (Hseg (optGet docSeveralTracks "gpx")
             (VObject [("trk", VObject [("trkseg", VArray [
                VObject [("trkpt", VArray [pt "47.5" "8.25"; pt "47.75" "8.75"])]])])])
             (VObject [("trkpt", VArray [pt "47.5" "8.25"; pt "47.75" "8.75"])])
             [VObject [("trkpt", pt "48" "9")]] [] eq_refl eq_refl).
  vm_compute. reflexivity.
Defined.

(** X3: the track name and the route name are read from the [trk] and
    [rte] nodes themselves, not from their first element: when the document
    has several tracks ([trk] is an array) the track name is skipped, and
    likewise the route name when there are several routes.  The name is
    computed before any point is read, and is the name of every result. *)
Theorem names_of_several_tracks_are_skipped (doc : JsVal) :
  let gpx := optGet doc "gpx" in
  let m := optGet (optGet gpx "metadata") "name" in
  (forall res, parseGpxDoc doc = Normal res -> name res = nameOf gpx) /\
  (forall items, optGet gpx "trk" = VArray items ->
     nameOf gpx = coalesce m (optGet (optGet gpx "rte") "name")) /\
  (forall items, optGet gpx "rte" = VArray items ->
     nameOf gpx =
     coalesce m (coalesce (optGet (optGet gpx "trk") "name") VUndefined)).
Proof.
  intros gpx m. split; [apply parse_name|].
  unfold nameOf. fold m.
  split; intros items H; rewrite H; reflexivity.
Qed.

Lemma names_of_several_tracks_are_skipped_witness :
  exists res, parseGpxDoc docSeveralTracks = Normal res /\ name res = VUndefined.
Proof.
  destruct (names_of_several_tracks_are_skipped docSeveralTracks)
    as [Hname [Htrk _]].
  assert (Hr : exists res, parseGpxDoc docSeveralTracks = Normal res)
    by (eexists; vm_compute; reflexivity).
  destruct Hr as [res Hr]. exists res. split; [exact Hr|].
  rewrite (Hname res Hr), (Htrk _ eq_refl). reflexivity.
Defined.

(** X4: a point node without a [lat] or without a [lon] (in particular a
    node that is not an object, such as the text of an element) whose
    other coordinate can be coerced contributes nothing: removing it from
    the list of nodes leaves the outcome unchanged.  A node that is not an
    object is of that kind. *)
Theorem nodes_without_coordinates_are_dropped (l1 l2 : list JsVal) (p : JsVal) :
  optGet p "lat" = VUndefined \/ optGet p "lon" = VUndefined ->
  fatalPt p = false ->
  toLatLng p = Normal None /\
  validPoints (l1 ++ p :: l2) = validPoints (l1 ++ l2) /\
  (forall q, (forall fields, q <> VObject fields) ->
     fatalPt q = false /\ toLatLng q = Normal None).
Proof.
  intros H Hf.
  assert (Hv : validPt p = false).
  { unfold validPt, latOf, lonOf. destruct H as [-> | ->]; cbn.
    - reflexivity.
    - apply andb_false_r. }
  split; [|split].
  - rewrite (toLatLng_valid p Hf), Hv. reflexivity.
  - destruct (noFatal (l1 ++ l2)) eqn:Hall.
    + assert (Hall' : noFatal (l1 ++ p :: l2) = true).
      { unfold noFatal in *. rewrite forallb_app in *. cbn [forallb].
        rewrite Hf. exact Hall. }
      rewrite (validPoints_filter _ Hall), (validPoints_filter _ Hall').
      rewrite !filter_app. cbn [filter]. now rewrite Hv.
    + assert (Hall' : noFatal (l1 ++ p :: l2) = false).
      { unfold noFatal in *. rewrite forallb_app in *. cbn [forallb].
        rewrite Hf. exact Hall. }
      now rewrite (validPoints_fatal _ Hall), (validPoints_fatal _ Hall').
  - intros q Hq.
    assert (Hno : forall k, optGet q k = VUndefined)
      by (destruct q as [ | | | | |fields|]; try reflexivity;
          now contradiction (Hq fields)).
    split.
    + unfold fatalPt. now rewrite !Hno.
    + unfold toLatLng. now rewrite !Hno.
Qed.

Lemma nodes_without_coordinates_are_dropped_witness :
  validPoints [pt "47.5" "8.25"; VString "text"; pt "47.75" "8.75"] =
  validPoints [pt "47.5" "8.25"; pt "47.75" "8.75"].
Proof.
  apply (nodes_without_coordinates_are_dropped
           [pt "47.5" "8.25"] [pt "47.75" "8.75"] (VString "text")).
  - left. reflexivity.
  - reflexivity.
Defined.

(** X5: the name is chosen independently of the tier that supplies the
    points: when the track nodes are coerced without a valid point and the
    metadata has no name, the route's points are returned under the
    track's name. *)
Theorem route_points_keep_track_name (doc : JsVal) (pts : list LatLng) :
  let gpx := optGet doc "gpx" in
  pointsFromTrk gpx = Normal [] ->
  pointsFromRte gpx = Normal pts ->
  nullish (optGet (optGet gpx "metadata") "name") = true ->
  nullish (optGet (optGet gpx "trk") "name") = false ->
  parseGpxDoc doc =
  Normal {| name := optGet (optGet gpx "trk") "name"; points := pts |}.
Proof.
  intros gpx Hnone Hrte Hm Ht.
  rewrite (parse_points_route doc Hnone). fold gpx. rewrite Hrte.
  unfold nameOf, coalesce. now rewrite Hm, Ht.
Qed.

Lemma route_points_keep_track_name_witness :
  parseGpxDoc docNamedTrackNoPoints =
  Normal {| name := VString "Recorded";
            points := [coords (pt "10" "20"); coords (pt "11" "21")] |}.
Proof.
  apply (route_points_keep_track_name docNamedTrackNoPoints);
    vm_compute; reflexivity.
Defined.

(** ** The bounding region: degenerate and poisoned axes *)

Lemma ltb_irrefl x : ltb x x = false.
Proof.
  unfold ltb, SFltb, SFcompare.
  destruct x as [[|]|[|]| |[|] m e]; try reflexivity;
    rewrite Z.compare_refl, Pos.compare_cont_refl; reflexivity.
Qed.

Lemma min2_same a : notNaN a -> min2 a a = a.
Proof.
  unfold notNaN, min2, Math_min. intros Ha. cbn [existsb]. rewrite Ha.
  cbn [orb fold_left].
  assert (Hfirst : minStep posInf a = a)
    by (destruct a as [[|]|[|]| |[|] m e]; try discriminate; reflexivity).
  rewrite Hfirst. unfold minStep. rewrite ltb_irrefl.
  destruct a as [[|]|[|]| |[|] m e]; reflexivity.
Qed.

Lemma max2_same a : notNaN a -> max2 a a = a.
Proof.
  unfold notNaN, max2, Math_max. intros Ha. cbn [existsb]. rewrite Ha.
  cbn [orb fold_left].
  assert (Hfirst : maxStep negInf a = a)
    by (destruct a as [[|]|[|]| |[|] m e]; try discriminate; reflexivity).
  rewrite Hfirst. unfold maxStep. rewrite ltb_irrefl.
  destruct a as [[|]|[|]| |[|] m e]; reflexivity.
Qed.

Lemma fold_min2_constant a xs :
  notNaN a -> Forall (eq a) xs -> fold_left min2 xs a = a.
Proof.
  intros Ha Hxs. induction Hxs as [|x xs <- _ IH]; cbn [fold_left];
    [reflexivity|]. now rewrite min2_same.
Qed.

Lemma fold_max2_constant a xs :
  notNaN a -> Forall (eq a) xs -> fold_left max2 xs a = a.
Proof.
  intros Ha Hxs. induction Hxs as [|x xs <- _ IH]; cbn [fold_left];
    [reflexivity|]. now rewrite max2_same.
Qed.

Lemma sub_same_finite a : isFinite a = true -> Num.sub a a = posZero.
Proof.
  unfold Num.sub, SFsub.
  destruct a as [[|]|[|]| |s m e]; intros Ha; try discriminate Ha;
    try reflexivity.
  rewrite Z.sub_diag. reflexivity.
Qed.

Lemma span_of_constant_axis a :
  isFinite a = true ->
  Math_max [minimumSpan; Num.mul (Num.sub a a) paddingFactor] = minimumSpan.
Proof.
  intros Ha. rewrite (sub_same_finite a Ha). vm_compute. reflexivity.
Qed.

(** X6: an axis on which all points have the same finite value gets
    exactly the minimum span 0.01 (a north-south line has longitude span
    0.01, a single point has both spans 0.01), whatever the other axis. *)
Theorem constant_axis_gets_minimum_span (p : LatLng) (ps : list LatLng) :
  exists r, boundingRegion (p :: ps) = Some r /\
    (isFinite (latitude p) = true ->
     Forall (fun q => latitude p = latitude q) ps ->
     latitudeDelta r = minimumSpan) /\
    (isFinite (longitude p) = true ->
     Forall (fun q => longitude p = longitude q) ps ->
     longitudeDelta r = minimumSpan).
Proof.
  unfold boundingRegion. rewrite scan_components.
  cbn [minLat maxLat minLon maxLon]. eexists. split; [reflexivity|].
  cbn [latitudeDelta longitudeDelta].
  split; intros Hfin Hall.
  - assert (Hxs : Forall (eq (latitude p)) (map latitude (p :: ps)))
      by (constructor; [reflexivity | now apply Forall_map]).
    rewrite (fold_min2_constant _ _ (finite_notNaN _ Hfin) Hxs),
            (fold_max2_constant _ _ (finite_notNaN _ Hfin) Hxs).
    now apply span_of_constant_axis.
  - assert (Hxs : Forall (eq (longitude p)) (map longitude (p :: ps)))
      by (constructor; [reflexivity | now apply Forall_map]).
    rewrite (fold_min2_constant _ _ (finite_notNaN _ Hfin) Hxs),
            (fold_max2_constant _ _ (finite_notNaN _ Hfin) Hxs).
    now apply span_of_constant_axis.
Qed.

Lemma constant_axis_gets_minimum_span_witness :
  exists r,
    boundingRegion [coords (pt "47.5" "8.25"); coords (pt "48" "8.25")] = Some r /\
    longitudeDelta r = minimumSpan.
Proof.
  destruct (constant_axis_gets_minimum_span
              (coords (pt "47.5" "8.25")) [coords (pt "48" "8.25")])
    as [r [Hr [_ Hlon]]].
  exists r. split; [exact Hr|].
  apply Hlon; [reflexivity | repeat constructor].
Defined.

(** X7: [boundingRegion] does not filter its input: a single NaN latitude
    (longitude) anywhere in the list makes both the center and the span of
    that axis NaN. *)
Theorem nan_coordinate_poisons_axis (pts : list LatLng) (q : LatLng) :
  In q pts ->
  exists r, boundingRegion pts = Some r /\
    (isNaN (latitude q) = true ->
     r_latitude r = NaN /\ latitudeDelta r = NaN) /\
    (isNaN (longitude q) = true ->
     r_longitude r = NaN /\ longitudeDelta r = NaN).
Proof.
  intros Hin. destruct pts as [|p ps]; [destruct Hin|].
  unfold boundingRegion. rewrite scan_components.
  cbn [minLat maxLat minLon maxLon]. eexists. split; [reflexivity|].
  cbn [r_latitude r_longitude latitudeDelta longitudeDelta].
  split; intros Hnan.
  - assert (Hex : Exists (fun x => isNaN x = true) (map latitude (p :: ps)))
      by (apply Exists_exists; exists (latitude q); split;
          [now apply in_map | exact Hnan]).
    rewrite (fold_min2_NaN _ (latitude p) (or_intror Hex)),
            (fold_max2_NaN _ (latitude p) (or_intror Hex)).
    split; reflexivity.
  - assert (Hex : Exists (fun x => isNaN x = true) (map longitude (p :: ps)))
      by (apply Exists_exists; exists (longitude q); split;
          [now apply in_map | exact Hnan]).
    rewrite (fold_min2_NaN _ (longitude p) (or_intror Hex)),
            (fold_max2_NaN _ (longitude p) (or_intror Hex)).
    split; reflexivity.
Qed.

Lemma nan_coordinate_poisons_axis_witness :
  exists r,
    boundingRegion [coords (pt "47.5" "8.25");
                    {| latitude := NaN; longitude := ofZ 9 |}] = Some r /\
    r_latitude r = NaN /\ latitudeDelta r = NaN.
Proof.
  destruct (nan_coordinate_poisons_axis
              [coords (pt "47.5" "8.25"); {| latitude := NaN; longitude := ofZ 9 |}]
              {| latitude := NaN; longitude := ofZ 9 |})
    as [r [Hr [Hlat _]]].
  - right. left. reflexivity.
  - exists r. split; [exact Hr|]. apply Hlat. reflexivity.
Defined.

(** ** The bounding region does not depend on the order of the points *)

Lemma leb_antisym x y :
  leb x y = true -> leb y x = true ->
  x = y \/ exists s s', x = S754_zero s /\ y = S754_zero s'.
Proof.
  unfold leb, SFleb, SFcompare.
  destruct x as [sx|[|]| |[|] mx ex], y as [sy|[|]| |[|] my ey]; cbn;
    intros Hxy Hyx; try discriminate; auto; try (right; eauto; fail);
    compare_cases; subst; auto.
Qed.

Lemma ltb_leb_trans x y z : ltb x y = true -> leb y z = true -> ltb x z = true.
Proof.
  unfold ltb, leb, SFltb, SFleb, SFcompare.
  destruct x as [[|]|[|]| |[|] mx ex], y as [[|]|[|]| |[|] my ey],
           z as [[|]|[|]| |[|] mz ez]; cbn;
    intros Hxy Hyz; try reflexivity; try discriminate;
    compare_cases.
Qed.

Lemma min2_posZero m x :
  notNaN m -> notNaN x -> min2 m x = posZero ->
  (m = posZero /\ x <> negZero) \/ (x = posZero /\ ltb x m = true).
Proof.
  unfold notNaN, min2, Math_min. intros Hm Hx. cbn [existsb].
  rewrite Hm, Hx. cbn [orb fold_left].
  assert (Hfirst : minStep posInf m = m)
    by (destruct m as [[|]|[|]| |[|] mm em]; try discriminate; reflexivity).
  rewrite Hfirst. unfold minStep.
  destruct (isNegZero x && isPosZero m) eqn:Hz; [discriminate|].
  destruct (ltb x m) eqn:Hlt; intros ->; [now right|].
  left. split; [reflexivity|]. intros ->. discriminate Hz.
Qed.

Lemma max2_negZero m x :
  notNaN m -> notNaN x -> max2 m x = negZero ->
  (m = negZero /\ x <> posZero) \/ (x = negZero /\ ltb m x = true).
Proof.
  unfold notNaN, max2, Math_max. intros Hm Hx. cbn [existsb].
  rewrite Hm, Hx. cbn [orb fold_left].
  assert (Hfirst : maxStep negInf m = m)
    by (destruct m as [[|]|[|]| |[|] mm em]; try discriminate; reflexivity).
  rewrite Hfirst. unfold maxStep.
  destruct (isPosZero x && isNegZero m) eqn:Hz; [discriminate|].
  destruct (ltb m x) eqn:Hlt; intros ->; [now right|].
  left. split; [reflexivity|]. intros ->. discriminate Hz.
Qed.

Lemma fold_min2_zero_sign xs : forall m0 seen,
  notNaN m0 -> Forall notNaN xs ->
  (forall y, In y seen -> leb m0 y = true) ->
  (In negZero seen -> m0 <> posZero) ->
  In negZero (seen ++ xs)%list -> fold_left min2 xs m0 <> posZero.
Proof.
  induction xs as [|x xs IH]; intros m0 seen Hm0 Hxs Hle Hsign Hin;
    cbn [fold_left].
  - rewrite app_nil_r in Hin. auto.
  - inversion Hxs as [|? ? Hx Hxs']; subst.
    destruct (min2_spec m0 x Hm0 Hx) as [Hn [_ [Hle0 Hlex]]].
    apply (IH (min2 m0 x) (seen ++ [x])%list); try assumption.
    + intros y Hy. apply in_app_or in Hy as [Hy|[<-|[]]]; [|assumption].
      apply (leb_trans _ m0); auto.
    + intros Hneg Hzero.
      destruct (min2_posZero m0 x Hm0 Hx Hzero) as [[-> Hxn] | [-> Hlt]];
        apply in_app_or in Hneg as [Hneg|[Heq|[]]];
        try (now apply (Hsign Hneg)); try (now apply Hxn);
        try discriminate Heq.
      pose proof (ltb_leb_trans _ _ _ Hlt (Hle _ Hneg)) as Habs.
      discriminate Habs.
    + now rewrite <- app_assoc.
Qed.

Lemma fold_max2_zero_sign xs : forall m0 seen,
  notNaN m0 -> Forall notNaN xs ->
  (forall y, In y seen -> leb y m0 = true) ->
  (In posZero seen -> m0 <> negZero) ->
  In posZero (seen ++ xs)%list -> fold_left max2 xs m0 <> negZero.
Proof.
  induction xs as [|x xs IH]; intros m0 seen Hm0 Hxs Hle Hsign Hin;
    cbn [fold_left].
  - rewrite app_nil_r in Hin. auto.
  - inversion Hxs as [|? ? Hx Hxs']; subst.
    destruct (max2_spec m0 x Hm0 Hx) as [Hn [_ [Hle0 Hlex]]].
    apply (IH (max2 m0 x) (seen ++ [x])%list); try assumption.
    + intros y Hy. apply in_app_or in Hy as [Hy|[<-|[]]]; [|assumption].
      apply (leb_trans _ m0); auto.
    + intros Hpos Hzero.
      destruct (max2_negZero m0 x Hm0 Hx Hzero) as [[-> Hxn] | [-> Hlt]];
        apply in_app_or in Hpos as [Hpos|[Heq|[]]];
        try (now apply (Hsign Hpos)); try (now apply Hxn);
        try discriminate Heq.
      pose proof (Hle _ Hpos) as Hle'.
      revert Hlt Hle'. clear. unfold ltb, leb, SFltb, SFleb, SFcompare.
      destruct m0 as [[|]|[|]| |[|] mm em]; cbn; congruence.
    + now rewrite <- app_assoc.
Qed.

Lemma fold_min2_scanned a xs :
  notNaN a -> Forall notNaN xs -> scannedMin (fold_left min2 xs a) (a :: xs).
Proof.
  intros Ha Hxs. split; [now apply fold_min2_least|].
  apply (fold_min2_zero_sign xs a [a]); try assumption.
  - intros y [<-|[]]. now apply leb_refl.
  - intros [->|[]]. discriminate.
Qed.

Lemma fold_max2_scanned a xs :
  notNaN a -> Forall notNaN xs -> scannedMax (fold_left max2 xs a) (a :: xs).
Proof.
  intros Ha Hxs. split; [now apply fold_max2_greatest|].
  apply (fold_max2_zero_sign xs a [a]); try assumption.
  - intros y [<-|[]]. now apply leb_refl.
  - intros [->|[]]. discriminate.
Qed.

Lemma scannedMin_unique r r' l l' :
  scannedMin r l -> scannedMin r' l' ->
  (forall y, In y l <-> In y l') -> r = r'.
Proof.
  intros [[Hin Hle] Hs] [[Hin' Hle'] Hs'] Hsame.
  destruct (leb_antisym r r') as [Heq | [s [s' [-> ->]]]];
    [apply Hle, Hsame, Hin' | apply Hle', Hsame, Hin | exact Heq |].
  destruct s, s'; try reflexivity; exfalso.
  - apply Hs'; [apply Hsame, Hin | reflexivity].
  - apply Hs; [apply Hsame, Hin' | reflexivity].
Qed.

Lemma scannedMax_unique r r' l l' :
  scannedMax r l -> scannedMax r' l' ->
  (forall y, In y l <-> In y l') -> r = r'.
Proof.
  intros [[Hin Hle] Hs] [[Hin' Hle'] Hs'] Hsame.
  destruct (leb_antisym r r') as [Heq | [s [s' [-> ->]]]];
    [apply Hle', Hsame, Hin | apply Hle, Hsame, Hin' | exact Heq |].
  destruct s, s'; try reflexivity; exfalso.
  - apply Hs; [apply Hsame, Hin' | reflexivity].
  - apply Hs'; [apply Hsame, Hin | reflexivity].
Qed.

Lemma scan_min_permutation (f : LatLng -> number) p ps p' ps' :
  Permutation (p :: ps) (p' :: ps') ->
  Forall (fun q => notNaN (f q)) (p :: ps) ->
  fold_left min2 (map f (p :: ps)) (f p) =
  fold_left min2 (map f (p' :: ps')) (f p').
Proof.
  intros Hperm Hall.
  assert (Hall' : Forall (fun q => notNaN (f q)) (p' :: ps'))
    by (eapply Permutation_Forall; eassumption).
  apply (scannedMin_unique _ _ (f p :: map f (p :: ps)) (f p' :: map f (p' :: ps'))).
  - apply fold_min2_scanned; [now inversion Hall | now apply Forall_map].
  - apply fold_min2_scanned; [now inversion Hall' | now apply Forall_map].
  - intros y. split; intros [<-|Hy].
    + right. apply (Permutation_in _ (Permutation_map f Hperm)). now left.
    + right. now apply (Permutation_in _ (Permutation_map f Hperm)).
    + right. apply (Permutation_in _ (Permutation_map f (Permutation_sym Hperm))).
      now left.
    + right. now apply (Permutation_in _ (Permutation_map f (Permutation_sym Hperm))).
Qed.

Lemma scan_max_permutation (f : LatLng -> number) p ps p' ps' :
  Permutation (p :: ps) (p' :: ps') ->
  Forall (fun q => notNaN (f q)) (p :: ps) ->
  fold_left max2 (map f (p :: ps)) (f p) =
  fold_left max2 (map f (p' :: ps')) (f p').
Proof.
  intros Hperm Hall.
  assert (Hall' : Forall (fun q => notNaN (f q)) (p' :: ps'))
    by (eapply Permutation_Forall; eassumption).
  apply (scannedMax_unique _ _ (f p :: map f (p :: ps)) (f p' :: map f (p' :: ps'))).
  - apply fold_max2_scanned; [now inversion Hall | now apply Forall_map].
  - apply fold_max2_scanned; [now inversion Hall' | now apply Forall_map].
  - intros y. split; intros [<-|Hy].
    + right. apply (Permutation_in _ (Permutation_map f Hperm)). now left.
    + right. now apply (Permutation_in _ (Permutation_map f Hperm)).
    + right. apply (Permutation_in _ (Permutation_map f (Permutation_sym Hperm))).
      now left.
    + right. now apply (Permutation_in _ (Permutation_map f (Permutation_sym Hperm))).
Qed.

(** X8: the region does not depend on the order of the points: two lists
    without NaN coordinates that are permutations of each other have the
    same bounding region, down to the sign of a zero bound. *)
Theorem region_ignores_order (pts pts' : list LatLng) :
  Permutation pts pts' -> Forall notNaNPoint pts ->
  boundingRegion pts = boundingRegion pts'.
Proof.
  intros Hperm Hall.
  destruct pts as [|p ps], pts' as [|p' ps'].
  - reflexivity.
  - now apply Permutation_nil_cons in Hperm.
  - now apply Permutation_sym, Permutation_nil_cons in Hperm.
  - assert (Hlat : Forall (fun q => notNaN (latitude q)) (p :: ps))
      by (eapply Forall_impl; [|exact Hall]; now intros q [Hq _]).
    assert (Hlon : Forall (fun q => notNaN (longitude q)) (p :: ps))
      by (eapply Forall_impl; [|exact Hall]; now intros q [_ Hq]).
    unfold boundingRegion. rewrite !scan_components.
    cbn [minLat maxLat minLon maxLon].
    rewrite (scan_min_permutation latitude p ps p' ps' Hperm Hlat),
            (scan_max_permutation latitude p ps p' ps' Hperm Hlat),
            (scan_min_permutation longitude p ps p' ps' Hperm Hlon),
            (scan_max_permutation longitude p ps p' ps' Hperm Hlon).
    reflexivity.
Qed.

Lemma region_ignores_order_witness :
  boundingRegion [coords (pt "47.5" "8.25"); coords (pt "47.75" "8.75")] =
  boundingRegion [coords (pt "47.75" "8.75"); coords (pt "47.5" "8.25")].
Proof.
  apply region_ignores_order.
  - apply perm_swap.
  - repeat constructor.
Defined.

(** ** Loading a file: what a load leaves alone *)

(** X9: whatever the outcome of a load (success, failure, cancellation),
    the progress flag is cleared at the end and the location side of the
    state (permission, services, last fix, speed, GPS error) is not
    written. *)
Theorem load_clears_flag_and_keeps_gps_state
    (decode : string -> Completion JsVal)
    (picked : Completion DocumentPickerResult)
    (read : JsVal -> Completion string) (h : Hooks) :
  let h' := exec (pickGpx decode picked read) h in
  loadingGpx h' = false /\ sameGpsState h h'.
Proof.
  unfold sameGpsState. load_cases decode picked read; repeat split.
Qed.

(** X10: cancelling the picker is not an error: route, name, mode and the
    location side stay as they were; the load error shown before, if any,
    is cleared. *)
Theorem cancelled_pick_keeps_state
    (decode : string -> Completion JsVal) (p : DocumentPickerResult)
    (read : JsVal -> Completion string) (h : Hooks) :
  canceled p = true ->
  let h' := exec (pickGpx decode (Normal p) read) h in
  sameRouteState h h' /\ sameGpsState h h' /\ gpxError h' = VNull.
Proof.
  intros Hc. unfold sameRouteState, sameGpsState. unfold_handlers. cbn.
  rewrite Hc. cbn. repeat split.
Qed.

Lemma cancelled_pick_keeps_state_witness :
  let h' := exec (pickGpx (fun _ => Normal docNoData) (Normal pickerCancelled)
                    (fun _ => Normal "<gpx/>")) hooksLoaded in
  route h' = route hooksLoaded /\ gpxError h' = VNull.
Proof.
  intros h'.
  destruct (cancelled_pick_keeps_state (fun _ => Normal docNoData) pickerCancelled
              (fun _ => Normal "<gpx/>") hooksLoaded eq_refl)
    as [[_ [Hr _]] [_ He]].
  split; assumption.
Defined.

(** X11: when the picker returns no asset, or an asset without a usable
    [uri], the load fails with "No file URI returned" before anything is
    read: the outcome is the same whatever the file system and the decoder
    would answer, and the route side of the state is unchanged. *)
Theorem missing_uri_fails_before_reading
    (decode decode' : string -> Completion JsVal) (p : DocumentPickerResult)
    (read read' : JsVal -> Completion string) (h : Hooks) :
  canceled p = false -> truthy (pickedUri p) = false ->
  let h' := exec (pickGpx decode (Normal p) read) h in
  gpxError h' = VString "No file URI returned" /\
  sameRouteState h h' /\
  h' = exec (pickGpx decode' (Normal p) read') h.
Proof.
  unfold pickedUri. intros Hc Hu. unfold sameRouteState. unfold_handlers. cbn.
  rewrite Hc. cbn. rewrite Hu. cbn. repeat split.
Qed.

Lemma missing_uri_fails_before_reading_witness :
  let h' := exec (pickGpx (fun _ => Normal docTrackAndRoute) (Normal pickedNothing)
                    (fun _ => Normal "<gpx/>")) initialHooks in
  gpxError h' = VString "No file URI returned" /\ route h' = [].
Proof.
  intros h'.
  destruct (missing_uri_fails_before_reading
              (fun _ => Normal docTrackAndRoute) (fun _ => Normal docNoData)
              pickedNothing (fun _ => Normal "<gpx/>") (fun _ => Normal "")
              initialHooks eq_refl eq_refl) as [He [[_ [Hr _]] _]].
  split; [exact He | exact Hr].
Defined.

(** X12: a rejection of the picker or of the file read is caught: the
    error shown is the [message] of the thrown value, or "Failed to load
    GPX" when it has none, and the route side of the state is unchanged. *)
Theorem rejected_pick_or_read_is_caught
    (decode : string -> Completion JsVal)
    (read : JsVal -> Completion string) (h : Hooks) (e : JsVal) :
  let shown := coalesce (optGet e "message") (VString "Failed to load GPX") in
  (let h' := exec (pickGpx decode (Throw e) read) h in
   gpxError h' = shown /\ sameRouteState h h') /\
  (forall p, canceled p = false -> truthy (pickedUri p) = true ->
     read (pickedUri p) = Throw e ->
     let h' := exec (pickGpx decode (Normal p) read) h in
     gpxError h' = shown /\ sameRouteState h h') /\
  (nullish (optGet e "message") = true -> shown = VString "Failed to load GPX").
Proof.
  intros shown. unfold sameRouteState. split; [|split].
  - unfold_handlers. cbn. repeat split.
  - unfold pickedUri. intros p Hc Hu Hr. unfold_handlers. cbn.
    rewrite Hc. cbn. rewrite Hu. cbn. rewrite Hr. cbn. repeat split.
  - intros Hn. subst shown. unfold coalesce. now rewrite Hn.
Qed.

Lemma rejected_pick_or_read_is_caught_witness :
  let h' := exec (pickGpx (fun _ => Normal docTrackAndRoute)
                    (Normal (pickedFile "file:///gone.gpx"))
                    (fun _ => Throw (VString "ENOENT"))) hooksLoaded in
  gpxError h' = VString "Failed to load GPX" /\ route h' = route hooksLoaded.
Proof.
  intros h'.
  destruct (rejected_pick_or_read_is_caught (fun _ => Normal docTrackAndRoute)
              (fun _ => Throw (VString "ENOENT")) hooksLoaded (VString "ENOENT"))
    as [_ [Hread Hdefault]].
  destruct (Hread (pickedFile "file:///gone.gpx") eq_refl eq_refl eq_refl)
    as [He [_ [Hr _]]].
  split; [|exact Hr].
  rewrite <- (Hdefault eq_refl). exact He.
Defined.

(** ** The controller: routes, buttons and the camera *)

Lemma pickGpx_route decode picked read h :
  let h' := exec (pickGpx decode picked read) h in
  route h' = route h \/ route h' <> [].
Proof.
  unfold_handlers.
  destruct picked as [p|e]; cbn; [|auto].
  destruct (canceled p); cbn; [auto|].
  destruct (truthy _); cbn; [|auto].
  destruct (read _) as [xml|e]; cbn; [|auto].
  destruct (parseGpxXml decode xml) as [parsed|e]; cbn; [|auto].
  destruct (points parsed) as [|q qs]; cbn; [auto|].
  right. discriminate.
Qed.

Lemma initialPermissionEffect_frame perm enabled h :
  sameRouteState h (exec (initialPermissionEffect perm enabled) h).
Proof.
  unfold sameRouteState. unfold_handlers.
  destruct perm as [[| |]|e]; cbn; try destruct enabled; cbn; repeat split.
Qed.

Lemma onPosition_frame pos h :
  sameRouteState h (exec (onPosition pos) h).
Proof. unfold sameRouteState. unfold_handlers. cbn. repeat split. Qed.

Section RouteFacts.
Variable decode : string -> Completion JsVal.

(** What any handler does to the route, and when it can end in drive mode. *)
Lemma handler_route w ev handler :
  handlerOf decode w ev = Some handler ->
  let h := hooks w in
  let h' := exec handler h in
  (route h' = route h \/ route h' <> []) /\
  (mode h' = drive -> mode h = drive \/ route h <> []).
Proof.
  intros Hh h h'. subst h h'.
  destruct ev as [perm en | picked read | env | | pos]; cbn in Hh.
  - injection Hh as <-.
    destruct (initialPermissionEffect_frame perm en (hooks w)) as [_ [Hr Hm]].
    rewrite Hr, Hm. auto.
  - destruct (loadingGpx (hooks w)); [discriminate|]. injection Hh as <-.
    split; [apply pickGpx_route|].
    intros Hd. destruct (pickGpx_mode decode picked read (hooks w)) as [Hm|Hm];
      [left; congruence | congruence].
  - destruct (negb (List.length (route (hooks w)) =? 0)%nat) eqn:Hlen;
      [|discriminate].
    cbn in Hh. destruct (negb (eqMode (mode (hooks w)) drive)); [|discriminate].
    injection Hh as <-.
    destruct (startNavigation_mode (hooks w) env (hooks w)) as [Hr _].
    split; [now left|]. intros _. right.
    destruct (route (hooks w)); [discriminate Hlen | discriminate].
  - destruct (eqMode (mode (hooks w)) drive); [|discriminate].
    injection Hh as <-. cbn. split; [now left | discriminate].
  - destruct (sub w); [|discriminate]. injection Hh as <-.
    destruct (onPosition_frame pos (hooks w)) as [_ [Hr Hm]].
    rewrite Hr, Hm. auto.
Qed.

Lemma step_keeps_route w ev eff w' :
  step decode w ev eff = Some w' ->
  (routeLoaded w -> routeLoaded w') /\ (driveHasRoute w -> driveHasRoute w').
Proof.
  intros Hstep. destruct (step_commit decode _ _ _ _ Hstep) as [hd [Hh ->]].
  destruct (handler_route w ev hd Hh) as [Hroute Hdrive].
  destruct (commit_spec w (exec hd (hooks w)) eff) as [Hm [Hr _]].
  unfold routeLoaded, driveHasRoute. rewrite Hm, Hr. split.
  - intros Hl. destruct Hroute as [-> | Hne]; assumption.
  - intros Hinv Hd. destruct Hroute as [Hsame | Hne]; [|assumption].
    rewrite Hsame. destruct (Hdrive Hd) as [Hwas | Hl]; auto.
Qed.

Lemma reachable_driveHasRoute w : reachable decode w -> driveHasRoute w.
Proof.
  intros [evs Hrun].
  assert (Hgen : forall evs w0 w1, driveHasRoute w0 ->
            run decode w0 evs = Some w1 -> driveHasRoute w1).
  { clear. induction evs as [|[ev eff] evs IH]; intros w0 w1 Hinv Hrun;
      cbn in Hrun.
    - now injection Hrun as <-.
    - destruct (step decode w0 ev eff) as [w2|] eqn:Hstep; [|discriminate].
      apply (IH w2); [|assumption].
      now apply (step_keeps_route w0 ev eff w2). }
  apply (Hgen evs initialWorld); [|assumption].
  intros Hd. discriminate Hd.
Qed.

(** X13: in every reachable state, drive mode has a loaded route; a loaded
    route is never unloaded by any event; and the Start and Stop buttons
    are never offered together, one of them being offered exactly when a
    route is loaded. *)
Theorem drive_mode_has_a_route (w : World) :
  reachable decode w ->
  driveHasRoute w /\
  (forall ev eff w', step decode w ev eff = Some w' ->
     routeLoaded w -> routeLoaded w') /\
  showStart (hooks w) && showStop (hooks w) = false /\
  (showStart (hooks w) || showStop (hooks w) = true <-> routeLoaded w).
Proof.
  intros Hreach. pose proof (reachable_driveHasRoute w Hreach) as Hinv.
  split; [exact Hinv|]. split; [|split].
  - intros ev eff w' Hstep. now apply (step_keeps_route w ev eff w').
  - unfold showStart, showStop. destruct (mode (hooks w)); cbn;
      [apply andb_false_r | now rewrite andb_false_r].
  - unfold showStart, showStop, routeLoaded, driveHasRoute in *.
    destruct (mode (hooks w)); cbn.
    + rewrite andb_true_r, orb_false_r.
      destruct (route (hooks w)); cbn; split; congruence.
    + rewrite orb_true_r. split; auto.
Qed.
End RouteFacts.

Lemma drive_mode_has_a_route_witness :
  routeLoaded worldDriving /\ showStop (hooks worldDriving) = true /\
  showStart (hooks worldDriving) = false.
Proof.
  assert (Hreach : reachable (fun _ => Normal docTrackAndRoute) worldDriving)
    by (exists [(loadRide, allGranted);
                (PressStart (eff_location allGranted), allGranted)];
        vm_compute; reflexivity).
  destruct (drive_mode_has_a_route (fun _ => Normal docTrackAndRoute)
              worldDriving Hreach) as [Hroute [_ [Hboth _]]].
  split; [apply Hroute; vm_compute; reflexivity|].
  split; [vm_compute; reflexivity|].
  destruct (showStart (hooks worldDriving)); [discriminate Hboth | reflexivity].
Defined.

Lemma boundingRegion_some pts : pts <> [] -> exists r, boundingRegion pts = Some r.
Proof.
  destruct pts as [|p ps]; [congruence|]. intros _. cbn. eauto.
Qed.

(** X14: the camera prop is set exactly in drive mode, and in a reachable
    state it never falls back to the built-in default center: it is
    centered on the last fix when there is one, and otherwise on the
    center of the region of the loaded route, heading 0. *)
Theorem drive_camera_follows_fix_or_route
    (decode : string -> Completion JsVal) (w : World) :
  reachable decode w ->
  let h := hooks w in
  (mode h = browse -> camera h = None) /\
  (mode h = drive ->
   exists cam, camera h = Some cam /\
     (forall c, location h = Some c ->
        center cam = {| latitude := c_latitude c; longitude := c_longitude c |} /\
        heading cam = coalesce (c_heading c) (VNumber posZero)) /\
     (location h = None ->
        exists r, region h = Some r /\
          center cam = {| latitude := r_latitude r; longitude := r_longitude r |} /\
          heading cam = VNumber posZero)).
Proof.
  intros Hreach h. subst h. split.
  - intros Hb. unfold camera. now rewrite Hb.
  - intros Hd.
    pose proof (reachable_driveHasRoute decode w Hreach Hd) as Hroute.
    destruct (boundingRegion_some _ Hroute) as [r Hr].
    unfold camera, region. rewrite Hd, Hr. cbn [eqMode]. eexists.
    split; [reflexivity|]. cbn [center heading]. split.
    + intros c ->. split; reflexivity.
    + intros ->. exists r. repeat split.
Qed.

Lemma drive_camera_follows_fix_or_route_witness :
  exists cam r,
    camera (hooks worldDriving) = Some cam /\
    region (hooks worldDriving) = Some r /\
    center cam = {| latitude := r_latitude r; longitude := r_longitude r |}.
Proof.
  assert (Hreach : reachable (fun _ => Normal docTrackAndRoute) worldDriving)
    by (exists [(loadRide, allGranted);
                (PressStart (eff_location allGranted), allGranted)];
        vm_compute; reflexivity).
  destruct (drive_camera_follows_fix_or_route _ worldDriving Hreach)
    as [_ Hdrive].
  destruct Hdrive as [cam [Hcam [_ Hnone]]]; [vm_compute; reflexivity|].
  destruct Hnone as [r [Hr [Hc _]]]; [vm_compute; reflexivity|].
  exists cam, r. repeat split; assumption.
Defined.

(** X15: a start attempt offered by the interface whose check finds the
    services enabled and the permission granted enters drive mode, records
    both answers and keeps the route; the live subscription is then open
    with no GPS error if the watch call succeeds, and if the watch call
    throws the error is shown while the mode stays drive with no
    subscription. *)
Theorem successful_start_enters_drive
    (decode : string -> Completion JsVal) (w : World)
    (env : LocationReplies) (eff : EffectReplies) :
  showStart (hooks w) = true ->
  hasServicesEnabledAsync env = Normal true ->
  requestForegroundPermissionsAsync env = Normal st_granted ->
  exists w', step decode w (PressStart env) eff = Some w' /\
    mode (hooks w') = drive /\ locPerm (hooks w') = granted /\
    servicesEnabled (hooks w') = Some true /\
    route (hooks w') = route (hooks w) /\
    (watchPositionAsync eff = Normal tt ->
     App.sub w' = true /\ gpsError (hooks w') = VNull) /\
    (forall e, watchPositionAsync eff = Throw e ->
     App.sub w' = false /\
     gpsError (hooks w') = coalesce (optGet e "message") (VString "GPS error")).
Proof.
  intros Hshow Hs Hp. unfold showStart in Hshow.
  unfold step, handlerOf. rewrite Hshow.
  apply andb_true_iff in Hshow as [_ Hmode].
  destruct (mode (hooks w)) eqn:Hm; [|discriminate Hmode].
  eexists. split; [reflexivity|].
  destruct env as [sv pm]. cbn in Hs, Hp. subst sv pm.
  unfold commit. unfold_handlers. cbn. rewrite Hm. cbn.
  destruct (watchPositionAsync eff) as [[]|e]; cbn;
    repeat split; try discriminate; try reflexivity; congruence.
Qed.

Lemma successful_start_enters_drive_witness :
  exists w',
    step (fun _ => Normal docTrackAndRoute) worldLoaded
         (PressStart (eff_location watchFails)) watchFails = Some w' /\
    mode (hooks w') = drive /\ App.sub w' = false /\
    gpsError (hooks w') = VString "Location request failed".
Proof.
  destruct (successful_start_enters_drive (fun _ => Normal docTrackAndRoute)
              worldLoaded (eff_location watchFails) watchFails
              eq_refl eq_refl eq_refl)
    as [w' [Hstep [Hm [_ [_ [_ [_ Hthrow]]]]]]].
  exists w'. split; [exact Hstep|]. split; [exact Hm|].
  exact (Hthrow _ eq_refl).
Defined.

(** ** The tracking effect, await by await *)

(** The writes of the body of the effect leave the mode alone. *)
Lemma resume_spec r reply writes r' h :
  resume r reply = Some (writes, r') ->
  mode (exec writes h) = mode h /\ route (exec writes h) = route h /\
  cleaned r' = cleaned r /\ (holds r = true -> holds r' = true).
Proof.
  unfold resume, caught, atStage.
  destruct (stage r) as [ |enabled| | ], reply as [[b|e]|[st|e]|[u|e]];
    intros [= <- <-]; unfold_handlers; cbn;
    repeat split; try (intros H; exact H);
    try (destruct b; reflexivity).
Qed.

Lemma eqMode_refl m : eqMode m m = true.
Proof. destruct m; reflexivity. Qed.

Lemma leaked_replaceRun i r r' rs :
  nth_error rs i = Some r -> cleaned r' = cleaned r ->
  (holds r = true -> holds r' = true) ->
  (List.length (filter (fun x => holds x && cleaned x) rs) <=
   List.length (filter (fun x => holds x && cleaned x) (replaceRun i r' rs)))%nat.
Proof.
  revert i. induction rs as [|x rs IH]; intros [|i] Hnth Hc Hh;
    try discriminate Hnth; cbn in Hnth |- *.
  - injection Hnth as ->. rewrite Hc.
    destruct (holds r); [rewrite (Hh eq_refl)|];
      destruct (cleaned r); cbn; try lia;
      destruct (holds r'); cbn; lia.
  - specialize (IH i Hnth Hc Hh).
    destruct (holds x && cleaned x); cbn; lia.
Qed.

Lemma currentFirst_replaceRun i r r' r0 rest :
  nth_error (r0 :: rest) i = Some r -> cleaned r' = cleaned r ->
  cleaned r0 = false -> Forall (fun x => cleaned x = true) rest ->
  exists r1 rest1, replaceRun i r' (r0 :: rest) = r1 :: rest1 /\
    cleaned r1 = false /\ Forall (fun x => cleaned x = true) rest1.
Proof.
  intros Hnth Hc H0 Hrest. destruct i as [|i]; cbn in Hnth |- *.
  - injection Hnth as ->. exists r', rest. repeat split; congruence.
  - exists r0. eexists. split; [reflexivity|]. split; [exact H0|].
    revert i Hnth. induction Hrest as [|x xs Hx Hxs IH]; intros i Hnth.
    + destruct i; discriminate Hnth.
    + destruct i as [|i]; cbn in Hnth |- *.
      * injection Hnth as ->. constructor; [congruence | assumption].
      * constructor; [exact Hx | now apply IH].
Qed.

Lemma leaked_commitRuns h h' r rest :
  cleaned r = false ->
  List.length (filter (fun x => holds x && cleaned x) (commitRuns h h' (r :: rest)))
  = List.length (filter (fun x => holds x && cleaned x) (r :: rest)).
Proof.
  intros Hc. unfold commitRuns. destruct (eqMode (mode h) (mode h')); [reflexivity|].
  cbn. rewrite Hc, andb_false_r. reflexivity.
Qed.

Lemma currentFirst_commitRuns h h' r rest :
  cleaned r = false -> Forall (fun x => cleaned x = true) rest ->
  exists r1 rest1, commitRuns h h' (r :: rest) = r1 :: rest1 /\
    cleaned r1 = false /\ Forall (fun x => cleaned x = true) rest1.
Proof.
  intros Hc Hrest. unfold commitRuns. destruct (eqMode (mode h) (mode h')).
  - exists r, rest. auto.
  - eexists. eexists. split; [reflexivity|]. split; [reflexivity|].
    constructor; [reflexivity | exact Hrest].
Qed.

(** No step removes a leaked subscription. *)
Lemma fstep_keeps_leaks decode s a s' :
  currentFirst s -> fstep decode s a = Some s' ->
  currentFirst s' /\ (leaked s <= leaked s')%nat.
Proof.
  unfold currentFirst, leaked. destruct s as [h rs]. cbn [runs s_hooks].
  destruct rs as [|r rest]; [intros []|]. intros [Hc Hrest].
  destruct a as [ev | i reply]; cbn [fstep s_hooks runs].
  - destruct (handlerOf decode _ ev) as [hd|]; [|discriminate].
    intros [= <-]. cbn [runs].
    destruct (currentFirst_commitRuns h (exec hd h) r rest Hc Hrest)
      as [r1 [rest1 [E [H1 H2]]]].
    rewrite (leaked_commitRuns h (exec hd h) r rest Hc). rewrite E.
    split; [split; assumption | lia].
  - destruct (nth_error (r :: rest) i) as [ri|] eqn:Hnth; [|discriminate].
    destruct (resume ri reply) as [[writes r']|] eqn:Hres; [|discriminate].
    intros [= <-]. cbn [runs].
    destruct (resume_spec ri reply writes r' h Hres) as [_ [_ [Hcl Hh]]].
    destruct (currentFirst_replaceRun i ri r' r rest Hnth Hcl Hc Hrest)
      as [r1 [rest1 [E [H1 H2]]]].
    pose proof (leaked_replaceRun i ri r' (r :: rest) Hnth Hcl Hh) as Hle.
    rewrite E in Hle |- *.
    destruct (currentFirst_commitRuns h (exec writes h) r1 rest1 H1 H2)
      as [r2 [rest2 [E2 [H3 H4]]]].
    rewrite (leaked_commitRuns h (exec writes h) r1 rest1 H1). rewrite E2.
    split; [split; assumption | exact Hle].
Qed.

(** [step] is [fstep] on the schedules in which the calls of the effect
    settle before the next event. *)
Lemma step_settles_now decode w s ev eff w' :
  settled w s -> step decode w ev eff = Some w' ->
  exists s1, fstep decode s (Handle ev) = Some s1 /\
    settled w' (settleNow decode 3 eff s1).
Proof.
  intros [Hh [rest [Hruns Hrest]]] Hstep.
  assert (Hlive : liveSub s = sub w).
  { unfold liveSub. rewrite Hruns. cbn.
    replace (existsb holds rest) with false; [apply orb_false_r|].
    symmetry. clear Hruns. induction Hrest as [|x xs [_ [Hx _]] _ IH];
      [reflexivity|]. cbn. now rewrite Hx. }
  unfold step in Hstep. cbn [fstep]. rewrite Hlive, Hh.
  replace {| hooks := hooks w; sub := sub w |} with w by (destruct w; reflexivity).
  destruct (handlerOf decode w ev) as [hd|]; [|discriminate Hstep].
  injection Hstep as <-. eexists. split; [reflexivity|].
  set (h' := exec hd (hooks w)).
  unfold commit, commitRuns. cbn [s_hooks runs]. rewrite Hruns.
  destruct (eqMode (mode (hooks w)) (mode h')) eqn:Hm.
  - cbn. split; [reflexivity|]. exists rest. split; [reflexivity | exact Hrest].
  - assert (Hrest' : Forall
              (fun r => stage r = Finished /\ holds r = false /\ cleaned r = true)
              (cleanup {| stage := Finished; holds := sub w; cleaned := false |}
                 :: rest))
      by (constructor; [repeat split | exact Hrest]).
    unfold trackingEffect, startRun.
    destruct (mode h') eqn:Hd; cbn [eqMode negb].
    + cbn. split; [reflexivity|]. eexists. split; [reflexivity | exact Hrest'].
    + destruct eff as [[sv pm] wt]. unfold_handlers.
      cbn [eff_location watchPositionAsync hasServicesEnabledAsync
           requestForegroundPermissionsAsync].
      destruct (eqPerm (locPerm h') granted) eqn:Hp.
      * destruct wt as [[]|e];
          repeat (cbn; unfold commitRuns; cbn; rewrite ?Hd; cbn [eqMode]);
          (split; [reflexivity|]); eexists; (split; [reflexivity | exact Hrest']).
      * destruct sv as [[|]|e1];
          try (destruct pm as [[| |]|e2]);
          try (destruct wt as [[]|e3]);
          repeat (cbn; unfold commitRuns; cbn; rewrite ?Hd; cbn [eqMode]);
          (split; [reflexivity|]); eexists; (split; [reflexivity | exact Hrest']).
Qed.

(** X16: Stop is offered in drive mode and changes nothing but the mode,
    so the last fix and the last speed stay on display.  Whatever event
    takes the controller out of drive mode (the Stop button, or a
    successful load), the cleanup of the tracking effect removes the
    subscription its current run holds, and the only subscriptions left
    open are those that leaked before.  The cleanup does not cancel a
    watch call that is still pending: when that call settles afterwards,
    its subscription is open in browse mode, and no later step removes
    it. *)
Theorem leaving_drive_closes_subscription
    (decode : string -> Completion JsVal) (s : Session) :
  currentFirst s ->
  (forall ev s', fstep decode s (Handle ev) = Some s' ->
     mode (s_hooks s) = drive -> mode (s_hooks s') = browse ->
     exists r rest, runs s = r :: rest /\
       runs s' = startRun (s_hooks s') :: cleanup r :: rest /\
       liveSub s' = existsb holds rest /\ leaked s' = leaked s) /\
  (mode (s_hooks s) = drive ->
   exists s', fstep decode s (Handle PressStop) = Some s' /\
     mode (s_hooks s') = browse /\
     route (s_hooks s') = route (s_hooks s) /\
     routeName (s_hooks s') = routeName (s_hooks s) /\
     sameGpsState (s_hooks s) (s_hooks s') /\
     (forall r rest, runs s = r :: rest -> stage r = AwaitWatch ->
        exists s'', fstep decode s' (Settle 1 (WatchReply (Normal tt))) = Some s'' /\
          mode (s_hooks s'') = browse /\ liveSub s'' = true /\
          leaked s'' = S (leaked s))) /\
  (forall a s', fstep decode s a = Some s' ->
     currentFirst s' /\ (leaked s <= leaked s')%nat).
Proof.
  intros Hcf. split; [|split].
  - intros ev s' Hstep Hd Hb. cbn [fstep] in Hstep.
    destruct (handlerOf decode _ ev) as [hd|]; [|discriminate Hstep].
    injection Hstep as <-. cbn [s_hooks runs] in *.
    unfold currentFirst in Hcf. unfold leaked, liveSub. cbn [runs].
    destruct (runs s) as [|r rest]; [destruct Hcf|]. destruct Hcf as [Hc _].
    exists r, rest. split; [reflexivity|].
    unfold commitRuns. rewrite Hd, Hb. cbn [eqMode].
    split; [reflexivity|]. split.
    + unfold startRun. rewrite Hb. reflexivity.
    + unfold startRun. rewrite Hb. cbn. rewrite Hc, andb_false_r. reflexivity.
  - intros Hd. cbn [fstep handlerOf hooks]. rewrite Hd. cbn [eqMode].
    eexists. split; [reflexivity|]. cbn [s_hooks runs].
    unfold sameGpsState. unfold_handlers. cbn.
    repeat (split; [reflexivity|]). split; [repeat split|].
    intros r rest Hruns Hst. unfold commitRuns. rewrite Hruns, Hd.
    cbn [eqMode nth_error]. unfold resume, cleanup. cbn [stage]. rewrite Hst.
    eexists. split; [reflexivity|]. cbn [s_hooks runs].
    split; [reflexivity|]. unfold liveSub, leaked. cbn [runs replaceRun].
    unfold_handlers. cbn.
    unfold currentFirst in Hcf. rewrite Hruns in Hcf. destruct Hcf as [Hc _].
    rewrite Hruns. cbn. rewrite Hc, andb_false_r. split; reflexivity.
  - intros a s' Hstep. exact (fstep_keeps_leaks decode s a s' Hcf Hstep).
Qed.

Lemma leaving_drive_closes_subscription_witness :
  exists s' s'',
    fstep (fun _ => Normal docTrackAndRoute) sessionAwaitingWatch
          (Handle PressStop) = Some s' /\
    fstep (fun _ => Normal docTrackAndRoute) s'
          (Settle 1 (WatchReply (Normal tt))) = Some s'' /\
    mode (s_hooks s'') = browse /\ liveSub s'' = true /\ leaked s'' = 1%nat.
Proof.
  assert (Hcf : currentFirst sessionAwaitingWatch)
    by (vm_compute; split; [reflexivity | repeat constructor]).
  destruct (leaving_drive_closes_subscription (fun _ => Normal docTrackAndRoute)
              sessionAwaitingWatch Hcf) as [_ [Hstop _]].
  destruct Hstop as [s' [Hstep [_ [_ [_ [_ Hpending]]]]]];
    [vm_compute; reflexivity|].
  destruct (Hpending (startRun (s_hooks sessionAwaitingWatch))
              [cleanup (startRun hooksLoaded)])
    as [s'' [Hsettle [Hm [Hlive Hleak]]]];
    [vm_compute; reflexivity | vm_compute; reflexivity |].
  exists s', s''. repeat split; assumption.
Defined.

Lemma settleNow_frun decode n eff s :
  exists acts, Forall settlesCurrent acts /\ (List.length acts <= n)%nat /\
    frun decode s acts = Some (settleNow decode n eff s).
Proof.
  revert s. induction n as [|n IH]; intros s; cbn [settleNow].
  - exists []. repeat split; [constructor | cbn; lia].
  - assert (Hstay : exists acts, Forall settlesCurrent acts /\
              (List.length acts <= S n)%nat /\ frun decode s acts = Some s)
      by (exists []; repeat split; [constructor | cbn; lia]).
    destruct (runs s) as [|r rest] eqn:Hruns; [exact Hstay|].
    destruct (replyFor eff (stage r)) as [reply|]; [|exact Hstay].
    destruct (fstep decode s (Settle 0 reply)) as [s1|] eqn:Hstep;
      [|exact Hstay].
    destruct (IH s1) as [acts [Hall [Hlen Hrun]]].
    exists (Settle 0 reply :: acts). split; [|split].
    + constructor; [now exists reply | exact Hall].
    + cbn. lia.
    + cbn [frun]. rewrite Hstep. exact Hrun.
Qed.

(** X25: the per-event transition system is the await-by-await system on
    the schedules in which the calls awaited by the tracking effect settle
    before the next event: a step of the first is the same event in the
    second, followed by the settlement of at most three calls of the
    current run (the services query, the permission request, the watch
    call), and it ends in the same state with the same subscription. *)
Theorem step_is_a_settled_schedule
    (decode : string -> Completion JsVal) (w : World) (s : Session)
    (ev : Event) (eff : EffectReplies) (w' : World) :
  settled w s -> step decode w ev eff = Some w' ->
  exists acts s', Forall settlesCurrent acts /\ (List.length acts <= 3)%nat /\
    frun decode s (Handle ev :: acts) = Some s' /\
    settled w' s' /\ liveSub s' = App.sub w'.
Proof.
  intros Hs Hstep.
  destruct (step_settles_now decode w s ev eff w' Hs Hstep)
    as [s1 [H1 Hsettled]].
  destruct (settleNow_frun decode 3 eff s1) as [acts [Hall [Hlen Hrun]]].
  exists acts, (settleNow decode 3 eff s1).
  split; [exact Hall|]. split; [exact Hlen|]. split.
  - cbn [frun]. rewrite H1. exact Hrun.
  - split; [exact Hsettled|].
    destruct Hsettled as [_ [rest [Hruns Hrest]]].
    unfold liveSub. rewrite Hruns. cbn.
    replace (existsb holds rest) with false; [apply orb_false_r|].
    symmetry. clear Hruns. induction Hrest as [|x xs [_ [Hx _]] _ IH];
      [reflexivity|]. cbn. now rewrite Hx.
Qed.

Lemma step_is_a_settled_schedule_witness :
  exists acts s',
    frun (fun _ => Normal docTrackAndRoute) sessionLoaded
         (Handle (PressStart (eff_location allGranted)) :: acts) = Some s' /\
    s_hooks s' = hooks worldDriving /\ liveSub s' = true.
Proof.
  assert (Hs : settled worldLoaded sessionLoaded).
  { split; [reflexivity|]. exists []. split; [reflexivity | constructor]. }
  assert (Hstep : step (fun _ => Normal docTrackAndRoute) worldLoaded
                    (PressStart (eff_location allGranted)) allGranted
                  = Some worldDriving) by (vm_compute; reflexivity).
  destruct (step_is_a_settled_schedule (fun _ => Normal docTrackAndRoute)
              worldLoaded sessionLoaded _ allGranted worldDriving Hs Hstep)
    as [acts [s' [_ [_ [Hrun [[Hh _] Hlive]]]]]].
  exists acts, s'. split; [exact Hrun|]. split; [exact Hh|].
  rewrite Hlive. vm_compute. reflexivity.
Defined.

Lemma idle_step decode s a s' :
  idle s -> fstep decode s a = Some s' -> ~ successfulStart a -> idle s'.
Proof.
  intros [Hb Hruns] Hstep Hno. destruct a as [ev | i reply]; cbn [fstep] in Hstep.
  - destruct (handlerOf decode _ ev) as [hd|] eqn:Hh; [|discriminate Hstep].
    injection Hstep as <-. unfold idle. cbn [s_hooks runs].
    destruct (mode_cases (mode (exec hd (s_hooks s)))) as [Hm | Hm].
    + split; [exact Hm|]. unfold commitRuns. rewrite Hb, Hm. exact Hruns.
    + exfalso. apply Hno.
      destruct (only_start_enters_drive decode _ ev hd Hh Hb Hm)
        as [env [-> [H1 H2]]].
      now exists env.
  - destruct (nth_error (runs s) i) as [r|] eqn:Hnth; [|discriminate Hstep].
    apply nth_error_In in Hnth. rewrite Forall_forall in Hruns.
    destruct (Hruns r Hnth) as [Hst _].
    unfold resume in Hstep. rewrite Hst in Hstep. discriminate Hstep.
Qed.

Lemma idle_run decode acts s0 s :
  idle s0 -> frun decode s0 acts = Some s ->
  (forall a, In a acts -> ~ successfulStart a) -> idle s.
Proof.
  revert s0. induction acts as [|a rest IH]; intros s0 H0 Hr Hno;
    cbn [frun] in Hr.
  - now injection Hr as <-.
  - destruct (fstep decode s0 a) as [s1|] eqn:Hstep; [|discriminate Hr].
    apply (IH s1); [|exact Hr|].
    + apply (idle_step decode s0 a s1 H0 Hstep). apply Hno. now left.
    + intros b Hb. apply Hno. now right.
Qed.

(** X26: in the await-by-await system, as long as no start attempt has
    found the services enabled and the permission granted, the mode is
    browse, no subscription is open or leaked, and the tracking effect
    awaits no call; and the only action that takes the mode from browse
    to drive is such a start attempt. *)
Theorem no_subscription_before_a_successful_start
    (decode : string -> Completion JsVal) (acts : list Action) (s : Session) :
  frun decode initialSession acts = Some s ->
  (forall a, In a acts -> ~ successfulStart a) ->
  mode (s_hooks s) = browse /\ liveSub s = false /\ leaked s = 0%nat /\
  (forall i reply, fstep decode s (Settle i reply) = None) /\
  (forall a s', fstep decode s a = Some s' ->
     mode (s_hooks s') = drive -> successfulStart a).
Proof.
  intros Hrun Hno.
  assert (Hidle : idle s).
  { apply (idle_run decode acts initialSession s); [|exact Hrun | exact Hno].
    split; [reflexivity|]. repeat constructor. }
  destruct Hidle as [Hb Hruns]. split; [exact Hb|].
  assert (Hnone : forall P : EffectRun -> bool,
            (forall r, holds r = false -> P r = false) ->
            filter P (runs s) = [] /\ existsb P (runs s) = false).
  { intros P HP. induction Hruns as [|r rs [_ Hr] _ [IH1 IH2]]; [split; reflexivity|].
    cbn. rewrite (HP r Hr), IH1, IH2. split; reflexivity. }
  split; [apply (Hnone holds); auto|].
  split.
  { unfold leaked.
    rewrite (proj1 (Hnone (fun r => holds r && cleaned r)
                      ltac:(intros r Hr; cbn; rewrite Hr; reflexivity))).
    reflexivity. }
  split.
  - intros i reply. cbn [fstep].
    destruct (nth_error (runs s) i) as [r|] eqn:Hnth; [|reflexivity].
    apply nth_error_In in Hnth. rewrite Forall_forall in Hruns.
    destruct (Hruns r Hnth) as [Hst _].
    unfold resume. rewrite Hst. reflexivity.
  - intros a s' Hstep Hd. destruct a as [ev | i reply]; cbn [fstep] in Hstep.
    + destruct (handlerOf decode _ ev) as [hd|] eqn:Hh; [|discriminate Hstep].
      injection Hstep as <-. cbn [s_hooks] in Hd.
      destruct (only_start_enters_drive decode _ ev hd Hh Hb Hd)
        as [env [-> [H1 H2]]].
      now exists env.
    + destruct (nth_error (runs s) i) as [r|] eqn:Hnth; [|discriminate Hstep].
      apply nth_error_In in Hnth. rewrite Forall_forall in Hruns.
      destruct (Hruns r Hnth) as [Hst _].
      unfold resume in Hstep. rewrite Hst in Hstep. discriminate Hstep.
Qed.

Lemma no_subscription_before_a_successful_start_witness :
  exists s,
    frun (fun _ => Normal docTrackAndRoute) initialSession
         [Handle loadRide; Handle (PressStart servicesOffPermissionGranted)]
      = Some s /\
    mode (s_hooks s) = browse /\ liveSub s = false.
Proof.
  assert (Hrun : exists s,
            frun (fun _ => Normal docTrackAndRoute) initialSession
                 [Handle loadRide; Handle (PressStart servicesOffPermissionGranted)]
            = Some s) by (eexists; vm_compute; reflexivity).
  destruct Hrun as [s Hrun]. exists s. split; [exact Hrun|].
  destruct (no_subscription_before_a_successful_start
              (fun _ => Normal docTrackAndRoute) _ s Hrun) as [Hm [Hl _]].
  - intros a [<- | [<- | []]] [env [Heq [H1 H2]]].
    + discriminate Heq.
    + injection Heq as <-. discriminate H1.
  - split; assumption.
Defined.

(** ** The permission check, the tracking effect and the fixes *)

(** X17: when both queries answer, the permission check records both
    answers (an undetermined permission is recorded as denied, never as
    unknown), asks for the permission even when the services are off,
    answers [true] only when both are fine, sets the services-off error
    only when the services are off, and leaves the route side alone; when
    the services query rejects, the permission is not asked for and
    nothing is written. *)
Theorem permission_check_records_answers (env : LocationReplies) (h : Hooks) :
  (forall enabled st,
     hasServicesEnabledAsync env = Normal enabled ->
     requestForegroundPermissionsAsync env = Normal st ->
     let h' := fst (requestLocationPermission env h) in
     snd (requestLocationPermission env h) = Normal (isGranted st && enabled) /\
     servicesEnabled h' = Some enabled /\
     locPerm h' = (if isGranted st then granted else denied) /\
     locPerm h' <> unknown /\
     gpsError h' = (if enabled then gpsError h else VString servicesOffMessage) /\
     sameRouteState h h') /\
  (forall e, hasServicesEnabledAsync env = Throw e ->
     requestLocationPermission env h = (h, Throw e)).
Proof.
  split.
  - intros enabled st Hs Hp. destruct env as [sv pm]. cbn in Hs, Hp. subst sv pm.
    unfold sameRouteState. unfold_handlers. cbn.
    destruct enabled, st; cbn; repeat split; discriminate.
  - intros e He. destruct env as [sv pm]. cbn in He. subst sv.
    unfold_handlers. cbn. reflexivity.
Qed.

Lemma permission_check_records_answers_witness :
  let h' := fst (requestLocationPermission
                   {| hasServicesEnabledAsync := Normal false;
                      requestForegroundPermissionsAsync := Normal st_undetermined |}
                   initialHooks) in
  locPerm h' = denied /\ servicesEnabled h' = Some false /\
  gpsError h' = VString servicesOffMessage.
Proof.
  intros h'.
  destruct (permission_check_records_answers
              {| hasServicesEnabledAsync := Normal false;
                 requestForegroundPermissionsAsync := Normal st_undetermined |}
              initialHooks) as [Hrec _].
  destruct (Hrec false st_undetermined eq_refl eq_refl)
    as [_ [Hs [Hp [_ [He _]]]]].
  repeat split; assumption.
Defined.

(** X18: the tracking effect does nothing outside drive mode; in drive
    mode it ends with an open subscription exactly when the permission was
    granted in the render that scheduled it, or is granted (with the
    services enabled) by a fresh check, and the watch call succeeds; with
    the permission already granted it makes no check of its own. *)
Theorem subscription_opens_iff (snap h : Hooks) (eff : EffectReplies) :
  let h' := fst (trackingEffect snap eff h) in
  let r := snd (trackingEffect snap eff h) in
  (mode snap = browse -> h' = h /\ r = Normal false) /\
  (mode snap = drive ->
   (r = Normal true <->
    (locPerm snap = granted \/
     (hasServicesEnabledAsync (eff_location eff) = Normal true /\
      requestForegroundPermissionsAsync (eff_location eff) = Normal st_granted))
    /\ watchPositionAsync eff = Normal tt)) /\
  (mode snap = drive -> locPerm snap = granted ->
   locPerm h' = locPerm h /\ servicesEnabled h' = servicesEnabled h).
Proof.
  cbv zeta. split; [|split].
  - intros Hb. unfold trackingEffect. rewrite Hb. cbn. split; reflexivity.
  - intros Hd. unfold trackingEffect. rewrite Hd. cbn [eqMode negb].
    destruct eff as [[sv pm] wt]. cbn [eff_location watchPositionAsync
      hasServicesEnabledAsync requestForegroundPermissionsAsync].
    unfold_handlers.
    destruct (locPerm snap); cbn;
      destruct sv as [[|]|e1]; cbn;
      try (destruct pm as [[| |]|e2]; cbn);
      try (destruct wt as [[]|e3]; cbn);
      (split; [intros H; try discriminate H
              | intros [[H|[H1 H2]] H3]; try discriminate; try reflexivity]);
      try (split; [|reflexivity]); auto.
  - intros Hd Hg. unfold trackingEffect. rewrite Hd, Hg. cbn.
    unfold_handlers. destruct (watchPositionAsync eff); cbn; split; reflexivity.
Qed.

Lemma subscription_opens_iff_witness :
  snd (trackingEffect (hooks worldDriving) allGranted (hooks worldDriving))
  = Normal true.
Proof.
  destruct (subscription_opens_iff (hooks worldDriving) (hooks worldDriving)
              allGranted) as [_ [Hopen _]].
  apply Hopen; [vm_compute; reflexivity|].
  split; [left; vm_compute; reflexivity | reflexivity].
Defined.

(** X19: a fix is processed only while a subscription is open; it then
    becomes the last fix, the speed readout is the formatted speed of that
    fix (the unknown marker when the fix has no speed, the stored speed
    being null and never undefined), and mode, route and subscription are
    unchanged. *)
Theorem fix_updates_speed_readout
    (decode : string -> Completion JsVal) (w : World) (pos : Coords)
    (eff : EffectReplies) :
  (App.sub w = false -> step decode w (Position pos) eff = None) /\
  (App.sub w = true ->
   exists w', step decode w (Position pos) eff = Some w' /\
     location (hooks w') = Some pos /\
     speedText (hooks w') = fmtSpeed (c_speed pos) /\
     speedMs (hooks w') <> VUndefined /\
     (nullish (c_speed pos) = true -> speedText (hooks w') = "—") /\
     sameRouteState (hooks w) (hooks w') /\ App.sub w' = true).
Proof.
  split; intros Hs; unfold step, handlerOf; rewrite Hs; [reflexivity|].
  eexists. split; [reflexivity|].
  unfold commit, speedText, sameRouteState. unfold_handlers. cbn.
  assert (Hsame : eqMode (mode (hooks w)) (mode (hooks w)) = true)
    by (destruct (mode (hooks w)); reflexivity).
  rewrite Hsame. cbn.
  destruct (c_speed pos) eqn:Hsp; cbn; repeat split; try discriminate;
    try assumption.
Qed.

Lemma fix_updates_speed_readout_witness :
  exists w',
    step (fun _ => Normal docTrackAndRoute) worldDriving
         (Position fixWithoutSpeed) allGranted = Some w' /\
    speedText (hooks w') = "—".
Proof.
  destruct (fix_updates_speed_readout (fun _ => Normal docTrackAndRoute)
              worldDriving fixWithoutSpeed allGranted) as [_ Hopen].
  destruct Hopen as [w' [Hstep [_ [_ [_ [Hnone _]]]]]]; [vm_compute; reflexivity|].
  exists w'. split; [exact Hstep|]. apply Hnone. reflexivity.
Defined.

(** ** The speed readout is never negative *)

Lemma digitsOf_head fuel : forall n acc,
  fuel <> 0%nat ->
  exists d rest, 0 <= d < 10 /\
    digitsOf fuel n acc = ascii_of_N (Z.to_N (48 + d)) :: rest.
Proof.
  induction fuel as [|fuel IH]; intros n acc Hf; [congruence|].
  cbn [digitsOf].
  assert (Hd : 0 <= n mod 10 < 10) by (apply Z.mod_pos_bound; lia).
  destruct (Z.ltb n 10); [eauto|].
  destruct fuel as [|fuel']; [cbn; eauto|].
  apply IH. discriminate.
Qed.

Lemma digit_is_not_minus d :
  0 <= d < 10 -> Ascii.eqb (ascii_of_N (Z.to_N (48 + d))) "-"%char = false.
Proof.
  intros Hd.
  assert (H : d = 0 \/ d = 1 \/ d = 2 \/ d = 3 \/ d = 4 \/ d = 5 \/ d = 6 \/
              d = 7 \/ d = 8 \/ d = 9) by lia.
  repeat (destruct H as [-> | H]; [reflexivity|]). subst d. reflexivity.
Qed.

Lemma decimal_head n :
  exists c rest, decimal n = c :: rest /\ Ascii.eqb c "-"%char = false.
Proof.
  unfold decimal.
  destruct (digitsOf_head (S (Z.to_nat (Z.log2 n))) n [] ltac:(discriminate))
    as [d [rest [Hd ->]]].
  exists (ascii_of_N (Z.to_N (48 + d))), rest.
  split; [reflexivity | now apply digit_is_not_minus].
Qed.

Lemma layout_head s k n :
  exists c rest, layout s k n = c :: rest /\ Ascii.eqb c "-"%char = false.
Proof.
  unfold layout. destruct (decimal_head s) as [c [rest [-> Hc]]].
  destruct (Z.leb k n && Z.leb n 21); [cbn; eauto|].
  destruct (Z.ltb 0 n && Z.leb n 21) eqn:Hn.
  - apply andb_true_iff in Hn as [Hpos _]. apply Z.ltb_lt in Hpos.
    destruct (Z.to_nat n) as [|m] eqn:Hm; [lia|]. cbn. eauto.
  - destruct (Z.ltb (-6) n && Z.leb n 0); [cbn; eauto|].
    destruct (Z.eqb k 1); cbn; eauto.
Qed.

Lemma positiveToString_head m e :
  exists c rest, positiveToString m e = c :: rest /\ Ascii.eqb c "-"%char = false.
Proof.
  unfold positiveToString.
  destruct (shortest _ _ _ _ _ _) as [[s k] n']. apply layout_head.
Qed.

Lemma unsigned_string_has_no_minus x :
  unsignedNumber x -> startsWithMinus (NumberToString x) = false.
Proof.
  destruct x as [s|s| |s m e]; cbn; intros H; try reflexivity.
  - subst s. reflexivity.
  - subst s. destruct (positiveToString_head m e) as [c [rest [-> Hc]]].
    cbn. exact Hc.
Qed.

Lemma binary_round_aux_unsigned mx ex lx :
  unsignedNumber (binary_round_aux prec emax false mx ex lx).
Proof.
  unfold binary_round_aux.
  destruct (shr_fexp prec emax mx ex lx) as [mrs' e'].
  destruct (shr_fexp prec emax _ e' loc_Exact) as [mrs'' e''].
  destruct (shr_m mrs'') as [|q|q]; [exact I | | exact I].
  match goal with |- context [if ?b then _ else _] => destruct b end;
    reflexivity.
Qed.

Lemma ofZ_unsigned r : 0 <= r -> unsignedNumber (ofZ r).
Proof.
  intros Hr. unfold ofZ, binary_normalize, binary_round.
  destruct r as [|q|q]; [exact I | | lia].
  destruct (shl_align q 0 _) as [mz ez]. apply binary_round_aux_unsigned.
Qed.

Lemma Math_round_unsigned x : unsignedNumber x -> unsignedNumber (Math_round x).
Proof.
  destruct x as [s|s| |s m e]; try (intros H; exact H). intros H.
  cbn in H. subst s. unfold Math_round.
  destruct (Z.leb 0 e) eqn:He; [reflexivity|]. apply Z.leb_gt in He.
  destruct (Z.eqb (Z.pos m mod 2 ^ (- e)) 0); [reflexivity|].
  destruct (Z.eqb (nearestInteger false m (- e)) 0); [exact I|].
  apply ofZ_unsigned. unfold nearestInteger.
  apply Z.div_pos; [|apply Z.pow_pos_nonneg; lia].
  assert (0 <= 2 ^ (- e)) by (apply Z.pow_nonneg; lia). lia.
Qed.

Lemma not_below_zero_unsigned v :
  isFinite v = true -> ltb v posZero = false -> unsignedNumber v.
Proof.
  destruct v as [s|s| |[|] m e]; cbn; intros Hf Hlt;
    try exact I; try discriminate; reflexivity.
Qed.

(** X20: whatever value it is given, the speed readout never starts with
    a minus sign: a negative speed is shown as "0", and the rounded value
    of a speed that is not negative is formatted without a sign. *)
Theorem speed_readout_is_never_negative (ms : JsVal) :
  startsWithMinus (fmtSpeed ms) = false.
Proof.
  unfold fmtSpeed.
  destruct (nullish ms || negb (Number_isFinite ms)); [reflexivity|].
  cbv zeta.
  destruct (isFinite (kmh (numberOf ms))) eqn:Hfin; [|reflexivity].
  cbn [negb orb].
  destruct (ltb (kmh (numberOf ms)) posZero) eqn:Hlt; [reflexivity|].
  apply unsigned_string_has_no_minus, Math_round_unsigned.
  now apply not_below_zero_unsigned.
Qed.

(** ** Start attempts that fail, the mount effect and the subtitle *)

(** X22: [startNavigation] has no handler for a rejected query: when the
    services query or the permission request rejects, the attempt ends
    there, with the mode and the route as they were and without the
    generic error; the error shown before the attempt has been cleared,
    and after a rejected services query nothing else is written. *)
Theorem rejected_query_aborts_start (snap h : Hooks) (env : LocationReplies)
    (e : JsVal) :
  (hasServicesEnabledAsync env = Throw e ->
   let h' := exec (startNavigation snap env) h in
   sameRouteState h h' /\ gpsError h' = VNull /\
   locPerm h' = locPerm h /\ servicesEnabled h' = servicesEnabled h) /\
  (requestForegroundPermissionsAsync env = Throw e ->
   let h' := exec (startNavigation snap env) h in
   sameRouteState h h' /\ locPerm h' = locPerm h /\
   gpsError h' <> VString "Location permission denied").
Proof.
  unfold sameRouteState. destruct env as [sv pm]. cbn. split.
  - intros ->. unfold_handlers. cbn. repeat split.
  - intros ->. unfold_handlers. destruct sv as [[|]|e1]; cbn;
      repeat split; discriminate.
Qed.

Lemma rejected_query_aborts_start_witness :
  let h' := exec (startNavigation hooksAfterDenial
                    {| hasServicesEnabledAsync := Throw (Error "no provider");
                       requestForegroundPermissionsAsync := Normal st_granted |})
                 hooksAfterDenial in
  mode h' = browse /\ gpsError h' = VNull.
Proof.
  intros h'.
  destruct (rejected_query_aborts_start hooksAfterDenial hooksAfterDenial
              {| hasServicesEnabledAsync := Throw (Error "no provider");
                 requestForegroundPermissionsAsync := Normal st_granted |}
              (Error "no provider")) as [Hsv _].
  destruct (Hsv eq_refl) as [[_ [_ Hm]] [He _]].
  split; [subst h'; rewrite Hm; reflexivity | exact He].
Defined.

(** X23: the mount-time permission effect only records what it is told:
    the permission as granted, denied or (undetermined) unknown, and the
    services flag; it never shows an error, even with the services off,
    and never touches the route side; if the permission query rejects,
    nothing is written. *)
Theorem mount_effect_only_records
    (perm : Completion PermissionStatus) (enabled : Completion bool) (h : Hooks) :
  let h' := exec (initialPermissionEffect perm enabled) h in
  gpsError h' = gpsError h /\ sameRouteState h h' /\
  (forall st, perm = Normal st ->
     locPerm h' = match st with
                  | st_granted => granted
                  | st_denied => denied
                  | st_undetermined => unknown
                  end) /\
  (forall st b, perm = Normal st -> enabled = Normal b ->
     servicesEnabled h' = Some b) /\
  (forall e, perm = Throw e -> h' = h).
Proof.
  unfold sameRouteState. unfold_handlers.
  destruct perm as [[| |]|e]; cbn; try destruct enabled as [b|e']; cbn;
    repeat split; try congruence; try (intros st [= <-]; reflexivity);
    destruct h; reflexivity.
Qed.

Lemma mount_effect_only_records_witness :
  let h' := exec (initialPermissionEffect (Normal st_undetermined) (Normal false))
                 initialHooks in
  locPerm h' = unknown /\ servicesEnabled h' = Some false /\ gpsError h' = VNull.
Proof.
  intros h'.
  destruct (mount_effect_only_records (Normal st_undetermined) (Normal false)
              initialHooks) as [He [_ [Hp [Hs _]]]].
  split; [exact (Hp _ eq_refl)|]. split; [exact (Hs _ _ eq_refl eq_refl)|].
  exact He.
Defined.

(** X24: after a successful load the subtitle renders the parsed name
    when it is truthy and "Loaded GPX route" otherwise (so an empty name
    is not shown): a non-empty string is shown as it is, the boolean true
    renders an empty subtitle, and a name that is an object (a [name]
    element with child elements) makes the render throw.  A load that
    surfaces an error leaves the subtitle as it was. *)
Theorem subtitle_after_load (decode : string -> Completion JsVal)
    (picked : Completion DocumentPickerResult)
    (read : JsVal -> Completion string) (h : Hooks) :
  let h' := exec (pickGpx decode picked read) h in
  (nullish (gpxError h') = false -> subtitleText h' = subtitleText h) /\
  (forall p xml doc parsed,
     picked = Normal p -> canceled p = false -> truthy (pickedUri p) = true ->
     read (pickedUri p) = Normal xml -> decode xml = Normal doc ->
     parseGpxDoc doc = Normal parsed -> points parsed <> [] ->
     subtitleText h' = (if truthy (name parsed) then renderChild (name parsed)
                        else Normal "Loaded GPX route") /\
     (forall s, name parsed = VString s -> s <> "" -> subtitleText h' = Normal s) /\
     (name parsed = VBool true -> subtitleText h' = Normal "") /\
     (forall fields, name parsed = VObject fields ->
        exists e, subtitleText h' = Throw e)).
Proof.
  intros h'. split.
  - intros Herr.
    destruct (pickGpx_error_frame decode picked read h Herr) as [Hr [Hn _]].
    fold h' in Hr, Hn. unfold subtitleText, subtitle. now rewrite Hr, Hn.
  - intros p xml doc parsed -> Hc Hu Hread Hdec Hparsed Hsome. subst h'.
    rewrite (pickGpx_reads decode p read xml h Hc Hu Hread).
    unfold parseGpxXml. rewrite Hdec, Hparsed.
    destruct (points parsed) as [|q qs] eqn:Hpts; [congruence|].
    assert (Htext : subtitleText
              (exec (setGpxError VNull ;; setRouteName (name parsed) ;;
                     setRoute (q :: qs) ;; setMode browse ;;
                     setLoadingGpx false) h) =
            (if truthy (name parsed) then renderChild (name parsed)
             else Normal "Loaded GPX route")).
    { unfold subtitleText, subtitle. unfold_handlers. cbn.
      now destruct (truthy (name parsed)). }
    cbn [List.length Nat.eqb]. rewrite Htext.
    split; [reflexivity|]. split; [|split].
    + intros s -> Hs. cbn.
      destruct (String.eqb s "") eqn:E; [|reflexivity].
      apply String.eqb_eq in E. contradiction.
    + intros ->. reflexivity.
    + intros fields ->. eexists. reflexivity.
Qed.

Lemma subtitle_after_load_witness :
  subtitleText (exec (pickGpx (fun _ => Normal docEmptyMetadataName)
                        (Normal (pickedFile "file:///ride.gpx"))
                        (fun _ => Normal "<gpx/>")) initialHooks)
  = Normal "Loaded GPX route".
Proof.
  destruct (subtitle_after_load (fun _ => Normal docEmptyMetadataName)
              (Normal (pickedFile "file:///ride.gpx"))
              (fun _ => Normal "<gpx/>") initialHooks) as [_ Hok].
  destruct (Hok (pickedFile "file:///ride.gpx") "<gpx/>" docEmptyMetadataName
              {| name := VString "";
                 points := [coords (pt "47.5" "8.25")] |}
              eq_refl eq_refl eq_refl eq_refl eq_refl)
    as [Htext _].
  - vm_compute. reflexivity.
  - discriminate.
  - rewrite Htext. reflexivity.
Defined.

(** X21: a start attempt that fails only because the permission is not
    granted (services enabled) stays in browse mode, and what it shows
    depends on what was showing when Start was pressed: the generic
    "Location permission denied" when no GPS error was showing, and no
    error at all when one was showing, so that repeated denied attempts
    show the message every other time. *)
Theorem denied_attempts_alternate
    (decode : string -> Completion JsVal) (w : World)
    (env : LocationReplies) (eff : EffectReplies) (st : PermissionStatus) :
  showStart (hooks w) = true ->
  hasServicesEnabledAsync env = Normal true ->
  requestForegroundPermissionsAsync env = Normal st -> isGranted st = false ->
  exists w', step decode w (PressStart env) eff = Some w' /\
    mode (hooks w') = browse /\ App.sub w' = App.sub w /\
    route (hooks w') = route (hooks w) /\
    gpsError (hooks w') =
      (if truthy (gpsError (hooks w)) then VNull
       else VString "Location permission denied").
Proof.
  intros Hshow Hs Hp Hden. unfold showStart in Hshow.
  unfold step, handlerOf. rewrite Hshow.
  apply andb_true_iff in Hshow as [_ Hmode].
  destruct (mode (hooks w)) eqn:Hm; [|discriminate Hmode].
  eexists. split; [reflexivity|].
  destruct env as [sv pm]. cbn in Hs, Hp. subst sv pm.
  unfold commit. unfold_handlers.
  destruct st; [discriminate Hden | |]; cbn;
    destruct (truthy (gpsError (hooks w))); cbn; rewrite Hm; cbn;
    repeat split.
Qed.

Lemma denied_attempts_alternate_witness :
  exists w2,
    step (fun _ => Normal docTrackAndRoute) worldAfterDenial
         (PressStart servicesOnPermissionDenied) allGranted = Some w2 /\
    gpsError (hooks worldAfterDenial) = VString "Location permission denied" /\
    gpsError (hooks w2) = VNull.
Proof.
  assert (Hshow : showStart (hooks worldAfterDenial) = true)
    by (vm_compute; reflexivity).
  destruct (denied_attempts_alternate (fun _ => Normal docTrackAndRoute)
              worldAfterDenial servicesOnPermissionDenied allGranted st_denied
              Hshow eq_refl eq_refl eq_refl) as [w2 [H2 [_ [_ [_ He2]]]]].
  exists w2. split; [exact H2|]. split; [vm_compute; reflexivity|].
  rewrite He2. vm_compute. reflexivity.
Defined.
